(** * image-converter: resize arithmetic, batch progress and PDF grid layout

    A shallow embedding of the computational parts of

    - [components/image-uploader.tsx]  ([processImageInBrowser],
      [processFiles], [handleSubmit], the handlers of the form,
      [removeImage]),
    - [components/image-preview.tsx]   ([calculateTargetDimensions]),
    - [components/image-results.tsx]   ([groupedResults], [downloadImage],
      [downloadAllAsZip]),
    - [components/pdf-generator.tsx]   ([moveImageUp], [moveImageDown],
      [removeImage], [generatePDF], [sanitizeFilename]),

    followed by the properties proved about them.

    Every value the TypeScript code calls [number] is an IEEE-754 binary64
    value.  The code divides before it multiplies
    ([(img.height / img.width) * targetWidth]), so its results depend on the
    rounding of each operation; the numbers are therefore modelled as binary64
    values with round-to-nearest-even, not as exact rationals. *)

From Stdlib Require Import ZArith Lia Bool List Sorted String Ascii.
Import ListNotations.
Open Scope Z_scope.

(* ================================================================= *)
(** ** ECMAScript numbers *)

Module JSNumber.

(** Every finite binary64 value is an integer multiple of [2^-1074], the
    smallest subnormal.  [Fin z] stands for [z * 2^-1074]; [U] is the
    representation of [1].  The two zeros are identified: nothing in the
    modelled code can tell them apart ([0 || x], [0 === -0]). *)
Definition U : Z := 2 ^ 1074.

Inductive num : Type :=
| Fin (z : Z)
| Inf (neg : bool)
| NaN.

(** Nearest integer to [n / d], ties to even ([0 <= n], [0 < d]). *)
Definition rne (n d : Z) : Z :=
  let q := n / d in
  match (2 * (n mod d)) ?= d with
  | Lt => q
  | Gt => q + 1
  | Eq => if Z.even q then q else q + 1
  end.

(** Binary exponent of the last place of the binade holding [n / d]: a value
    below [2^53] units (subnormals and the first normal binade) is rounded to
    a whole unit, a value in [[2^(52+e), 2^(53+e))] to a multiple of [2^e]. *)
Definition expo (n d : Z) : Z := Z.max 0 (Z.log2 (n / d) - 52).

Definition fl_pos (n d : Z) : Z :=
  let e := 2 ^ expo n d in rne n (d * e) * e.

(** [Number.MAX_VALUE], [(2^53 - 1) * 2^971], in units. *)
Definition MAXU : Z := (2 ^ 53 - 1) * 2 ^ 2045.

(** The Number value for the rational [n / d] units ([0 < d]): rounded to 53
    significant bits, to nearest, ties to even; infinite past [MAXU]. *)
Definition fl (n d : Z) : num :=
  let v := fl_pos (Z.abs n) d in
  if v <=? MAXU then Fin (Z.sgn n * v) else Inf (n <? 0).

(** [g] units is a binary64 value: a multiple of the last place of its own
    binade. *)
Definition repr (g : Z) : Prop := (2 ^ expo g 1 | g).

Definition of_Z (z : Z) : num := fl (z * U) 1.
Definition of_nat (n : nat) : num := of_Z (Z.of_nat n).

Definition fneg (x : num) : num :=
  match x with
  | Fin a => Fin (- a)
  | Inf s => Inf (negb s)
  | NaN => NaN
  end.

(** [x + y] *)
Definition fadd (x y : num) : num :=
  match x, y with
  | Fin a, Fin b => fl (a + b) 1
  | Fin _, Inf s | Inf s, Fin _ => Inf s
  | Inf s, Inf t => if Bool.eqb s t then Inf s else NaN
  | _, _ => NaN
  end.

(** [x - y] *)
Definition fsub (x y : num) : num := fadd x (fneg y).

(** [x * y] *)
Definition fmul (x y : num) : num :=
  match x, y with
  | Fin a, Fin b => fl (a * b) U
  | Fin a, Inf s | Inf s, Fin a =>
      if a =? 0 then NaN else Inf (xorb s (a <? 0))
  | Inf s, Inf t => Inf (xorb s t)
  | _, _ => NaN
  end.

(** [x / y] *)
Definition fdiv (x y : num) : num :=
  match x, y with
  | Fin a, Fin b =>
      if b =? 0 then (if a =? 0 then NaN else Inf (a <? 0))
      else fl (a * U * Z.sgn b) (Z.abs b)
  | Fin _, Inf _ => Fin 0
  | Inf s, Fin b => Inf (xorb s (b <? 0))
  | _, _ => NaN
  end.

(** [x % y]: the remainder takes the sign of the dividend and is exact. *)
Definition frem (x y : num) : num :=
  match x, y with
  | Fin a, Fin b => if b =? 0 then NaN else Fin (Z.rem a b)
  | Fin a, Inf _ => Fin a
  | _, _ => NaN
  end.

(** [x <= y], [x < y], [x >= y], [x === y]; false whenever a NaN is involved. *)
Definition fle (x y : num) : bool :=
  match x, y with
  | Fin a, Fin b => a <=? b
  | Fin _, Inf s => negb s
  | Inf s, Fin _ => s
  | Inf s, Inf t => s || negb t
  | _, _ => false
  end.

Definition feq (x y : num) : bool :=
  match x, y with
  | Fin a, Fin b => a =? b
  | Inf s, Inf t => Bool.eqb s t
  | _, _ => false
  end.

Definition flt (x y : num) : bool := fle x y && negb (feq x y).
Definition fge (x y : num) : bool := fle y x.

(** [Math.min(x, y)] *)
Definition fmin (x y : num) : num :=
  match x, y with
  | NaN, _ | _, NaN => NaN
  | _, _ => if fle x y then x else y
  end.

(** [Math.round(x)]: the integer nearest to [x], ties towards +infinity. *)
Definition jsRound (x : num) : num :=
  match x with
  | Fin a => Fin ((2 * a + U) / (2 * U) * U)
  | _ => x
  end.

(** [Math.floor(x)] *)
Definition jsFloor (x : num) : num :=
  match x with
  | Fin a => Fin (a / U * U)
  | _ => x
  end.

(** [Math.ceil(x)] *)
Definition jsCeil (x : num) : num :=
  match x with
  | Fin a => Fin (- ((- a) / U) * U)
  | _ => x
  end.

(** ToBoolean on a number: [0] and [NaN] are falsy. *)
Definition truthy (x : num) : bool :=
  match x with
  | Fin a => negb (a =? 0)
  | Inf _ => true
  | NaN => false
  end.

(** [x || y] on numbers *)
Definition jsOr (x y : num) : num := if truthy x then x else y.

End JSNumber.
Import JSNumber.

(* ================================================================= *)
(** ** ECMAScript strings *)

Module JSString.

(** A string is a sequence of UTF-16 code units. *)
Definition jsstring : Type := list N.

Definition lit (s : string) : jsstring :=
  List.map N_of_ascii (list_ascii_of_string s).

(** WhiteSpace and LineTerminator code units, as removed by [trim] and
    skipped by [parseInt]. *)
Definition isWhiteSpace (c : N) : bool :=
  existsb (N.eqb c)
    [9; 10; 11; 12; 13; 32; 160; 5760; 8192; 8193; 8194; 8195; 8196; 8197;
     8198; 8199; 8200; 8201; 8202; 8232; 8233; 8239; 8287; 12288; 65279]%N.

Fixpoint trimStart (s : jsstring) : jsstring :=
  match s with
  | c :: s' => if isWhiteSpace c then trimStart s' else s
  | [] => []
  end.

Definition trimEnd (s : jsstring) : jsstring := rev (trimStart (rev s)).

(** [s.trim()] *)
Definition trim (s : jsstring) : jsstring := trimEnd (trimStart s).

(** ToBoolean on a string: only the empty string is falsy. *)
Definition nonEmpty (s : jsstring) : bool :=
  match s with [] => false | _ :: _ => true end.

(** Value of a digit in radix up to 36. *)
Definition digitValue (c : N) : option Z :=
  if ((48 <=? c) && (c <=? 57))%N then Some (Z.of_N c - 48)
  else if ((97 <=? c) && (c <=? 122))%N then Some (Z.of_N c - 87)
  else if ((65 <=? c) && (c <=? 90))%N then Some (Z.of_N c - 55)
  else None.

(** The longest prefix of radix-[R] digits, as an integer; [acc] is [None]
    until a digit has been read. *)
Fixpoint parseDigits (R : Z) (acc : option Z) (s : jsstring) : option Z :=
  match s with
  | c :: s' =>
      match digitValue c with
      | Some v =>
          if v <? R
          then parseDigits R (Some (match acc with Some a => a | None => 0 end * R + v)) s'
          else acc
      | None => acc
      end
  | [] => acc
  end.

(** [Number.parseInt(s)] with no radix argument. *)
Definition parseInt (s : jsstring) : num :=
  let s0 := trimStart s in
  let '(sign, s1) :=
    match s0 with
    | 45%N :: r => (-1, r)
    | 43%N :: r => (1, r)
    | _ => (1, s0)
    end in
  let '(R, s2) :=
    match s1 with
    | 48%N :: 120%N :: r => (16, r)
    | 48%N :: 88%N :: r => (16, r)
    | _ => (10, s1)
    end in
  match parseDigits R None s2 with
  | None => NaN
  | Some m => of_Z (sign * m)
  end.

End JSString.
Import JSString.

(* ================================================================= *)
(** ** Shapes shared by the components *)

(** [{ width: number; height: number }]: [ResizeDimensions] in
    image-uploader.tsx, [PageDimensions] in pdf-generator.tsx, the entries of
    [PRESET_SIZES], and the natural size of a decoded image. *)
Record Dimensions : Type := { width : num; height : num }.

Definition ResizeDimensions : Type := Dimensions.
Definition PageDimensions : Type := Dimensions.

Inductive FormatOption : Type := jpeg | png | webp | heic.
Inductive ResizeMode : Type := none | dimensions | percentage | preset.
Inductive PresetSize : Type := small | medium | large | hd | fullhd | uhd_4k.

(** The fields of [ImageResult] that the modelled code reads and writes. *)
Module ImageResult.
Record t : Type := {
  format : FormatOption;
  width : num;
  height : num;
  isPlaceholder : bool
}.
End ImageResult.

(* ================================================================= *)
(** ** image-uploader.tsx *)

Definition PRESET_SIZES (p : PresetSize) : ResizeDimensions :=
  match p with
  | small => {| width := of_Z 640; height := of_Z 480 |}
  | medium => {| width := of_Z 1024; height := of_Z 768 |}
  | large => {| width := of_Z 1600; height := of_Z 1200 |}
  | hd => {| width := of_Z 1280; height := of_Z 720 |}
  | fullhd => {| width := of_Z 1920; height := of_Z 1080 |}
  | uhd_4k => {| width := of_Z 3840; height := of_Z 2160 |}
  end.

(** "Calculate dimensions based on resize mode": the block of [img.onload]
    in [processImageInBrowser] that assigns [targetWidth] and
    [targetHeight]. *)
Definition targetDimensions
  (img : Dimensions) (resizeMode : ResizeMode)
  (resizeDimensions : ResizeDimensions) (resizePercentage : num)
  (presetSize : PresetSize) (maintainAspectRatio : bool) : Dimensions :=
  let targetWidth := width img in
  let targetHeight := height img in
  match resizeMode with
  | none => {| width := targetWidth; height := targetHeight |}
  | dimensions =>
      let targetWidth := jsOr (width resizeDimensions) (width img) in
      let targetHeight := jsOr (height resizeDimensions) (height img) in
      if maintainAspectRatio then
        if truthy (width resizeDimensions) && negb (truthy (height resizeDimensions))
        then
          {| width := targetWidth;
             height := jsRound (fmul (fdiv (height img) (width img)) targetWidth) |}
        else if negb (truthy (width resizeDimensions)) && truthy (height resizeDimensions)
        then
          {| width := jsRound (fmul (fdiv (width img) (height img)) targetHeight);
             height := targetHeight |}
        else
          let widthRatio := fdiv targetWidth (width img) in
          let heightRatio := fdiv targetHeight (height img) in
          let ratio := fmin widthRatio heightRatio in
          {| width := jsRound (fmul (width img) ratio);
             height := jsRound (fmul (height img) ratio) |}
      else {| width := targetWidth; height := targetHeight |}
  | percentage =>
      {| width := jsRound (fdiv (fmul (width img) resizePercentage) (of_Z 100));
         height := jsRound (fdiv (fmul (height img) resizePercentage) (of_Z 100)) |}
  | preset =>
      let preset := PRESET_SIZES presetSize in
      let targetWidth := width preset in
      let targetHeight := height preset in
      if maintainAspectRatio then
        let widthRatio := fdiv targetWidth (width img) in
        let heightRatio := fdiv targetHeight (height img) in
        let ratio := fmin widthRatio heightRatio in
        {| width := jsRound (fmul (width img) ratio);
           height := jsRound (fmul (height img) ratio) |}
      else {| width := targetWidth; height := targetHeight |}
  end.

(** What happens before the image is read when the file is a HEIC file: the
    dynamic import of heic2any and the conversion can each fail, and the
    [catch] then continues with the original file. *)
Inductive HeicOutcome : Type :=
| NotHeic
| HeicConverted
| HeicImportFailed
| HeicConversionFailed.

Section ProcessImage.

(** The caller-supplied progress sink, [onProgress], acting on whatever
    state [sigma] the caller keeps. *)
Context {sigma : Type}.
Variable onProgress : num -> sigma -> sigma.

Definition heicSteps (o : HeicOutcome) (s : sigma) : sigma :=
  match o with
  | NotHeic => onProgress (of_Z 30) s
  | HeicConverted =>
      onProgress (of_Z 30) (onProgress (of_Z 20) (onProgress (of_Z 10) s))
  | HeicImportFailed => onProgress (of_Z 10) s
  | HeicConversionFailed => onProgress (of_Z 20) (onProgress (of_Z 10) s)
  end.

(** [processFormat(formatIndex)].  [rest] is [formats] from [formatIndex]
    on, so [formatIndex >= totalFormats] is [rest = []] and
    [formats[formatIndex]] is its head.  Both branches of the source (the
    HEIC placeholder and the canvas export) count and report alike and
    differ in the result they push. *)
Fixpoint processFormat
  (target : Dimensions) (totalFormats : num) (rest : list FormatOption)
  (results : list ImageResult.t) (completedFormats : num) (s : sigma)
  : list ImageResult.t * sigma :=
  match rest with
  | [] => (results, onProgress (of_Z 100) s)
  | format :: rest' =>
      let results :=
        results ++
        [ {| ImageResult.format := format;
             ImageResult.width := width target;
             ImageResult.height := height target;
             ImageResult.isPlaceholder :=
               match format with heic => true | _ => false end |} ] in
      let completedFormats := fadd completedFormats (of_Z 1) in
      let formatProgress :=
        jsFloor (fadd (of_Z 60)
                   (fmul (fdiv completedFormats totalFormats) (of_Z 40))) in
      processFormat target totalFormats rest' results completedFormats
        (onProgress formatProgress s)
  end.

(** [processImageInBrowser]: [img] is the natural size of the decoded
    image, [heicOutcome] what the environment did with a HEIC file. *)
Definition processImageInBrowser
  (img : Dimensions) (heicOutcome : HeicOutcome)
  (formats : list FormatOption)
  (resizeMode : ResizeMode) (resizeDimensions : ResizeDimensions)
  (resizePercentage : num) (presetSize : PresetSize)
  (maintainAspectRatio : bool) (s : sigma) : list ImageResult.t * sigma :=
  let s := onProgress (of_Z 5) s in
  let s := heicSteps heicOutcome s in
  let s := onProgress (of_Z 40) s in
  let s := onProgress (of_Z 50) s in
  let target :=
    targetDimensions img resizeMode resizeDimensions resizePercentage
      presetSize maintainAspectRatio in
  let s := onProgress (of_Z 60) s in
  let totalFormats := of_nat (List.length formats) in
  processFormat target totalFormats formats [] (of_Z 0) s.

End ProcessImage.

(** The width and height fields call [handleWidthChange] and
    [handleHeightChange] with the text of the field; they store
    [Number.parseInt(text) || 0]. *)
Definition parsedDimension (text : jsstring) : num :=
  jsOr (parseInt text) (of_Z 0).

(* ================================================================= *)
(** ** image-preview.tsx *)

(** [imageFile.width] and [imageFile.height] are optional: [None] is
    [undefined]. *)
Record PreviewImage : Type := {
  fileWidth : option num;
  fileHeight : option num
}.

Definition truthyOpt (x : option num) : bool :=
  match x with Some v => truthy v | None => false end.

(** [calculateTargetDimensions]; [None] is the [null] it returns for an
    image whose size is not known. *)
Definition calculateTargetDimensions
  (imageFile : PreviewImage) (resizeMode : ResizeMode)
  (resizeDimensions : ResizeDimensions) (resizePercentage : num)
  (presetSize : PresetSize) (maintainAspectRatio : bool)
  (presetSizes : PresetSize -> Dimensions) : option Dimensions :=
  match fileWidth imageFile, fileHeight imageFile with
  | Some imageWidth, Some imageHeight =>
      if negb (truthy imageWidth) || negb (truthy imageHeight) then None
      else
        let targetWidth := imageWidth in
        let targetHeight := imageHeight in
        match resizeMode with
        | none => Some {| width := targetWidth; height := targetHeight |}
        | dimensions =>
            let targetWidth := jsOr (width resizeDimensions) imageWidth in
            let targetHeight := jsOr (height resizeDimensions) imageHeight in
            if maintainAspectRatio then
              if truthy (width resizeDimensions)
                 && negb (truthy (height resizeDimensions))
              then
                Some {| width := targetWidth;
                        height := jsRound (fmul (fdiv imageHeight imageWidth) targetWidth) |}
              else if negb (truthy (width resizeDimensions))
                      && truthy (height resizeDimensions)
              then
                Some {| width := jsRound (fmul (fdiv imageWidth imageHeight) targetHeight);
                        height := targetHeight |}
              else
                let widthRatio := fdiv targetWidth imageWidth in
                let heightRatio := fdiv targetHeight imageHeight in
                let ratio := fmin widthRatio heightRatio in
                Some {| width := jsRound (fmul imageWidth ratio);
                        height := jsRound (fmul imageHeight ratio) |}
            else Some {| width := targetWidth; height := targetHeight |}
        | percentage =>
            Some {| width := jsRound (fdiv (fmul imageWidth resizePercentage) (of_Z 100));
                    height := jsRound (fdiv (fmul imageHeight resizePercentage) (of_Z 100)) |}
        | preset =>
            let preset := presetSizes presetSize in
            let targetWidth := width preset in
            let targetHeight := height preset in
            if maintainAspectRatio then
              let widthRatio := fdiv targetWidth imageWidth in
              let heightRatio := fdiv targetHeight imageHeight in
              let ratio := fmin widthRatio heightRatio in
              Some {| width := jsRound (fmul imageWidth ratio);
                      height := jsRound (fmul imageHeight ratio) |}
            else Some {| width := targetWidth; height := targetHeight |}
        end
  | _, _ => None
  end.

(* ================================================================= *)
(** ** image-results.tsx *)

Section DownloadAllAsZip.

(** [setDownloadProgress], the sink of the ZIP run. *)
Context {sigma : Type}.
Variable setDownloadProgress : num -> sigma -> sigma.

(** The [for ... of validResults] loop.  [fetched k] tells whether the
    [fetch] and [zip.file] of the [k]-th valid result went through; when they
    throw, the [catch] skips the counter and the progress update. *)
Fixpoint addFiles
  (totalFiles : num) (fetched : nat -> bool) (k : nat)
  (validResults : list ImageResult.t) (processedFiles : num) (s : sigma)
  : num * sigma :=
  match validResults with
  | [] => (processedFiles, s)
  | _ :: rest =>
      if fetched k then
        let processedFiles := fadd processedFiles (of_Z 1) in
        addFiles totalFiles fetched (S k) rest processedFiles
          (setDownloadProgress
             (jsRound (fmul (fdiv processedFiles totalFiles) (of_Z 100))) s)
      else addFiles totalFiles fetched (S k) rest processedFiles s
  end.

(** [downloadAllAsZip].  [jszipLoads] is whether the dynamic import of JSZip
    resolves, [zipUpdates] the [metadata.percent] values that
    [zip.generateAsync] hands to its update callback, in order.  The
    [setTimeout] of the [finally] block, which clears the bar half a second
    after the run, is not part of the run. *)
Definition downloadAllAsZip
  (results : list ImageResult.t) (jszipLoads : bool) (fetched : nat -> bool)
  (zipUpdates : list num) (s : sigma) : sigma :=
  let s := setDownloadProgress (of_Z 0) s in
  if jszipLoads then
    let validResults :=
      filter (fun result => negb (ImageResult.isPlaceholder result)) results in
    let totalFiles := of_nat (List.length validResults) in
    let '(_, s) := addFiles totalFiles fetched 0 validResults (of_Z 0) s in
    fold_left (fun s percent => setDownloadProgress (jsRound percent) s)
      zipUpdates s
  else s.

End DownloadAllAsZip.

(* ================================================================= *)
(** ** pdf-generator.tsx *)

Inductive PageSize : Type := a4 | letter | legal | tabloid.
Inductive PageOrientation : Type := portrait | landscape.
Inductive ImageLayout : Type := layout_1 | layout_2 | layout_4 | custom.

Definition PAGE_SIZES (p : PageSize) : PageDimensions :=
  match p with
  | a4 => {| width := of_Z 210; height := of_Z 297 |}
  | letter => {| width := of_Z 216; height := of_Z 279 |}
  | legal => {| width := of_Z 216; height := of_Z 356 |}
  | tabloid => {| width := of_Z 279; height := of_Z 432 |}
  end.

(** The characters of the regular expression of [sanitizeFilename]:
    slash, backslash, question mark, percent, asterisk, colon, bar, double
    quote, less-than and greater-than. *)
Definition invalidFilenameChars : list N :=
  [47; 92; 63; 37; 42; 58; 124; 34; 60; 62]%N.

(** Every code unit of the class is replaced by a hyphen. *)
Definition sanitizeFilename (name : jsstring) : jsstring :=
  List.map (fun c => if existsb (N.eqb c) invalidFilenameChars then 45%N else c)
    name.

(** The value the Rows and Columns fields store:
    [Number.parseInt(e.target.value) || 1]. *)
Definition customGridInput (text : jsstring) : num :=
  jsOr (parseInt text) (of_Z 1).

(** The filename field stores [sanitizeFilename(e.target.value)]. *)
Definition filenameInput (text : jsstring) : jsstring := sanitizeFilename text.

(** The state of the component that [generatePDF] reads. *)
Record PdfSettings : Type := {
  pageSize : PageSize;
  orientation : PageOrientation;
  imageLayout : ImageLayout;
  margin : num;
  title : jsstring;
  customRows : num;
  customCols : num;
  pdfFilename : jsstring
}.

(** "Calculate layout": the [switch] on [imageLayout]. *)
Record Grid : Type := { imagesPerPage : num; cols : num; rows : num }.

Definition layoutGrid (st : PdfSettings) : Grid :=
  match imageLayout st with
  | layout_1 => {| imagesPerPage := of_Z 1; cols := of_Z 1; rows := of_Z 1 |}
  | layout_2 => {| imagesPerPage := of_Z 2; cols := of_Z 1; rows := of_Z 2 |}
  | layout_4 => {| imagesPerPage := of_Z 4; cols := of_Z 2; rows := of_Z 2 |}
  | custom =>
      let cols := customCols st in
      let rows := customRows st in
      {| imagesPerPage := fmul cols rows; cols := cols; rows := rows |}
  end.

Section GeneratePDF.

(** The type of the entries of [arrangedImages]. *)
Context {Image : Type}.

(** What one iteration of the loop computes for image [i] and passes to
    [pdf.addImage]. *)
Record Placement : Type := {
  itemIndex : nat;
  image : Image;
  pageIndex : num;
  rowIndex : num;
  colIndex : num;
  x : num;
  y : num;
  drawWidth : num;
  drawHeight : num
}.

(** The jsPDF document: the pages already left behind and the current one,
    each with the images [addImage] was asked to put on it.  A new document
    has one empty page.  The title text does not take part in the layout
    and is left out. *)
Record PdfDoc : Type := {
  finished : list (list Placement);
  current : list Placement
}.

Definition pages (d : PdfDoc) : list (list Placement) :=
  finished d ++ [current d].

Definition newPdf : PdfDoc := {| finished := []; current := [] |}.

Definition addPage (d : PdfDoc) : PdfDoc :=
  {| finished := finished d ++ [current d]; current := [] |}.

Definition addImage (p : Placement) (d : PdfDoc) : PdfDoc :=
  {| finished := finished d; current := current d ++ [p] |}.

(** The values fixed before the loop. *)
Record Layout : Type := {
  grid : Grid;
  titleSpace : num;
  availableWidth : num;
  availableHeight : num;
  imageWidth : num;
  imageHeight : num;
  horizontalSpacing : num;
  verticalSpacing : num
}.

Definition pageLayout (st : PdfSettings) : Layout :=
  let pageWidth := width (PAGE_SIZES (pageSize st)) in
  let pageHeight := height (PAGE_SIZES (pageSize st)) in
  let '(pageWidth, pageHeight) :=
    match orientation st with
    | landscape => (pageHeight, pageWidth)
    | portrait => (pageWidth, pageHeight)
    end in
  let g := layoutGrid st in
  let titleSpace := if nonEmpty (title st) then of_Z 20 else of_Z 0 in
  let availableWidth := fsub pageWidth (fmul (of_Z 2) (margin st)) in
  let availableHeight :=
    fsub (fsub pageHeight (fmul (of_Z 2) (margin st))) titleSpace in
  {| grid := g;
     titleSpace := titleSpace;
     availableWidth := availableWidth;
     availableHeight := availableHeight;
     imageWidth := fdiv availableWidth (cols g);
     imageHeight := fdiv availableHeight (rows g);
     horizontalSpacing := margin st;
     verticalSpacing := fadd (margin st) titleSpace |}.

(** The body of [for (let i = 0; i < totalImages; i++)]. *)
Definition placement (st : PdfSettings) (l : Layout) (i : nat) (im : Image)
  : Placement :=
  let pageIndex := jsFloor (fdiv (of_nat i) (imagesPerPage (grid l))) in
  let imageIndexOnPage := frem (of_nat i) (imagesPerPage (grid l)) in
  let rowIndex := jsFloor (fdiv imageIndexOnPage (cols (grid l))) in
  let colIndex := frem imageIndexOnPage (cols (grid l)) in
  let x := fadd (margin st) (fmul colIndex (imageWidth l)) in
  let y := fadd (verticalSpacing l) (fmul rowIndex (imageHeight l)) in
  {| itemIndex := i;
     image := im;
     pageIndex := pageIndex;
     rowIndex := rowIndex;
     colIndex := colIndex;
     x := x;
     y := y;
     drawWidth := fsub (imageWidth l) (fdiv (horizontalSpacing l) (of_Z 2));
     drawHeight := fsub (imageHeight l) (fdiv (horizontalSpacing l) (of_Z 2)) |}.

Definition placeImage (st : PdfSettings) (l : Layout) (i : nat) (im : Image)
  (pdf : PdfDoc) : PdfDoc :=
  let imageIndexOnPage := frem (of_nat i) (imagesPerPage (grid l)) in
  let pdf :=
    if feq imageIndexOnPage (of_Z 0) && flt (of_Z 0) (of_nat i)
    then addPage pdf else pdf in
  addImage (placement st l i im) pdf.

Fixpoint placeImages (st : PdfSettings) (l : Layout) (i : nat)
  (images : list Image) (pdf : PdfDoc) : PdfDoc :=
  match images with
  | [] => pdf
  | im :: rest => placeImages st l (S i) rest (placeImage st l i im pdf)
  end.

Record PdfResult : Type := {
  document : PdfDoc;
  totalPages : num;
  savedAs : jsstring
}.

(** The name handed to [pdf.save]. *)
Definition saveName (pdfFilename : jsstring) : jsstring :=
  let filename :=
    if nonEmpty (trim pdfFilename)
    then sanitizeFilename (trim pdfFilename)
    else lit "photo-collection" in
  filename ++ lit ".pdf".

(** [generatePDF]; [None] is the early [return] on an empty
    [arrangedImages]. *)
Definition generatePDF (st : PdfSettings) (arrangedImages : list Image)
  : option PdfResult :=
  match arrangedImages with
  | [] => None
  | _ :: _ =>
      let l := pageLayout st in
      let totalImages := of_nat (List.length arrangedImages) in
      let totalPages := jsCeil (fdiv totalImages (imagesPerPage (grid l))) in
      Some {| document := placeImages st l 0 arrangedImages newPdf;
              totalPages := totalPages;
              savedAs := saveName (pdfFilename st) |}
  end.

End GeneratePDF.

(* ================================================================= *)
(** ** image-uploader.tsx: the handlers of the form *)

(** The fields of an uploaded [ImageFile] that the handlers read; [None]
    is [undefined]. *)
Module ImageFile.
Record t : Type := {
  id : jsstring;
  isHeic : bool;
  width : option num;
  height : option num
}.
End ImageFile.

(** Equality of strings, [===]. *)
Definition jsstring_eqb (s t : jsstring) : bool :=
  if list_eq_dec N.eq_dec s t then true else false.

Definition FormatOption_eqb (f g : FormatOption) : bool :=
  match f, g with
  | jpeg, jpeg | png, png | webp, webp | heic, heic => true
  | _, _ => false
  end.

(** The size of [imageFiles[selectedImageIndex]] when the test
    [maintainAspectRatio && imageFiles.length > 0 && ...?.width &&
    ...?.height] of the two handlers passes. *)
Definition selectedSize (maintainAspectRatio : bool)
  (imageFiles : list ImageFile.t) (selectedImageIndex : nat)
  : option (num * num) :=
  if maintainAspectRatio && negb (Nat.eqb (List.length imageFiles) 0) then
    match nth_error imageFiles selectedImageIndex with
    | Some f =>
        match ImageFile.width f, ImageFile.height f with
        | Some w, Some h =>
            if truthy w && truthy h then Some (w, h) else None
        | _, _ => None
        end
    | None => None
    end
  else None.

(** [handleWidthChange]: the new [resizeDimensions] for the text typed into
    the width field. *)
Definition handleWidthChange (text : jsstring) (maintainAspectRatio : bool)
  (imageFiles : list ImageFile.t) (selectedImageIndex : nat)
  (prev : ResizeDimensions) : ResizeDimensions :=
  let newWidth := parsedDimension text in
  match selectedSize maintainAspectRatio imageFiles selectedImageIndex with
  | Some (w, h) =>
      {| width := newWidth; height := jsRound (fmul (fdiv h w) newWidth) |}
  | None => {| width := newWidth; height := height prev |}
  end.

(** [handleHeightChange] *)
Definition handleHeightChange (text : jsstring) (maintainAspectRatio : bool)
  (imageFiles : list ImageFile.t) (selectedImageIndex : nat)
  (prev : ResizeDimensions) : ResizeDimensions :=
  let newHeight := parsedDimension text in
  match selectedSize maintainAspectRatio imageFiles selectedImageIndex with
  | Some (w, h) =>
      {| width := jsRound (fmul (fdiv w h) newHeight); height := newHeight |}
  | None => {| width := width prev; height := newHeight |}
  end.

(** [handleFormatChange]: a format that is selected is dropped, another one
    is added at the end. *)
Definition handleFormatChange (format : FormatOption)
  (prev : list FormatOption) : list FormatOption :=
  if existsb (FormatOption_eqb format) prev
  then filter (fun f => negb (FormatOption_eqb f format)) prev
  else prev ++ [format].

(** The effect that keeps [selectedImageIndex] inside [imageFiles]. *)
Definition resetSelectedImageIndex (imageFiles : list ImageFile.t)
  (selectedImageIndex : nat) : nat :=
  if Nat.eqb (List.length imageFiles) 0 then 0%nat
  else if Nat.leb (List.length imageFiles) selectedImageIndex
       then (List.length imageFiles - 1)%nat
       else selectedImageIndex.

(** What the render hands to [ImagePreview], which is shown only when
    [imageFiles.length > 0]: [imageFiles[selectedImageIndex]].  [Some None]
    is the [undefined] of an index past the end; the preview dereferences
    its [imageFile] while it renders. *)
Definition previewedImage (imageFiles : list ImageFile.t)
  (selectedImageIndex : nat) : option (option ImageFile.t) :=
  if Nat.eqb (List.length imageFiles) 0 then None
  else Some (nth_error imageFiles selectedImageIndex).

(** [removeImage(id)] of the uploader: the files that stay, whether the
    results are cleared, and the new [hasHeicFiles]. *)
Record Removal : Type := {
  updatedFiles : list ImageFile.t;
  clearsResults : bool;
  stillHasHeic : bool
}.

Definition removeUploadedImage (removed : jsstring)
  (prev : list ImageFile.t) : Removal :=
  let updatedFiles :=
    filter (fun img => negb (jsstring_eqb (ImageFile.id img) removed)) prev in
  {| updatedFiles := updatedFiles;
     clearsResults := Nat.eqb (List.length updatedFiles) 0;
     stillHasHeic := existsb ImageFile.isHeic updatedFiles |}.

(** [processFiles]: the upload progress.  [totalFiles] files passed the
    filter; [loads i] tells whether the promise of [createPreviewForFile]
    for file [i] settles.  It is resolved by [img.onload] alone, so for a
    file whose image never loads the [await] never returns and the
    function stays there.  The boolean tells whether the function returned;
    the [setTimeout] that clears the bar afterwards is not part of the
    run. *)
Section ProcessFiles.

Context {sigma : Type}.
Variable setUploadProgress : num -> sigma -> sigma.

Fixpoint createPreviews (totalFiles : num) (loads : nat -> bool)
  (i remaining : nat) (s : sigma) : bool * sigma :=
  match remaining with
  | O => (true, s)
  | S remaining' =>
      if loads i
      then createPreviews totalFiles loads (S i) remaining'
             (setUploadProgress
                (jsRound (fmul (fdiv (fadd (of_nat i) (of_Z 1)) totalFiles)
                            (of_Z 100))) s)
      else (false, s)
  end.

Definition processFiles (totalFiles : nat) (loads : nat -> bool) (s : sigma)
  : bool * sigma :=
  let s := setUploadProgress (of_Z 0) s in
  match totalFiles with
  | O => (true, s)
  | S _ => createPreviews (of_nat totalFiles) loads 0 totalFiles s
  end.

End ProcessFiles.

(** What [handleSubmit] gets from the environment for one entry of
    [imageFiles]: the natural size of the decoded image and what happened
    to a HEIC file. *)
Record SubmittedImage : Type := {
  natural : Dimensions;
  heicOutcome : HeicOutcome
}.

Section HandleSubmit.

Context {sigma : Type}.
Variable setProgress : num -> sigma -> sigma.

(** [scaledProgress] of [updateImageProgress]. *)
Definition scaledProgress (imageIndex totalImages imageProgress : num)
  : num :=
  let imageBaseProgress := fmul (fdiv imageIndex totalImages) (of_Z 100) in
  let imageMaxProgress :=
    fmul (fdiv (fadd imageIndex (of_Z 1)) totalImages) (of_Z 100) in
  let imageProgressRange := fsub imageMaxProgress imageBaseProgress in
  fadd imageBaseProgress
    (fmul (fdiv imageProgress (of_Z 100)) imageProgressRange).

Definition updateImageProgress (imageIndex totalImages imageProgress : num)
  (s : sigma) : sigma :=
  setProgress (jsRound (scaledProgress imageIndex totalImages imageProgress))
    s.

(** The loop of [handleSubmit] from image [i] on, for a run in which every
    image loads. *)
Fixpoint processImages (totalImages : num) (formats : list FormatOption)
  (resizeMode : ResizeMode) (resizeDimensions : ResizeDimensions)
  (resizePercentage : num) (presetSize : PresetSize)
  (maintainAspectRatio : bool) (i : nat) (imageFiles : list SubmittedImage)
  (allResults : list ImageResult.t) (s : sigma)
  : list ImageResult.t * sigma :=
  match imageFiles with
  | [] => (allResults, s)
  | imageFile :: rest =>
      let '(imageResults, s) :=
        processImageInBrowser (updateImageProgress (of_nat i) totalImages)
          (natural imageFile) (heicOutcome imageFile) formats resizeMode
          resizeDimensions resizePercentage presetSize maintainAspectRatio
          s in
      processImages totalImages formats resizeMode resizeDimensions
        resizePercentage presetSize maintainAspectRatio (S i) rest
        (allResults ++ imageResults) s
  end.

(** [handleSubmit]; [None] is the early [return] when there is no image or
    no format.  The result is what [setResults] receives and the state of
    the progress sink after [setProgress(100)]. *)
Definition handleSubmit (imageFiles : list SubmittedImage)
  (formats : list FormatOption)
  (resizeMode : ResizeMode) (resizeDimensions : ResizeDimensions)
  (resizePercentage : num) (presetSize : PresetSize)
  (maintainAspectRatio : bool) (s : sigma)
  : option (list ImageResult.t * sigma) :=
  if Nat.eqb (List.length imageFiles) 0 || Nat.eqb (List.length formats) 0
  then None
  else
    let s := setProgress (of_Z 0) s in
    let totalImages := of_nat (List.length imageFiles) in
    let '(allResults, s) :=
      processImages totalImages formats resizeMode resizeDimensions
        resizePercentage presetSize maintainAspectRatio 0 imageFiles [] s in
    Some (allResults, setProgress (of_Z 100) s).

End HandleSubmit.

(* ================================================================= *)
(** ** image-results.tsx: names and groups *)

(** [s.lastIndexOf(c)] for one code unit; [None] is [-1]. *)
Fixpoint lastIndexOf (c : N) (s : jsstring) : option nat :=
  match s with
  | [] => None
  | d :: s' =>
      match lastIndexOf c s' with
      | Some k => Some (S k)
      | None => if N.eqb d c then Some 0%nat else None
      end
  end.

(** [originalName.substring(0, originalName.lastIndexOf(".")) ||
    originalName]; [substring] takes a negative end as 0. *)
Definition baseName (originalName : jsstring) : jsstring :=
  let prefix :=
    match lastIndexOf 46%N originalName with
    | Some k => firstn k originalName
    | None => []
    end in
  if nonEmpty prefix then prefix else originalName.

Definition formatName (f : FormatOption) : jsstring :=
  match f with
  | jpeg => lit "jpeg"
  | png => lit "png"
  | webp => lit "webp"
  | heic => lit "heic"
  end.

(** [link.download] of [downloadImage]. *)
Definition downloadName (originalName : jsstring) (format : FormatOption)
  : jsstring :=
  baseName originalName ++ lit "." ++ formatName format.

(** [zipFileName] of [downloadAllAsZip]. *)
Definition zipFileName (originalFile : jsstring) (format : FormatOption)
  : jsstring :=
  baseName originalFile ++ lit "_" ++ formatName format ++ lit "."
  ++ formatName format.

(** A result as [ImageResults] receives it: the fields modelled above and
    the names it is listed under. *)
Module Listed.
Record t : Type := {
  result : ImageResult.t;
  originalFile : jsstring;
  originalId : jsstring;
  originalDimensions : option jsstring
}.
End Listed.

(** A value of [groupedResults]. *)
Record Group : Type := {
  fileName : jsstring;
  items : list Listed.t;
  groupDimensions : option jsstring
}.

(** The property names every object inherits from [Object.prototype]:
    [acc[key]] is truthy for them although [acc] has no such group. *)
Definition objectPrototypeKeys : list jsstring :=
  List.map lit
    ["constructor"; "hasOwnProperty"; "isPrototypeOf";
     "propertyIsEnumerable"; "toLocaleString"; "toString"; "valueOf";
     "__proto__"; "__defineGetter__"; "__defineSetter__";
     "__lookupGetter__"; "__lookupSetter__"]%string.

(** The groups of an accumulator, by key. *)
Fixpoint lookupGroup (key : jsstring) (acc : list (jsstring * Group))
  : option Group :=
  match acc with
  | [] => None
  | (k, g) :: acc' =>
      if jsstring_eqb k key then Some g else lookupGroup key acc'
  end.

Fixpoint pushItem (key : jsstring) (r : Listed.t)
  (acc : list (jsstring * Group)) : list (jsstring * Group) :=
  match acc with
  | [] => []
  | (k, g) :: acc' =>
      if jsstring_eqb k key
      then (k, {| fileName := fileName g; items := items g ++ [r];
                  groupDimensions := groupDimensions g |}) :: acc'
      else (k, g) :: pushItem key r acc'
  end.

(** One step of the [reduce]; [None] is the TypeError of
    [acc[key].items.push] when [acc[key]] is an inherited property. *)
Definition groupStep (acc : list (jsstring * Group)) (r : Listed.t)
  : option (list (jsstring * Group)) :=
  let key := Listed.originalId r in
  match lookupGroup key acc with
  | Some _ => Some (pushItem key r acc)
  | None =>
      if existsb (jsstring_eqb key) objectPrototypeKeys then None
      else
        Some (acc ++ [(key, {| fileName := Listed.originalFile r;
                               items := [r];
                               groupDimensions :=
                                 Listed.originalDimensions r |})])
  end.

(** [groupedResults] *)
Fixpoint groupFrom (acc : list (jsstring * Group)) (results : list Listed.t)
  : option (list (jsstring * Group)) :=
  match results with
  | [] => Some acc
  | r :: rest =>
      match groupStep acc r with
      | Some acc' => groupFrom acc' rest
      | None => None
      end
  end.

Definition groupedResults (results : list Listed.t)
  : option (list (jsstring * Group)) :=
  groupFrom [] results.

(* ================================================================= *)
(** ** pdf-generator.tsx: arranging the images *)

Section Arrange.

Context {A : Type}.

(** An array whose entries may be [undefined] ([None]). *)
Definition jsGet (arr : list (option A)) (i : nat) : option A :=
  nth i arr None.

(** [arr[i] = v]; writing past the end extends the array. *)
Fixpoint jsSet (arr : list (option A)) (i : nat) (v : option A)
  : list (option A) :=
  match arr, i with
  | _ :: rest, O => v :: rest
  | a :: rest, S i' => a :: jsSet rest i' v
  | [], O => [v]
  | [], S i' => None :: jsSet [] i' v
  end.

(** [moveImageUp] *)
Definition moveImageUp (index : nat) (arrangedImages : list (option A))
  : list (option A) :=
  match index with
  | O => arrangedImages
  | S before =>
      let temp := jsGet arrangedImages index in
      let newArrangement :=
        jsSet arrangedImages index (jsGet arrangedImages before) in
      jsSet newArrangement before temp
  end.

(** [moveImageDown] *)
Definition moveImageDown (index : nat) (arrangedImages : list (option A))
  : list (option A) :=
  if Nat.eqb (S index) (List.length arrangedImages) then arrangedImages
  else
    let temp := jsGet arrangedImages index in
    let newArrangement :=
      jsSet arrangedImages index (jsGet arrangedImages (S index)) in
    jsSet newArrangement (S index) temp.

(** [removeImage] of the PDF panel: [splice(index, 1)]. *)
Definition removeArranged (index : nat) (arrangedImages : list (option A))
  : list (option A) :=
  firstn index arrangedImages ++ skipn (S index) arrangedImages.

End Arrange.

Section PdfProgress.

Context {sigma : Type}.
Variable setProgress : num -> sigma -> sigma.

(** The progress reports of the loop of [generatePDF]: image [i] reports
    [Math.round(((i + 1) / totalImages) * 100)] unless [pdf.addImage]
    threw for it ([added i] false). *)
Fixpoint reportImages (totalImages : num) (added : nat -> bool) (i : nat)
  (remaining : nat) (s : sigma) : sigma :=
  match remaining with
  | O => s
  | S remaining' =>
      reportImages totalImages added (S i) remaining'
        (if added i
         then setProgress
                (jsRound (fmul (fdiv (fadd (of_nat i) (of_Z 1)) totalImages)
                            (of_Z 100))) s
         else s)
  end.

(** The reports of one [generatePDF] run on [n] images.  The [setTimeout]
    of the [finally] block, which clears the bar half a second after the
    run, is not part of the run. *)
Definition generatePDFProgress (n : nat) (added : nat -> bool) (s : sigma)
  : sigma :=
  match n with
  | O => s
  | S _ => reportImages (of_nat n) added 0 n (setProgress (of_Z 0) s)
  end.

End PdfProgress.

(* ================================================================= *)
(** ** Vocabulary of the statements *)

(** [round(n / d)] for [0 < d]: the integer nearest to the exact quotient,
    a half rounding up, as [Math.round] does on an exact argument. *)
Definition nearest (n d : Z) : Z := (2 * n + d) / (2 * d).

(** The size of an image or of a target, in whole pixels. *)
Definition pixels (w h : Z) : Dimensions :=
  {| width := of_Z w; height := of_Z h |}.

(** A sink that keeps every value it is given, oldest first. *)
Definition record (p : num) (log : list num) : list num := log ++ [p].

(** [x <= y] as a proposition; a sequence is monotonically non-decreasing
    when it is strongly sorted for it. *)
Definition num_le (x y : num) : Prop := fle x y = true.

(** [k] is what [Math.round] makes of the binary64 value computed for
    [n / d]: an integer nearest to [n / d].  It is 0 whenever [n / d] is
    below one half, nothing lifts it to 1, and it is 0 only if [n / d] is
    at most one half. *)
Definition roundedSide (k n d : Z) : Prop :=
  2 * Z.abs (k * d - n) <= d
  /\ (2 * n < d -> k = 0)
  /\ (k = 0 -> 2 * n <= d).

(** The binary64 quotient [a / b] of two integers and the binary64 product
    [(a / b) * c], in units of [2^-1074]. *)
Definition quotientU (a b : Z) : Z := fl_pos (a * U * U) (b * U).
Definition productU (a b c : Z) : Z := fl_pos (quotientU a b * (c * U)) U.

(** The preview's view of an image of [w] by [h] pixels. *)
Definition previewOf (w h : Z) : PreviewImage :=
  {| fileWidth := Some (of_Z w); fileHeight := Some (of_Z h) |}.

(** The largest side, in pixels, for which the statement about every
    resize policy at once is made. *)
Definition MAX_SIDE : Z := 2 ^ 25.

(** The percentage reported after [i] of [m] formats, and after [i] of [m]
    files of the archive, in units. *)
Definition formatProgressU (i m : Z) : Z :=
  fl_pos (60 * U + productU i m 40) 1 / U * U.
Definition zipProgressU (i m : Z) : Z :=
  (2 * productU i m 100 + U) / (2 * U) * U.

(** How many of the [n] valid results from position [k] on were fetched. *)
Fixpoint fetchedCount (fetched : nat -> bool) (k n : nat) : nat :=
  match n with
  | O => O
  | S n' =>
      (if fetched k then 1 else 0)%nat + fetchedCount fetched (S k) n'
  end.

(** [ceil(n / d)] for [0 < d]. *)
Definition ceilDiv (n d : Z) : Z := (n + d - 1) / d.


(** The state of the document once the images before [k] are placed, for a
    grid of [perPage] cells: the pages left behind are counted by [k], no
    page is empty, and every entry sits on the page its [pageIndex] names. *)
Definition placed {Image : Type} (perPage : Z) (k : nat)
  (d : @PdfDoc Image) : Prop :=
  (1 <= k)%nat
  /\ Z.of_nat (List.length (finished d)) = (Z.of_nat k - 1) / perPage
  /\ current d <> []
  /\ Forall (fun pg => pg <> []) (finished d)
  /\ forall p pg e,
       nth_error (pages d) p = Some pg -> In e pg ->
       pageIndex e = of_Z (Z.of_nat p).

(** The values of the margin slider of the PDF panel:
    [min={5} max={30} step={5}]. *)
Definition marginSteps : list num := List.map of_Z [5; 10; 15; 20; 25; 30].

(** The page of [generatePDF] after the swap for landscape. *)
Definition orientedPage (st : PdfSettings) : PageDimensions :=
  match orientation st with
  | landscape =>
      {| width := height (PAGE_SIZES (pageSize st));
         height := width (PAGE_SIZES (pageSize st)) |}
  | portrait => PAGE_SIZES (pageSize st)
  end.

(** The span that starts at [start] and is [size] long has a positive
    length and lies between [lo] and [hi]; the sum is the exact one. *)
Definition spanWithin (start size lo hi : num) : bool :=
  match start, size, lo, hi with
  | Fin s, Fin z, Fin l, Fin h => (l <=? s) && (0 <? z) && (s + z <=? h)
  | _, _, _, _ => false
  end.

(** The span that starts at [start1] and is [size1] long ends at or before
    [start2]. *)
Definition spanBefore (start1 size1 start2 : num) : bool :=
  match start1, size1, start2 with
  | Fin s1, Fin z1, Fin s2 => s1 + z1 <=? s2
  | _, _, _ => false
  end.
(* ================================================================= *)
(** * Properties *)

(** ** Rounding to nearest *)

Section Rne.

Variables n d : Z.
Hypothesis Hd : 0 < d.

Lemma rne_cases : rne n d = n / d \/ rne n d = n / d + 1.
Proof.
  unfold rne. destruct (2 * (n mod d) ?= d); auto.
  destruct (Z.even (n / d)); auto.
Qed.

Lemma rne_err : 2 * Z.abs (rne n d * d - n) <= d.
Proof.
  unfold rne. pose proof (Z.div_mod n d ltac:(lia)) as E.
  pose proof (Z.mod_pos_bound n d Hd) as B.
  destruct (Z.compare_spec (2 * (n mod d)) d) as [C|C|C];
    [destruct (Z.even (n / d))| |]; nia.
Qed.

Lemma rne_le N : n <= N * d -> rne n d <= N.
Proof.
  intros H. unfold rne. pose proof (Z.div_mod n d ltac:(lia)) as E.
  pose proof (Z.mod_pos_bound n d Hd) as B.
  assert (n / d <= N) by nia.
  destruct (Z.compare_spec (2 * (n mod d)) d) as [C|C|C];
    [destruct (Z.even (n / d))| |]; nia.
Qed.

Lemma rne_ge N : N * d <= n -> N <= rne n d.
Proof.
  intros H. pose proof (Z.div_mod n d ltac:(lia)) as E.
  pose proof (Z.mod_pos_bound n d Hd) as B.
  assert (N <= n / d) by nia.
  destruct rne_cases; lia.
Qed.

End Rne.

Lemma rne_mono n1 n2 d : 0 < d -> n1 <= n2 -> rne n1 d <= rne n2 d.
Proof.
  intros Hd H.
  pose proof (Z.div_mod n1 d ltac:(lia)) as E1.
  pose proof (Z.mod_pos_bound n1 d Hd) as B1.
  pose proof (Z.div_mod n2 d ltac:(lia)) as E2.
  pose proof (Z.mod_pos_bound n2 d Hd) as B2.
  assert (Q : n1 / d <= n2 / d) by (apply Z.div_le_mono; lia).
  destruct (Z.eq_dec (n1 / d) (n2 / d)) as [e|ne].
  - unfold rne. rewrite <- e in *.
    destruct (Z.compare_spec (2 * (n1 mod d)) d) as [C|C|C];
    destruct (Z.compare_spec (2 * (n2 mod d)) d) as [C'|C'|C'];
    destruct (Z.even (n1 / d)); nia.
  - destruct (rne_cases n1 d);
      pose proof (rne_ge n2 d Hd (n2 / d) ltac:(nia)); lia.
Qed.

(** ** The binade of a value *)

Lemma pow2_pos k : 0 <= k -> 0 < 2 ^ k.
Proof. intros. apply Z.pow_pos_nonneg; lia. Qed.

Lemma pow2_divide a b : 0 <= a <= b -> (2 ^ a | 2 ^ b).
Proof.
  intros H. exists (2 ^ (b - a)). rewrite <- Z.pow_add_r by lia. f_equal. lia.
Qed.

Lemma expo_nonneg n d : 0 <= expo n d.
Proof. unfold expo. lia. Qed.

Lemma expo_mono n1 d1 n2 d2 : n1 / d1 <= n2 / d2 -> expo n1 d1 <= expo n2 d2.
Proof.
  intros H. unfold expo. pose proof (Z.log2_le_mono _ _ H). lia.
Qed.

Lemma expo_upper n d : 0 <= n -> 0 < d -> n < 2 ^ (53 + expo n d) * d.
Proof.
  intros Hn Hd. unfold expo.
  pose proof (Z.div_mod n d ltac:(lia)) as E.
  pose proof (Z.mod_pos_bound n d Hd) as B.
  assert (Q : 0 <= n / d) by (apply Z.div_pos; lia).
  assert (L : n / d < 2 ^ (53 + Z.max 0 (Z.log2 (n / d) - 52))).
  { destruct (Z.eq_dec (n / d) 0) as [z|nz].
    - rewrite z. simpl. lia.
    - pose proof (Z.log2_spec (n / d) ltac:(lia)) as [_ S].
      pose proof (Z.log2_nonneg (n / d)).
      assert (2 ^ (Z.succ (Z.log2 (n / d)))
              <= 2 ^ (53 + Z.max 0 (Z.log2 (n / d) - 52))).
      { apply Z.pow_le_mono_r; lia. }
      lia. }
  nia.
Qed.

Lemma expo_lower n d :
  0 <= n -> 0 < d -> 0 < expo n d -> 2 ^ (52 + expo n d) * d <= n.
Proof.
  intros Hn Hd. unfold expo. intros He.
  pose proof (Z.div_mod n d ltac:(lia)) as E.
  pose proof (Z.mod_pos_bound n d Hd) as B.
  assert (Q : 0 <= n / d) by (apply Z.div_pos; lia).
  assert (nz : 0 < n / d).
  { destruct (Z.eq_dec (n / d) 0) as [z|nz]; [|lia].
    rewrite z in He. simpl in He. lia. }
  pose proof (Z.log2_spec (n / d) nz) as [S _].
  replace (52 + Z.max 0 (Z.log2 (n / d) - 52)) with (Z.log2 (n / d)) by lia.
  nia.
Qed.

Lemma repr_shift m j : 0 <= m < 2 ^ 53 -> 0 <= j -> repr (m * 2 ^ j).
Proof.
  intros Hm Hj. unfold repr.
  destruct (Z.eq_dec m 0) as [->|nz]. { simpl. apply Z.divide_0_r. }
  apply Z.divide_trans with (2 ^ j); [|apply Z.divide_factor_r].
  apply pow2_divide. split; [apply expo_nonneg|].
  unfold expo. rewrite Z.div_1_r.
  pose proof (pow2_pos j Hj).
  assert (Z.log2 (m * 2 ^ j) < 53 + j).
  { apply Z.log2_lt_pow2; [nia|]. rewrite Z.pow_add_r by lia. nia. }
  lia.
Qed.

Lemma repr_upper g : 0 <= g -> g < 2 ^ (53 + expo g 1).
Proof. intros. pose proof (expo_upper g 1 ltac:(lia) ltac:(lia)). lia. Qed.

(** ** Rounding a non-negative rational *)

Section FlPos.

Variables n d : Z.
Hypothesis Hd : 0 < d.

Lemma fl_pos_nonneg : 0 <= n -> 0 <= fl_pos n d.
Proof.
  intros Hn. unfold fl_pos.
  pose proof (pow2_pos (expo n d) (expo_nonneg n d)) as P.
  pose proof (rne_ge n (d * 2 ^ expo n d) ltac:(nia) 0 ltac:(nia)). nia.
Qed.

(** A binary64 value above [n / d] is above its rounding. *)
Lemma fl_pos_le g : 0 <= n -> repr g -> n <= g * d -> fl_pos n d <= g.
Proof.
  intros Hn R H. unfold fl_pos.
  assert (Q : n / d <= g / 1).
  { rewrite Z.div_1_r. apply Z.div_le_upper_bound; lia. }
  pose proof (expo_mono _ _ _ _ Q) as M.
  pose proof (expo_nonneg n d) as E0.
  pose proof (pow2_pos _ E0) as P.
  destruct (Z.divide_trans _ _ _
              (pow2_divide (expo n d) (expo g 1) ltac:(lia)) R) as [G ->].
  pose proof (rne_le n (d * 2 ^ expo n d) ltac:(nia) G ltac:(nia)). nia.
Qed.

(** A binary64 value below [n / d] is below its rounding. *)
Lemma fl_pos_ge g : 0 <= g -> repr g -> g * d <= n -> g <= fl_pos n d.
Proof.
  intros Hg R H. unfold fl_pos.
  assert (Hn : 0 <= n) by nia.
  assert (Q : g / 1 <= n / d).
  { rewrite Z.div_1_r. apply Z.div_le_lower_bound; lia. }
  pose proof (expo_mono _ _ _ _ Q) as M.
  pose proof (expo_nonneg n d) as E0.
  pose proof (expo_nonneg g 1) as E1.
  pose proof (pow2_pos _ E0) as P.
  destruct (Z.eq_dec (expo g 1) (expo n d)) as [e|ne].
  - destruct R as [G HG]. rewrite e in HG. subst g.
    pose proof (rne_ge n (d * 2 ^ expo n d) ltac:(nia) G ltac:(nia)). nia.
  - pose proof (expo_lower n d Hn Hd ltac:(lia)) as L.
    pose proof (repr_upper g Hg) as Ug.
    assert (T : 2 ^ (53 + expo g 1) <= 2 ^ (52 + expo n d))
      by (apply Z.pow_le_mono_r; lia).
    rewrite (Z.pow_add_r 2 52) in L, T by lia.
    pose proof (rne_ge n (d * 2 ^ expo n d) ltac:(nia) (2 ^ 52) ltac:(nia)).
    nia.
Qed.

(** The rounding error is at most half a unit below [2^53] units and at most
    [2^-53] of the value above. *)
Lemma fl_pos_err :
  0 <= n -> 2 ^ 53 * Z.abs (fl_pos n d * d - n) <= Z.max (2 ^ 52 * d) n.
Proof.
  intros Hn. unfold fl_pos.
  pose proof (expo_nonneg n d) as E0.
  pose proof (pow2_pos _ E0) as P.
  pose proof (rne_err n (d * 2 ^ expo n d) ltac:(nia)) as R.
  replace (rne n (d * 2 ^ expo n d) * 2 ^ expo n d * d - n)
    with (rne n (d * 2 ^ expo n d) * (d * 2 ^ expo n d) - n) by ring.
  destruct (Z.eq_dec (expo n d) 0) as [z|nz].
  - rewrite z in *. change (2 ^ 0) with 1 in *. lia.
  - pose proof (expo_lower n d Hn Hd ltac:(lia)) as L.
    rewrite Z.pow_add_r in L by lia. nia.
Qed.

End FlPos.

Lemma fl_pos_mono n1 n2 d :
  0 <= n1 -> 0 < d -> n1 <= n2 -> fl_pos n1 d <= fl_pos n2 d.
Proof.
  intros Hn Hd H. unfold fl_pos.
  assert (Q : n1 / d <= n2 / d) by (apply Z.div_le_mono; lia).
  pose proof (expo_mono _ _ _ _ Q) as M.
  pose proof (expo_nonneg n1 d) as E1.
  pose proof (pow2_pos _ E1) as P1.
  pose proof (pow2_pos _ (expo_nonneg n2 d)) as P2.
  destruct (Z.eq_dec (expo n1 d) (expo n2 d)) as [e|ne].
  - rewrite e in *.
    pose proof (rne_mono n1 n2 (d * 2 ^ expo n2 d) ltac:(nia) H). nia.
  - pose proof (expo_lower n2 d ltac:(lia) Hd ltac:(lia)) as L.
    pose proof (expo_upper n1 d Hn Hd) as Up.
    rewrite Z.pow_add_r in L, Up by lia.
    pose proof (rne_ge n2 (d * 2 ^ expo n2 d) ltac:(nia) (2 ^ 52) ltac:(nia)).
    pose proof (rne_le n1 (d * 2 ^ expo n1 d) ltac:(nia) (2 ^ 53) ltac:(nia)).
    assert (T : 2 ^ (1 + expo n1 d) <= 2 ^ (expo n2 d))
      by (apply Z.pow_le_mono_r; lia).
    rewrite Z.pow_add_r in T by lia. change (2 ^ 1) with 2 in T.
    change (2 ^ 53) with (2 * 2 ^ 52) in H1. nia.
Qed.

(** ** Numbers as values *)

Lemma U_eq : U = 2 ^ 1074.
Proof. reflexivity. Qed.

Lemma U_pos : 0 < U.
Proof. rewrite U_eq. apply pow2_pos. lia. Qed.

Lemma U_split t : 0 <= t <= 1074 -> U = 2 ^ t * 2 ^ (1074 - t).
Proof.
  intros H. rewrite U_eq, <- Z.pow_add_r by lia. f_equal. lia.
Qed.

Lemma MAXU_big : 2 ^ 53 * U <= MAXU.
Proof. apply Z.leb_le. vm_compute. reflexivity. Qed.

Lemma MAXU_huge : 2 ^ 2000 <= MAXU.
Proof. apply Z.leb_le. vm_compute. reflexivity. Qed.

Global Opaque U MAXU.

(** Integers below [2^53], and their binary fractions, are binary64
    values. *)
Lemma repr_frac m t : 0 <= m < 2 ^ 53 -> 0 <= t <= 1074 -> repr (m * 2 ^ (1074 - t)).
Proof. intros. apply repr_shift; lia. Qed.

Lemma repr_int k : 0 <= k < 2 ^ 53 -> repr (k * U).
Proof. intros. rewrite U_eq. apply repr_shift; lia. Qed.

Lemma repr_0 : repr 0.
Proof. apply (repr_shift 0 0); lia. Qed.

(** A rational between two binary64 values rounds to a finite value between
    them. *)
Lemma fl_between n d lo hi :
  0 < d -> 0 <= lo -> repr lo -> repr hi -> hi <= MAXU ->
  lo * d <= n -> n <= hi * d ->
  exists v, fl n d = Fin v /\ lo <= v <= hi.
Proof.
  intros Hd Hlo Rlo Rhi Hmax L H.
  assert (Hn : 0 <= n) by nia.
  pose proof (fl_pos_le n d Hd hi Hn Rhi H) as Le.
  pose proof (fl_pos_ge n d Hd lo Hlo Rlo L) as Ge.
  exists (fl_pos n d). split; [|lia].
  unfold fl. rewrite (Z.abs_eq n Hn).
  destruct (Z.leb_spec (fl_pos n d) MAXU) as [_|C]; [|lia].
  f_equal. destruct (Z.eq_dec n 0) as [->|nz].
  - pose proof (fl_pos_le 0 d Hd 0 ltac:(lia) repr_0 ltac:(lia)).
    pose proof (fl_pos_nonneg 0 d Hd ltac:(lia)). lia.
  - rewrite Z.sgn_pos by lia. lia.
Qed.

(** A binary64 value rounds to itself. *)
Lemma fl_exact g d : 0 < d -> 0 <= g -> repr g -> g <= MAXU -> fl (g * d) d = Fin g.
Proof.
  intros Hd Hg R M.
  destruct (fl_between (g * d) d g g Hd Hg R R M) as (v & E & B); try lia.
  rewrite E. f_equal. lia.
Qed.

Lemma of_Z_exact z : 0 <= z < 2 ^ 53 -> of_Z z = Fin (z * U).
Proof.
  intros H. unfold of_Z. pose proof U_pos. pose proof MAXU_big.
  rewrite <- (Z.mul_1_r (z * U)) at 1.
  apply fl_exact; try lia; try nia. apply repr_int; lia.
Qed.

Lemma of_nat_exact n : Z.of_nat n < 2 ^ 53 -> of_nat n = Fin (Z.of_nat n * U).
Proof. intros. apply of_Z_exact. lia. Qed.

(** Rounding keeps the order of non-negative values. *)
Lemma fl_mono n1 n2 d :
  0 <= n1 -> 0 < d -> n1 <= n2 -> fle (fl n1 d) (fl n2 d) = true.
Proof.
  intros Hn Hd H. pose proof (fl_pos_mono n1 n2 d Hn Hd H) as M.
  pose proof (fl_pos_nonneg n1 d Hd Hn) as P.
  unfold fl. rewrite !Z.abs_eq by lia.
  assert (S1 : Z.sgn n1 * fl_pos n1 d = fl_pos n1 d).
  { destruct (Z.eq_dec n1 0) as [->|nz].
    - pose proof (fl_pos_le 0 d Hd 0 ltac:(lia) repr_0 ltac:(lia)).
      simpl. lia.
    - rewrite Z.sgn_pos by lia. lia. }
  assert (S2 : Z.sgn n2 * fl_pos n2 d = fl_pos n2 d).
  { destruct (Z.eq_dec n2 0) as [->|nz].
    - pose proof (fl_pos_le 0 d Hd 0 ltac:(lia) repr_0 ltac:(lia)).
      simpl. lia.
    - rewrite Z.sgn_pos by lia. lia. }
  rewrite S1, S2.
  destruct (Z.leb_spec (fl_pos n1 d) MAXU), (Z.leb_spec (fl_pos n2 d) MAXU);
    simpl; try apply Z.leb_le; lia.
Qed.

(** ** Integer arithmetic carried out in binary64 *)

Lemma fmul_int a b :
  0 <= a -> 0 <= b -> a * b < 2 ^ 53 ->
  a < 2 ^ 53 -> b < 2 ^ 53 ->
  fmul (of_Z a) (of_Z b) = of_Z (a * b).
Proof.
  intros Ha Hb Hab Ha' Hb'. pose proof U_pos. pose proof MAXU_big.
  rewrite !of_Z_exact by lia. simpl.
  replace (a * U * (b * U)) with (a * b * U * U) by ring.
  apply fl_exact; try nia. apply repr_int; nia.
Qed.

Lemma frem_int a b :
  0 <= a < 2 ^ 53 -> 0 < b < 2 ^ 53 ->
  frem (of_Z a) (of_Z b) = of_Z (a mod b).
Proof.
  intros Ha Hb. pose proof U_pos.
  pose proof (Z.mod_pos_bound a b ltac:(lia)).
  rewrite !of_Z_exact by lia. simpl.
  destruct (Z.eqb_spec (b * U) 0); [nia|].
  rewrite Z.mul_rem_distr_r by lia.
  rewrite Z.rem_mod_nonneg by lia. reflexivity.
Qed.

Lemma fdiv_int a b :
  0 <= a < 2 ^ 53 -> 0 < b < 2 ^ 53 ->
  fdiv (of_Z a) (of_Z b) = fl (a * U * U) (b * U).
Proof.
  intros Ha Hb. pose proof U_pos.
  rewrite !of_Z_exact by lia. simpl.
  destruct (Z.eqb_spec (b * U) 0); [nia|].
  rewrite Z.sgn_pos, Z.abs_eq by nia. f_equal. ring.
Qed.

(** [Math.floor(a / b)] is the integer quotient. *)
Lemma jsFloor_fdiv a b :
  0 <= a -> 0 < b -> a + b <= 2 ^ 52 ->
  jsFloor (fdiv (of_Z a) (of_Z b)) = of_Z (a / b).
Proof.
  intros Ha Hb Hab. pose proof U_pos as HU. pose proof MAXU_big as HM.
  pose proof (Z.div_mod a b ltac:(lia)) as E.
  pose proof (Z.mod_pos_bound a b Hb) as B.
  set (k := a / b) in *.
  assert (Hk : 0 <= k) by (apply Z.div_pos; lia).
  assert (Hkb : k * b <= a) by nia.
  set (t := Z.log2_up b).
  assert (Ht : 0 <= t) by apply Z.log2_up_nonneg.
  assert (Tb : b <= 2 ^ t /\ 2 ^ t < 2 * b).
  { unfold t. destruct (Z.eq_dec b 1) as [->|n1]. { simpl. lia. }
    pose proof (Z.log2_up_spec b ltac:(lia)) as [S1 S2].
    split; [lia|].
    replace (Z.log2_up b) with (Z.succ (Z.pred (Z.log2_up b))) by lia.
    rewrite Z.pow_succ_r; [lia|].
    pose proof (Z.log2_up_pos b ltac:(lia)). lia. }
  assert (Ht' : t <= 53).
  { destruct (Z_le_gt_dec t 53); [assumption|].
    assert (2 ^ 54 <= 2 ^ t) by (apply Z.pow_le_mono_r; lia). lia. }
  set (T := 2 ^ t) in *. set (V := 2 ^ (1074 - t)).
  assert (HV : 0 < V) by (apply pow2_pos; lia).
  assert (UV : U = T * V) by (apply U_split; lia).
  rewrite fdiv_int by lia.
  destruct (fl_between (a * U * U) (b * U) (k * U) (((k + 1) * T - 1) * V))
    as (v & Ev & Bv); try nia.
  - apply repr_int. nia.
  - apply repr_frac; nia.
  - rewrite UV. nia.
  - rewrite Ev. simpl. rewrite of_Z_exact by nia. do 2 f_equal.
    symmetry. apply Z.div_unique with (v - k * U); nia.
Qed.

Lemma log2_up_bounds b :
  0 < b -> 0 <= Z.log2_up b /\ b <= 2 ^ Z.log2_up b /\ 2 ^ Z.log2_up b < 2 * b.
Proof.
  intros Hb. split; [apply Z.log2_up_nonneg|].
  destruct (Z.eq_dec b 1) as [->|n1]. { simpl. lia. }
  pose proof (Z.log2_up_spec b ltac:(lia)) as [S1 S2].
  split; [lia|].
  replace (Z.log2_up b) with (Z.succ (Z.pred (Z.log2_up b))) by lia.
  rewrite Z.pow_succ_r; [lia|].
  pose proof (Z.log2_up_pos b ltac:(lia)). lia.
Qed.

Lemma pow2_le_inv t k : 0 <= k -> 2 ^ t < 2 ^ k -> t < k.
Proof.
  intros Hk H. destruct (Z_lt_ge_dec t k); [assumption|].
  assert (2 ^ k <= 2 ^ t) by (apply Z.pow_le_mono_r; lia). lia.
Qed.

(** [Math.round(a / b)] is the quotient rounded half up. *)
Lemma jsRound_fdiv a b :
  0 <= a -> 0 < b -> a + b <= 2 ^ 51 ->
  jsRound (fdiv (of_Z a) (of_Z b)) = of_Z ((2 * a + b) / (2 * b)).
Proof.
  intros Ha Hb Hab. pose proof U_pos as HU. pose proof MAXU_big as HM.
  pose proof (Z.div_mod (2 * a + b) (2 * b) ltac:(lia)) as E.
  pose proof (Z.mod_pos_bound (2 * a + b) (2 * b) ltac:(lia)) as B.
  set (k := (2 * a + b) / (2 * b)) in *.
  assert (Hk : 0 <= k) by (apply Z.div_pos; lia).
  destruct (log2_up_bounds b Hb) as (Ht & Tb1 & Tb2).
  set (t := Z.log2_up b) in *.
  assert (Ht' : t < 52) by (apply pow2_le_inv; lia).
  set (T := 2 ^ t) in *. set (V := 2 ^ (1074 - (t + 1))).
  assert (HV : 0 < V) by (apply pow2_pos; lia).
  assert (UV : U = 2 * T * V).
  { rewrite (U_split (t + 1)) by lia. rewrite Z.pow_add_r by lia.
    change (2 ^ 1) with 2. unfold T, V. ring. }
  assert (UH : U = 2 * 2 ^ (1074 - 1)).
  { rewrite (U_split 1) by lia. reflexivity. }
  set (H := 2 ^ (1074 - 1)) in *.
  assert (Kb : k * b * 2 <= 2 * a + b) by lia.
  assert (Kb' : 2 * a + b + 1 <= (k + 1) * b * 2) by lia.
  set (m := (2 * k + 1) * T - 1).
  assert (Hm : 0 <= m < 2 ^ 53).
  { unfold m. split; [nia|].
    assert ((2 * k + 1) * T <= (2 * k + 1) * (2 * b)) by nia. lia. }
  set (lo := if k =? 0 then 0 else (2 * k - 1) * H).
  assert (Hlo : 0 <= lo /\ (2 * k - 1) * U <= 2 * lo /\ lo * b <= a * U).
  { unfold lo. destruct (Z.eqb_spec k 0) as [z|nz].
    - rewrite z. split; [lia|]. split; [lia|]. nia.
    - split; [nia|]. split; [lia|].
      assert ((2 * k - 1) * b <= 2 * a) by lia.
      assert ((2 * k - 1) * b * H <= 2 * a * H) by (apply Z.mul_le_mono_nonneg_r; lia).
      rewrite UH. lia. }
  destruct Hlo as (Hlo0 & Hlo1 & Hlo2).
  assert (Rlo : repr lo).
  { unfold lo. destruct (Z.eqb_spec k 0); [apply repr_0|].
    apply repr_frac; lia. }
  assert (Rhi : repr (m * V)) by (apply repr_frac; lia).
  assert (Hhi : m * V <= MAXU).
  { assert (V <= U) by nia.
    assert (m * V <= 2 ^ 53 * V) by (apply Z.mul_le_mono_nonneg_r; lia).
    assert (2 ^ 53 * V <= 2 ^ 53 * U) by (apply Z.mul_le_mono_nonneg_l; lia).
    lia. }
  assert (L1 : lo * (b * U) <= a * U * U).
  { replace (lo * (b * U)) with (lo * b * U) by ring.
    apply Z.mul_le_mono_nonneg_r; lia. }
  assert (L2 : a * U * U <= m * V * (b * U)).
  { assert (2 * a + 1 <= (2 * k + 1) * b) by lia.
    assert (S1 : (2 * a + 1) * T <= (2 * k + 1) * b * T)
      by (apply Z.mul_le_mono_nonneg_r; lia).
    assert (S2 : 2 * a * T <= m * b) by (unfold m; nia).
    assert (S3 : 2 * a * T * V <= m * b * V)
      by (apply Z.mul_le_mono_nonneg_r; lia).
    assert (S4 : a * U <= m * V * b) by (rewrite UV; lia).
    replace (m * V * (b * U)) with (m * V * b * U) by ring.
    apply Z.mul_le_mono_nonneg_r; lia. }
  assert (Hd : 0 < b * U) by (apply Z.mul_pos_pos; lia).
  destruct (fl_between (a * U * U) (b * U) lo (m * V)
              Hd Hlo0 Rlo Rhi Hhi L1 L2) as (v & Ev & Bv).
  rewrite fdiv_int by lia.
  rewrite Ev. cbn [jsRound]. rewrite of_Z_exact by lia. do 2 f_equal.
  assert (Vhi : 2 * (m * V) < (2 * k + 1) * U).
  { unfold m. rewrite UV.
    replace (2 * (((2 * k + 1) * T - 1) * V))
      with ((2 * k + 1) * (2 * T * V) - 2 * V) by ring. lia. }
  symmetry. apply Z.div_unique with (2 * v + U - k * (2 * U)); lia.
Qed.

(** [Math.ceil(a / b)] for a positive dividend. *)
Lemma jsCeil_fdiv a b :
  0 < a -> 0 < b -> a + b <= 2 ^ 52 ->
  jsCeil (fdiv (of_Z a) (of_Z b)) = of_Z ((a - 1) / b + 1).
Proof.
  intros Ha Hb Hab. pose proof U_pos as HU. pose proof MAXU_big as HM.
  pose proof (Z.div_mod (a - 1) b ltac:(lia)) as E.
  pose proof (Z.mod_pos_bound (a - 1) b Hb) as B.
  set (k := (a - 1) / b) in *.
  assert (Hk : 0 <= k) by (apply Z.div_pos; lia).
  destruct (log2_up_bounds b Hb) as (Ht & Tb1 & Tb2).
  set (t := Z.log2_up b) in *.
  assert (Ht' : t < 53) by (apply pow2_le_inv; lia).
  set (T := 2 ^ t) in *. set (V := 2 ^ (1074 - t)).
  assert (HV : 0 < V) by (apply pow2_pos; lia).
  assert (UV : U = T * V) by (apply U_split; lia).
  assert (Kb : k * b + 1 <= a) by lia.
  assert (Kb' : a <= (k + 1) * b) by lia.
  set (m := k * T + 1).
  assert (Hm : 0 <= m < 2 ^ 53).
  { unfold m. split; [nia|].
    assert (k * T <= k * (2 * b)) by (apply Z.mul_le_mono_nonneg_l; lia).
    lia. }
  assert (Hk53 : k + 1 < 2 ^ 53) by nia.
  assert (Rlo : repr (m * V)) by (apply repr_frac; lia).
  assert (Rhi : repr ((k + 1) * U)) by (apply repr_int; lia).
  assert (Hhi : (k + 1) * U <= MAXU).
  { assert ((k + 1) * U <= 2 ^ 53 * U)
      by (apply Z.mul_le_mono_nonneg_r; lia). lia. }
  assert (Hlo0 : 0 <= m * V) by (apply Z.mul_nonneg_nonneg; lia).
  assert (L1 : m * V * (b * U) <= a * U * U).
  { assert (S1 : (k * b + 1) * T <= a * T)
      by (apply Z.mul_le_mono_nonneg_r; lia).
    assert (S2 : m * b <= a * T) by (unfold m; nia).
    assert (S3 : m * b * V <= a * T * V)
      by (apply Z.mul_le_mono_nonneg_r; lia).
    assert (S4 : m * V * b <= a * U) by (rewrite UV; lia).
    replace (m * V * (b * U)) with (m * V * b * U) by ring.
    apply Z.mul_le_mono_nonneg_r; lia. }
  assert (L2 : a * U * U <= (k + 1) * U * (b * U)).
  { replace ((k + 1) * U * (b * U)) with ((k + 1) * b * U * U) by ring.
    apply Z.mul_le_mono_nonneg_r; [lia|].
    apply Z.mul_le_mono_nonneg_r; lia. }
  assert (Hd : 0 < b * U) by (apply Z.mul_pos_pos; lia).
  destruct (fl_between (a * U * U) (b * U) (m * V) ((k + 1) * U)
              Hd Hlo0 Rlo Rhi Hhi L1 L2) as (v & Ev & Bv).
  rewrite fdiv_int by lia.
  rewrite Ev. cbn [jsCeil]. rewrite of_Z_exact by lia. do 2 f_equal.
  assert (Vlo : k * U < m * V).
  { unfold m. rewrite UV.
    replace ((k * T + 1) * V) with (k * (T * V) + V) by ring. lia. }
  assert (Q : - v / U = - (k + 1)).
  { symmetry. apply Z.div_unique with (- v + (k + 1) * U); lia. }
  rewrite Q. lia.
Qed.

Lemma nearest_spec n d :
  0 < d -> 2 * nearest n d * d - d <= 2 * n < 2 * nearest n d * d + d.
Proof.
  intros Hd. unfold nearest.
  pose proof (Z.div_mod (2 * n + d) (2 * d) ltac:(lia)).
  pose proof (Z.mod_pos_bound (2 * n + d) (2 * d) ltac:(lia)). nia.
Qed.

Lemma U_big : 2 ^ 110 <= U.
Proof. rewrite U_eq. apply Z.pow_le_mono_r; lia. Qed.

Lemma repr_pow2 j : 0 <= j -> repr (2 ^ j).
Proof. intros. rewrite <- (Z.mul_1_l (2 ^ j)). apply repr_shift; lia. Qed.

(** [Math.round] of a finite non-negative value is a non-negative
    integer. *)
Lemma jsRound_Fin v :
  0 <= v -> v <= 2 ^ 52 * U ->
  jsRound (Fin v) = of_Z ((2 * v + U) / (2 * U))
  /\ 0 <= (2 * v + U) / (2 * U) <= 2 ^ 52.
Proof.
  intros Hv Hb. pose proof U_pos.
  pose proof (Z.div_mod (2 * v + U) (2 * U) ltac:(lia)).
  pose proof (Z.mod_pos_bound (2 * v + U) (2 * U) ltac:(lia)).
  assert (0 <= (2 * v + U) / (2 * U) <= 2 ^ 52) by nia.
  split; [|assumption]. rewrite of_Z_exact by lia. reflexivity.
Qed.

(** ** A quotient multiplied back: the two roundings of [(a / b) * c] *)

Section QuotientTimes.

Variables a b c : Z.
Hypothesis Ha : 0 < a < 2 ^ 53.
Hypothesis Hb : 0 < b < 2 ^ 53.
Hypothesis Hc : 0 < c < 2 ^ 53.

Lemma quotient_finite : fdiv (of_Z a) (of_Z b) = Fin (quotientU a b).
Proof.
  pose proof U_pos. pose proof MAXU_big.
  rewrite fdiv_int by lia.
  destruct (fl_between (a * U * U) (b * U) 0 (a * U)) as (v & E & B);
    try nia.
  - apply repr_0.
  - apply repr_int; lia.
  - unfold fl in *. rewrite Z.abs_eq in * by nia.
    destruct (Z.leb_spec (fl_pos (a * U * U) (b * U)) MAXU).
    + f_equal. rewrite Z.sgn_pos by nia. unfold quotientU. lia.
    + discriminate.
Qed.

Lemma quotient_bounds : 2 ^ 52 <= quotientU a b <= a * U.
Proof.
  pose proof U_pos. pose proof U_big. unfold quotientU. split.
  - apply fl_pos_ge; try nia. apply repr_pow2; lia.
  - apply fl_pos_le; try nia. apply repr_int; lia.
Qed.

Lemma quotient_err : 2 ^ 53 * Z.abs (quotientU a b * b - a * U) <= a * U.
Proof.
  pose proof U_pos as HU. pose proof U_big as HB.
  pose proof (fl_pos_err (a * U * U) (b * U) ltac:(nia) ltac:(nia)) as E.
  fold (quotientU a b) in E.
  rewrite Z.max_r in E by nia.
  replace (quotientU a b * (b * U) - a * U * U)
    with ((quotientU a b * b - a * U) * U) in E by ring.
  rewrite Z.abs_mul, (Z.abs_eq U) in E by lia. nia.
Qed.

Lemma product_err :
  2 ^ 106 * Z.abs (productU a b c * b - a * c * U)
  <= a * c * U * (2 ^ 54 + 1).
Proof.
  pose proof U_pos as HU. pose proof quotient_bounds as QB.
  pose proof quotient_err as QE.
  set (rho := quotientU a b) in *.
  assert (RC : 2 ^ 52 <= rho * c).
  { assert (rho * 1 <= rho * c) by (apply Z.mul_le_mono_nonneg_l; lia). lia. }
  assert (RCU : 2 ^ 52 * U <= rho * (c * U)).
  { replace (rho * (c * U)) with (rho * c * U) by ring.
    apply Z.mul_le_mono_nonneg_r; lia. }
  pose proof (fl_pos_err (rho * (c * U)) U HU ltac:(lia)) as E.
  fold rho (productU a b c) in E. unfold productU. fold rho.
  set (y := fl_pos (rho * (c * U)) U) in *.
  rewrite Z.max_r in E by lia.
  replace (y * U - rho * (c * U)) with ((y - rho * c) * U) in E by ring.
  rewrite Z.abs_mul, (Z.abs_eq U) in E by lia.
  assert (E' : 2 ^ 53 * Z.abs (y - rho * c) <= rho * c) by nia.
  clear E.
  change (2 ^ 106) with (2 ^ 53 * 2 ^ 53). change (2 ^ 54) with (2 * 2 ^ 53).
  set (P := 2 ^ 53) in *.
  assert (HP : 0 < P) by (unfold P; lia).
  set (A := rho * b - a * U) in *. set (B := y - rho * c) in *.
  replace (y * b - a * c * U) with (B * b + c * A) by (unfold A, B; ring).
  assert (T : Z.abs (B * b + c * A) <= Z.abs B * b + c * Z.abs A).
  { pose proof (Z.abs_triangle (B * b) (c * A)) as T.
    rewrite !Z.abs_mul, (Z.abs_eq b), (Z.abs_eq c) in T by lia. lia. }
  assert (S1 : P * (rho * b) <= (P + 1) * (a * U)) by (unfold A in QE; nia).
  assert (S2 : P * (P * (Z.abs B * b)) <= c * ((P + 1) * (a * U))).
  { assert (P * (Z.abs B * b) <= rho * c * b) by nia. nia. }
  assert (S3 : P * (P * (c * Z.abs A)) <= c * (P * (a * U))) by nia.
  nia.
Qed.

Lemma product_bounds : 0 <= productU a b c <= 2 ^ 106 * U.
Proof.
  pose proof U_pos as HU. pose proof quotient_bounds as QB.
  assert (N0 : 0 <= quotientU a b * (c * U)).
  { apply Z.mul_nonneg_nonneg; [lia|]. apply Z.mul_nonneg_nonneg; lia. }
  unfold productU. split.
  - apply fl_pos_nonneg; assumption.
  - apply fl_pos_le; try assumption.
    + rewrite U_eq. rewrite <- Z.pow_add_r by lia. apply repr_pow2. lia.
    + replace (quotientU a b * (c * U)) with (quotientU a b * c * U) by ring.
      apply Z.mul_le_mono_nonneg_r; [lia|].
      assert (quotientU a b * c <= a * U * c)
        by (apply Z.mul_le_mono_nonneg_r; lia).
      assert (a * c <= 2 ^ 53 * 2 ^ 53).
      { apply Z.mul_le_mono_nonneg; lia. }
      assert (a * c * U <= 2 ^ 53 * 2 ^ 53 * U)
        by (apply Z.mul_le_mono_nonneg_r; lia).
      change (2 ^ 106) with (2 ^ 53 * 2 ^ 53). lia.
Qed.

Lemma fl_product : fl (quotientU a b * (c * U)) U = Fin (productU a b c).
Proof.
  pose proof U_pos as HU. pose proof quotient_bounds as QB.
  pose proof product_bounds as PB. pose proof MAXU_huge as HM.
  unfold fl. rewrite Z.abs_eq by nia. fold (productU a b c).
  destruct (Z.leb_spec (productU a b c) MAXU) as [_|C].
  - f_equal. rewrite Z.sgn_pos by nia. lia.
  - rewrite U_eq in PB. rewrite <- Z.pow_add_r in PB by lia.
    assert (2 ^ (106 + 1074) <= 2 ^ 2000) by (apply Z.pow_le_mono_r; lia). lia.
Qed.

(** [(a / b) * c] *)
Lemma fmul_fdiv :
  fmul (fdiv (of_Z a) (of_Z b)) (of_Z c) = Fin (productU a b c).
Proof.
  rewrite quotient_finite, of_Z_exact by lia. simpl. apply fl_product.
Qed.

(** [c * (a / b)] *)
Lemma fmul_fdiv_l :
  fmul (of_Z c) (fdiv (of_Z a) (of_Z b)) = Fin (productU a b c).
Proof.
  rewrite quotient_finite, of_Z_exact by lia. simpl.
  rewrite Z.mul_comm. apply fl_product.
Qed.

End QuotientTimes.

Lemma fl_Fin n d :
  0 <= n -> 0 < d -> fl_pos n d <= MAXU -> fl n d = Fin (fl_pos n d).
Proof.
  intros Hn Hd M. unfold fl. rewrite Z.abs_eq by lia.
  destruct (Z.leb_spec (fl_pos n d) MAXU) as [_|C]; [|lia].
  f_equal. destruct (Z.eq_dec n 0) as [->|nz].
  - pose proof (fl_pos_le 0 d Hd 0 ltac:(lia) repr_0 ltac:(lia)).
    pose proof (fl_pos_nonneg 0 d Hd ltac:(lia)). lia.
  - rewrite Z.sgn_pos by lia. lia.
Qed.

(** When the exact value [a * c / b] is at most [2^50], the computed
    product is within half a unit of [b] of it... *)
Lemma product_near a b c :
  0 < a < 2 ^ 53 -> 0 < b < 2 ^ 53 -> 0 < c < 2 ^ 53 ->
  a * c <= 2 ^ 50 * b ->
  2 * Z.abs (productU a b c * b - a * c * U) < b * U.
Proof.
  intros Ha Hb Hc H. pose proof U_pos as HU.
  pose proof (product_err a b c Ha Hb Hc) as E.
  change (2 ^ 106) with (2 ^ 56 * 2 ^ 50) in E.
  change (2 ^ 54 + 1) with 18014398509481985 in E.
  change (2 ^ 56) with 72057594037927936 in E.
  set (Q := 2 ^ 50) in *. assert (0 < Q) by (unfold Q; lia).
  set (D := Z.abs (productU a b c * b - a * c * U)) in *.
  assert (0 <= D) by apply Z.abs_nonneg.
  assert (a * c * U <= Q * b * U) by nia.
  nia.
Qed.

(** ... and when [a * c] itself is at most [2^50], [Math.round] of it is an
    integer nearest to [a * c / b]. *)
Lemma jsRound_product a b c :
  0 < a < 2 ^ 53 -> 0 < b < 2 ^ 53 -> 0 < c < 2 ^ 53 ->
  a * c <= 2 ^ 50 ->
  exists k, jsRound (Fin (productU a b c)) = of_Z k /\ 0 <= k
            /\ 2 * Z.abs (k * b - a * c) <= b.
Proof.
  intros Ha Hb Hc H. pose proof U_pos as HU.
  pose proof (product_err a b c Ha Hb Hc) as E.
  pose proof (product_bounds a b c Ha Hb Hc) as [Y0 _].
  set (y := productU a b c) in *.
  change (2 ^ 106) with (2 ^ 56 * 2 ^ 50) in E.
  change (2 ^ 54 + 1) with 18014398509481985 in E.
  change (2 ^ 56) with 72057594037927936 in E.
  assert (N : 2 * Z.abs (y * b - a * c * U) < U).
  { set (Q := 2 ^ 50) in *. assert (0 < Q) by (unfold Q; lia).
    set (D := Z.abs (y * b - a * c * U)) in *.
    assert (0 <= D) by apply Z.abs_nonneg.
    assert (a * c * U <= Q * U) by nia. nia. }
  clear E.
  assert (Yb : y <= 2 ^ 52 * U).
  { assert (y * b <= (a * c + 1) * U) by lia.
    assert (y <= y * b) by nia. nia. }
  destruct (jsRound_Fin y Y0 Yb) as [Eq [K0 K1]].
  exists ((2 * y + U) / (2 * U)). split; [exact Eq|]. split; [lia|].
  pose proof (Z.div_mod (2 * y + U) (2 * U) ltac:(lia)) as DM.
  pose proof (Z.mod_pos_bound (2 * y + U) (2 * U) ltac:(lia)) as MB.
  set (k := (2 * y + U) / (2 * U)) in *.
  assert (KL : (2 * k - 1) * U <= 2 * y) by lia.
  assert (KU : 2 * y < (2 * k + 1) * U) by lia.
  destruct (Z_le_gt_dec (2 * Z.abs (k * b - a * c)) b) as [ok|bad]; [exact ok|].
  exfalso.
  destruct (Z_le_gt_dec (a * c) (k * b)) as [ge|lt].
  - assert ((2 * a * c + 1) <= (2 * k - 1) * b) by lia.
    assert ((2 * a * c + 1) * U <= (2 * k - 1) * b * U) by nia.
    assert ((2 * k - 1) * U * b <= 2 * y * b) by nia.
    lia.
  - assert ((2 * k + 1) * b <= 2 * a * c - 1) by lia.
    assert ((2 * k + 1) * b * U <= (2 * a * c - 1) * U) by nia.
    assert (2 * y * b < (2 * k + 1) * U * b) by nia.
    lia.
Qed.

(** An integer nearest to [n / d] is [nearest n d], or the integer below it
    when [n / d] is exactly half-way. *)
Lemma nearest_unique n d k :
  0 < d -> 2 * Z.abs (k * d - n) <= d ->
  k = nearest n d \/ (k = nearest n d - 1 /\ 2 * n = (2 * k + 1) * d).
Proof.
  intros Hd H. pose proof (nearest_spec n d Hd) as S.
  assert (k = nearest n d \/ k = nearest n d - 1) as [E|E] by nia.
  - left. exact E.
  - right. split; [exact E|]. nia.
Qed.

(** [Math.round(c * (a / b))] when the exact value [a * c / b] is the
    integer [m]. *)
Lemma jsRound_product_exact a b c m :
  0 < a < 2 ^ 53 -> 0 < b < 2 ^ 53 -> 0 < c < 2 ^ 53 ->
  a * c = m * b -> m <= 2 ^ 50 ->
  jsRound (Fin (productU a b c)) = of_Z m.
Proof.
  intros Ha Hb Hc E M. pose proof U_pos as HU.
  pose proof (product_near a b c Ha Hb Hc ltac:(nia)) as N.
  pose proof (product_bounds a b c Ha Hb Hc) as [Y0 _].
  set (y := productU a b c) in *.
  assert (0 < m) by nia.
  assert (N' : 2 * Z.abs (y - m * U) < U).
  { replace (y * b - a * c * U) with ((y - m * U) * b) in N by (rewrite E; ring).
    rewrite Z.abs_mul, (Z.abs_eq b) in N by lia. nia. }
  cbn [jsRound]. rewrite of_Z_exact by lia. do 2 f_equal.
  symmetry. apply Z.div_unique with (2 * y + U - m * (2 * U)); lia.
Qed.

(** ** The resize rules *)

Lemma of_Z_0 : of_Z 0 = Fin 0.
Proof. rewrite of_Z_exact by lia. reflexivity. Qed.

Lemma truthy_of_Z z : 0 < z < 2 ^ 53 -> truthy (of_Z z) = true.
Proof.
  intros H. pose proof U_pos. rewrite of_Z_exact by lia. simpl.
  destruct (Z.eqb_spec (z * U) 0); [nia|reflexivity].
Qed.

Lemma truthy_of_Z_0 : truthy (of_Z 0) = false.
Proof. rewrite of_Z_0. reflexivity. Qed.

Lemma jsOr_given z y : 0 < z < 2 ^ 53 -> jsOr (of_Z z) y = of_Z z.
Proof. intros H. unfold jsOr. rewrite truthy_of_Z by exact H. reflexivity. Qed.

Lemma jsOr_absent y : jsOr (of_Z 0) y = y.
Proof. unfold jsOr. rewrite truthy_of_Z_0. reflexivity. Qed.

Lemma fmin_Fin a b : fmin (Fin a) (Fin b) = Fin (Z.min a b).
Proof.
  simpl. destruct (Z.leb_spec a b); f_equal; lia.
Qed.

(** The preview computes what the conversion computes. *)
Lemma calculateTargetDimensions_agrees
  (w h : num) resizeMode resizeDimensions resizePercentage presetSize
  maintainAspectRatio :
  truthy w = true -> truthy h = true ->
  calculateTargetDimensions {| fileWidth := Some w; fileHeight := Some h |}
    resizeMode resizeDimensions resizePercentage presetSize
    maintainAspectRatio PRESET_SIZES
  = Some (targetDimensions {| width := w; height := h |}
            resizeMode resizeDimensions resizePercentage presetSize
            maintainAspectRatio).
Proof.
  intros Hw Hh. unfold calculateTargetDimensions, targetDimensions. simpl.
  rewrite Hw, Hh. simpl.
  destruct resizeMode; try reflexivity;
    destruct maintainAspectRatio; try reflexivity.
  destruct (truthy (width resizeDimensions)),
           (truthy (height resizeDimensions)); reflexivity.
Qed.

(** [c * ratio] for a ratio not above the computed [a / b], when
    [a * c / b] is the integer [m]: rounds to an integer not above [m]. *)
Lemma jsRound_scaled_below a b c m rho :
  0 < a < 2 ^ 53 -> 0 < b < 2 ^ 53 -> 0 < c < 2 ^ 53 ->
  a * c = m * b -> m <= 2 ^ 50 ->
  0 <= rho <= quotientU a b ->
  exists k, jsRound (fmul (of_Z c) (Fin rho)) = of_Z k /\ 0 <= k <= m.
Proof.
  intros Ha Hb Hc E M R. pose proof U_pos as HU.
  pose proof (product_near a b c Ha Hb Hc ltac:(nia)) as N.
  pose proof (product_bounds a b c Ha Hb Hc) as [Y0 Y1].
  pose proof MAXU_huge as HM.
  assert (0 < m) by nia.
  assert (N' : 2 * Z.abs (productU a b c - m * U) < U).
  { replace (productU a b c * b - a * c * U)
      with ((productU a b c - m * U) * b) in N by (rewrite E; ring).
    rewrite Z.abs_mul, (Z.abs_eq b) in N by lia. nia. }
  rewrite of_Z_exact by lia. cbn [fmul].
  assert (CU : 0 <= c * U) by (apply Z.mul_nonneg_nonneg; lia).
  assert (N0 : 0 <= c * U * rho) by (apply Z.mul_nonneg_nonneg; lia).
  assert (Le : fl_pos (c * U * rho) U <= productU a b c).
  { unfold productU. rewrite (Z.mul_comm (quotientU a b)).
    apply fl_pos_mono; try assumption.
    apply Z.mul_le_mono_nonneg_l; lia. }
  pose proof (fl_pos_nonneg (c * U * rho) U HU N0) as Ge.
  assert (Mx : fl_pos (c * U * rho) U <= MAXU).
  { rewrite U_eq in Y1. rewrite <- Z.pow_add_r in Y1 by lia.
    assert (2 ^ (106 + 1074) <= 2 ^ 2000) by (apply Z.pow_le_mono_r; lia).
    lia. }
  rewrite (fl_Fin _ _ N0 HU Mx).
  set (y := fl_pos (c * U * rho) U) in *.
  assert (Ym : y <= 2 ^ 52 * U).
  { assert (m * U <= 2 ^ 50 * U) by (apply Z.mul_le_mono_nonneg_r; lia).
    lia. }
  destruct (jsRound_Fin y Ge Ym) as [Eq [K0 K1]].
  exists ((2 * y + U) / (2 * U)). split; [exact Eq|]. split; [lia|].
  assert ((2 * y + U) / (2 * U) < m + 1); [|lia].
  apply Z.div_lt_upper_bound; lia.
Qed.

(** The branch taken when both targets count: the smaller ratio is
    applied to both sides of the source. *)
Lemma fit_inside_branch w h W H :
  0 < w < 2 ^ 53 -> 0 < h < 2 ^ 53 -> 0 < W <= 2 ^ 50 -> 0 < H <= 2 ^ 50 ->
  let ratio := fmin (fdiv (of_Z W) (of_Z w)) (fdiv (of_Z H) (of_Z h)) in
  exists a b,
    jsRound (fmul (of_Z w) ratio) = of_Z a /\
    jsRound (fmul (of_Z h) ratio) = of_Z b /\
    0 <= a <= W /\ 0 <= b <= H /\ (a = W \/ b = H).
Proof.
  intros Hw Hh HW HH ratio. unfold ratio.
  pose proof (quotient_bounds W w ltac:(lia) Hw) as B1.
  pose proof (quotient_bounds H h ltac:(lia) Hh) as B2.
  rewrite (quotient_finite W w), (quotient_finite H h) by lia.
  rewrite fmin_Fin.
  destruct (Z.min_spec (quotientU W w) (quotientU H h)) as [[L ->]|[L ->]].
  - destruct (jsRound_scaled_below H h h H (quotientU W w))
      as (b & Eb & Bb); try lia.
    exists W, b.
    rewrite <- (quotient_finite W w) at 1 by lia.
    rewrite fmul_fdiv_l by lia.
    rewrite (jsRound_product_exact W w w W) by lia.
    repeat split; try assumption; lia.
  - destruct (jsRound_scaled_below W w w W (quotientU H h))
      as (a & Ea & Ba); try lia.
    exists a, H.
    rewrite <- (quotient_finite H h) at 2 by lia.
    rewrite fmul_fdiv_l by lia.
    rewrite (jsRound_product_exact H h h H) by lia.
    repeat split; try assumption; lia.
Qed.

Lemma PRESET_SIZES_pixels p :
  exists W H, PRESET_SIZES p = pixels W H /\ 0 < W <= 3840 /\ 0 < H <= 2160.
Proof.
  destruct p;
    [exists 640, 480|exists 1024, 768|exists 1600, 1200
    |exists 1280, 720|exists 1920, 1080|exists 3840, 2160];
    (split; [reflexivity|lia]).
Qed.

Lemma of_Z_inj a b :
  0 <= a < 2 ^ 53 -> 0 <= b < 2 ^ 53 -> of_Z a = of_Z b -> a = b.
Proof.
  intros Ha Hb H. pose proof U_pos as HU.
  rewrite !of_Z_exact in H by lia. injection H as H.
  apply Z.mul_reg_r in H; lia.
Qed.

(** The side that does not meet its target is [Math.round] of the binary64
    product of the source side and the smaller ratio: an integer nearest to
    the proportional value, with nothing that lifts a 0. *)
Lemma fit_nearest w h W H :
  0 < w < 2 ^ 53 -> 0 < h < 2 ^ 53 -> 0 < W <= 2 ^ 50 -> 0 < H <= 2 ^ 50 ->
  h * W <= 2 ^ 50 -> w * H <= 2 ^ 50 ->
  let ratio := fmin (fdiv (of_Z W) (of_Z w)) (fdiv (of_Z H) (of_Z h)) in
  exists a b,
    jsRound (fmul (of_Z w) ratio) = of_Z a /\
    jsRound (fmul (of_Z h) ratio) = of_Z b /\
    0 <= a <= W /\ 0 <= b <= H
    /\ ((a = W /\ 2 * Z.abs (b * w - h * W) <= w)
        \/ (b = H /\ 2 * Z.abs (a * h - w * H) <= h)).
Proof.
  intros Hw Hh HW HH B1 B2 ratio. unfold ratio.
  pose proof (quotient_bounds W w ltac:(lia) Hw) as Q1.
  pose proof (quotient_bounds H h ltac:(lia) Hh) as Q2.
  rewrite (quotient_finite W w), (quotient_finite H h) by lia.
  rewrite fmin_Fin.
  destruct (Z.min_spec (quotientU W w) (quotientU H h)) as [[L ->]|[L ->]].
  - destruct (jsRound_scaled_below H h h H (quotientU W w))
      as (b & Eb & Bb); try lia.
    destruct (jsRound_product W w h) as (k & Ek & K0 & Kn); try lia.
    assert (E : fmul (of_Z h) (Fin (quotientU W w))
                = Fin (productU W w h)).
    { rewrite <- (quotient_finite W w) by lia. apply fmul_fdiv_l; lia. }
    assert (Kb : k = b).
    { rewrite E, Ek in Eb.
      assert (2 * (k * w) <= 2 * (W * h) + w) by lia.
      assert (k < 2 ^ 53).
      { destruct (Z_lt_ge_dec k (2 ^ 53)) as [ok|bad]; [exact ok|].
        assert (2 ^ 53 * 1 <= k * w)
          by (apply Z.mul_le_mono_nonneg; lia).
        lia. }
      apply of_Z_inj in Eb; lia. }
    subst k. exists W, b.
    rewrite <- (quotient_finite W w) at 1 by lia.
    rewrite fmul_fdiv_l by lia.
    rewrite (jsRound_product_exact W w w W) by lia.
    split; [reflexivity|]. split; [exact Eb|].
    split; [lia|]. split; [lia|]. left. split; [reflexivity|].
    replace (h * W) with (W * h) by ring. exact Kn.
  - destruct (jsRound_scaled_below W w w W (quotientU H h))
      as (a & Ea & Ba); try lia.
    destruct (jsRound_product H h w) as (k & Ek & K0 & Kn); try lia.
    assert (E : fmul (of_Z w) (Fin (quotientU H h))
                = Fin (productU H h w)).
    { rewrite <- (quotient_finite H h) by lia. apply fmul_fdiv_l; lia. }
    assert (Kb : k = a).
    { rewrite E, Ek in Ea.
      assert (2 * (k * h) <= 2 * (H * w) + h) by lia.
      assert (k < 2 ^ 53).
      { destruct (Z_lt_ge_dec k (2 ^ 53)) as [ok|bad]; [exact ok|].
        assert (2 ^ 53 * 1 <= k * h)
          by (apply Z.mul_le_mono_nonneg; lia).
        lia. }
      apply of_Z_inj in Ea; lia. }
    subst k. exists a, H.
    rewrite <- (quotient_finite H h) at 2 by lia.
    rewrite fmul_fdiv_l by lia.
    rewrite (jsRound_product_exact H h h H) by lia.
    split; [exact Ea|]. split; [reflexivity|].
    split; [lia|]. split; [lia|]. right. split; [reflexivity|].
    replace (w * H) with (H * w) by ring. exact Kn.
Qed.

Lemma preview_agrees w h resizeMode rd pct presetSize lock :
  0 < w < 2 ^ 53 -> 0 < h < 2 ^ 53 ->
  calculateTargetDimensions (previewOf w h) resizeMode rd pct presetSize lock
    PRESET_SIZES
  = Some (targetDimensions (pixels w h) resizeMode rd pct presetSize lock).
Proof.
  intros Hw Hh. apply calculateTargetDimensions_agrees; apply truthy_of_Z; lia.
Qed.

Lemma percentage_axis s scale :
  0 < s -> 0 < scale -> s * scale + 100 <= 2 ^ 51 ->
  jsRound (fdiv (fmul (of_Z s) (of_Z scale)) (of_Z 100))
  = of_Z (nearest (s * scale) 100).
Proof.
  intros Hs Hp B. rewrite fmul_int by nia.
  rewrite jsRound_fdiv by nia. reflexivity.
Qed.

Lemma percentage_axes
  (w h scale : Z) (rd : ResizeDimensions) (presetSize : PresetSize)
  (lock : bool) :
  0 < w -> 0 < h -> 0 < scale ->
  w * scale + 100 <= 2 ^ 51 -> h * scale + 100 <= 2 ^ 51 ->
  targetDimensions (pixels w h) percentage rd (of_Z scale) presetSize lock
  = pixels (nearest (w * scale) 100) (nearest (h * scale) 100)
  /\ calculateTargetDimensions (previewOf w h) percentage rd (of_Z scale)
       presetSize lock PRESET_SIZES
     = Some (pixels (nearest (w * scale) 100) (nearest (h * scale) 100)).
Proof.
  intros Hw Hh Hs Bw Bh.
  assert (E : targetDimensions (pixels w h) percentage rd (of_Z scale)
                presetSize lock
              = pixels (nearest (w * scale) 100) (nearest (h * scale) 100)).
  { unfold targetDimensions, pixels. cbn [width height].
    rewrite !percentage_axis by assumption. reflexivity. }
  split; [exact E|]. rewrite preview_agrees by nia. rewrite E. reflexivity.
Qed.

(** C8. For a source of [w] by [h] pixels and a percentage [scale], both
    the conversion and the preview return width [round(w * scale / 100)]
    and height [round(h * scale / 100)], each side rounded on its own. *)
Theorem percentage_scales_each_axis
  (w h scale : Z) (rd : ResizeDimensions) (presetSize : PresetSize)
  (lock : bool) :
  0 < w -> 0 < h -> 0 < scale ->
  w * scale + 100 <= 2 ^ 51 -> h * scale + 100 <= 2 ^ 51 ->
  targetDimensions (pixels w h) percentage rd (of_Z scale) presetSize lock
  = pixels (nearest (w * scale) 100) (nearest (h * scale) 100)
  /\ calculateTargetDimensions (previewOf w h) percentage rd (of_Z scale)
       presetSize lock PRESET_SIZES
     = Some (pixels (nearest (w * scale) 100) (nearest (h * scale) 100)).
Proof. exact (percentage_axes w h scale rd presetSize lock). Qed.

(** The scenario of C8: 1000 by 500 at 50 percent is 500 by 250. *)
Lemma percentage_scales_each_axis_witness :
  (0 < 1000 /\ 0 < 500 /\ 0 < 50
   /\ 1000 * 50 + 100 <= 2 ^ 51 /\ 500 * 50 + 100 <= 2 ^ 51)
  /\ targetDimensions (pixels 1000 500) percentage (pixels 800 600) (of_Z 50)
       medium true
     = pixels 500 250.
Proof.
  split; [lia|].
  apply (proj1 (percentage_scales_each_axis 1000 500 50 (pixels 800 600)
                  medium true ltac:(lia) ltac:(lia) ltac:(lia) ltac:(lia)
                  ltac:(lia))).
Defined.

Lemma dimensions_width_only w h W pct presetSize :
  0 < W < 2 ^ 53 ->
  targetDimensions (pixels w h) dimensions (pixels W 0) pct presetSize true
  = {| width := of_Z W;
       height := jsRound (fmul (fdiv (of_Z h) (of_Z w)) (of_Z W)) |}.
Proof.
  intros HW. unfold targetDimensions, pixels. cbn [width height].
  rewrite (truthy_of_Z W), truthy_of_Z_0, (jsOr_given W) by lia. reflexivity.
Qed.

Lemma dimensions_height_only w h H pct presetSize :
  0 < H < 2 ^ 53 ->
  targetDimensions (pixels w h) dimensions (pixels 0 H) pct presetSize true
  = {| width := jsRound (fmul (fdiv (of_Z w) (of_Z h)) (of_Z H));
       height := of_Z H |}.
Proof.
  intros HH. unfold targetDimensions, pixels. cbn [width height].
  rewrite (truthy_of_Z H), truthy_of_Z_0, (jsOr_given H) by lia. reflexivity.
Qed.

Lemma one_side_nearest (w h T : Z) (pct : num) (presetSize : PresetSize) :
  0 < w -> 0 < h -> 0 < T -> h * T <= 2 ^ 50 -> w * T <= 2 ^ 50 ->
  (exists k,
     targetDimensions (pixels w h) dimensions (pixels T 0) pct presetSize true
     = pixels T k
     /\ calculateTargetDimensions (previewOf w h) dimensions (pixels T 0) pct
          presetSize true PRESET_SIZES = Some (pixels T k)
     /\ 2 * Z.abs (k * w - h * T) <= w
     /\ (k = nearest (h * T) w
         \/ (k = nearest (h * T) w - 1 /\ 2 * (h * T) = (2 * k + 1) * w)))
  /\
  (exists k,
     targetDimensions (pixels w h) dimensions (pixels 0 T) pct presetSize true
     = pixels k T
     /\ calculateTargetDimensions (previewOf w h) dimensions (pixels 0 T) pct
          presetSize true PRESET_SIZES = Some (pixels k T)
     /\ 2 * Z.abs (k * h - w * T) <= h
     /\ (k = nearest (w * T) h
         \/ (k = nearest (w * T) h - 1 /\ 2 * (w * T) = (2 * k + 1) * h))).
Proof.
  intros Hw Hh HT B1 B2.
  assert (Hw' : w < 2 ^ 53) by nia. assert (Hh' : h < 2 ^ 53) by nia.
  assert (HT' : T < 2 ^ 53) by nia.
  split.
  - destruct (jsRound_product h w T) as (k & Ek & K0 & Kn); try lia.
    exists k. rewrite preview_agrees, dimensions_width_only by lia.
    rewrite fmul_fdiv, Ek by lia.
    repeat split; try assumption. apply nearest_unique; lia.
  - destruct (jsRound_product w h T) as (k & Ek & K0 & Kn); try lia.
    exists k. rewrite preview_agrees, dimensions_height_only by lia.
    rewrite fmul_fdiv, Ek by lia.
    repeat split; try assumption. apply nearest_unique; lia.
Qed.

(** C7, as the code has it, for [h * T] and [w * T] up to [2^50].  With
    only one target side [T] given and the aspect ratio locked, the given
    side is returned as it is and the other side is [Math.round] of the
    binary64 product [(h / w) * T]: an integer nearest to [h * T / w], equal
    to [round(h * T / w)] except that an exact half may be rounded down. *)
Theorem one_side_keeps_ratio (w h T : Z) (pct : num) (presetSize : PresetSize) :
  0 < w -> 0 < h -> 0 < T -> h * T <= 2 ^ 50 -> w * T <= 2 ^ 50 ->
  (exists k,
     targetDimensions (pixels w h) dimensions (pixels T 0) pct presetSize true
     = pixels T k
     /\ calculateTargetDimensions (previewOf w h) dimensions (pixels T 0) pct
          presetSize true PRESET_SIZES = Some (pixels T k)
     /\ 2 * Z.abs (k * w - h * T) <= w
     /\ (k = nearest (h * T) w
         \/ (k = nearest (h * T) w - 1 /\ 2 * (h * T) = (2 * k + 1) * w)))
  /\
  (exists k,
     targetDimensions (pixels w h) dimensions (pixels 0 T) pct presetSize true
     = pixels k T
     /\ calculateTargetDimensions (previewOf w h) dimensions (pixels 0 T) pct
          presetSize true PRESET_SIZES = Some (pixels k T)
     /\ 2 * Z.abs (k * h - w * T) <= h
     /\ (k = nearest (w * T) h
         \/ (k = nearest (w * T) h - 1 /\ 2 * (w * T) = (2 * k + 1) * h))).
Proof. exact (one_side_nearest w h T pct presetSize). Qed.

Lemma one_side_keeps_ratio_witness :
  (0 < 1000 /\ 0 < 400 /\ 0 < 500
   /\ 400 * 500 <= 2 ^ 50 /\ 1000 * 500 <= 2 ^ 50)
  /\ exists k,
       targetDimensions (pixels 1000 400) dimensions (pixels 500 0) (of_Z 50)
         medium true = pixels 500 k
       /\ 2 * Z.abs (k * 1000 - 400 * 500) <= 1000.
Proof.
  split; [lia|].
  destruct (proj1 (one_side_keeps_ratio 1000 400 500 (of_Z 50) medium
                     ltac:(lia) ltac:(lia) ltac:(lia) ltac:(lia) ltac:(lia)))
    as (k & E & _ & N & _).
  exists k. split; assumption.
Defined.

(** C7 as it is written fails: a source of 6 by 13 pixels with target width
    27 and the ratio locked gets height 58, because [13 / 6 * 27] is
    58.49999999999999 in binary64, while [round(13 * 27 / 6)] is
    [round(58.5) = 59]. *)
Lemma one_side_keeps_ratio_counterexample :
  targetDimensions (pixels 6 13) dimensions (pixels 27 0) (of_Z 50) medium true
  = pixels 27 58
  /\ nearest (13 * 27) 6 = 59
  /\ pixels 27 58 <> pixels 27 (nearest (13 * 27) 6).
Proof.
  split; [vm_compute; reflexivity|]. split; [reflexivity|].
  intros E. apply (f_equal (fun d => feq (height d) (of_Z 58))) in E.
  vm_compute in E. discriminate E.
Qed.

(** Beyond that bound the binary64 product need not be within one half of
    the exact value: a source of 3 by 1 pixels with the target width [2^60]
    gets a height 21 below the nearest integer. *)
Example one_side_beyond_bound :
  targetDimensions (pixels 3 1) dimensions (pixels (2 ^ 60) 0) (of_Z 50)
    medium true = pixels (2 ^ 60) 384307168202282304
  /\ nearest (1 * 2 ^ 60) 3 = 384307168202282304 + 21.
Proof. split; vm_compute; reflexivity. Qed.

Lemma dimensions_both w h W H pct presetSize :
  0 < W < 2 ^ 53 -> 0 < H < 2 ^ 53 ->
  targetDimensions (pixels w h) dimensions (pixels W H) pct presetSize true
  = let ratio := fmin (fdiv (of_Z W) (of_Z w)) (fdiv (of_Z H) (of_Z h)) in
    {| width := jsRound (fmul (of_Z w) ratio);
       height := jsRound (fmul (of_Z h) ratio) |}.
Proof.
  intros HW HH. unfold targetDimensions, pixels. cbn [width height].
  rewrite (truthy_of_Z W), (truthy_of_Z H), (jsOr_given W), (jsOr_given H)
    by lia.
  reflexivity.
Qed.

Lemma both_sides_fit (w h W H : Z) (pct : num) (presetSize : PresetSize) :
  0 < w < 2 ^ 53 -> 0 < h < 2 ^ 53 -> 0 < W <= 2 ^ 50 -> 0 < H <= 2 ^ 50 ->
  exists a b,
    targetDimensions (pixels w h) dimensions (pixels W H) pct presetSize true
    = pixels a b
    /\ calculateTargetDimensions (previewOf w h) dimensions (pixels W H) pct
         presetSize true PRESET_SIZES = Some (pixels a b)
    /\ 0 <= a <= W /\ 0 <= b <= H /\ (a = W \/ b = H).
Proof.
  intros Hw Hh HW HH.
  destruct (fit_inside_branch w h W H Hw Hh HW HH) as (a & b & Ea & Eb & R).
  exists a, b. rewrite preview_agrees, dimensions_both by lia.
  cbv zeta. rewrite Ea, Eb. repeat split; try apply R; reflexivity.
Qed.

(** C4, as the code has it.  With both targets [W] and [H] given, each at
    most [2^50], and the aspect ratio locked, the result fits inside [W] by
    [H] and meets it on one side at least. *)
Theorem fit_inside (w h W H : Z) (pct : num) (presetSize : PresetSize) :
  0 < w < 2 ^ 53 -> 0 < h < 2 ^ 53 -> 0 < W <= 2 ^ 50 -> 0 < H <= 2 ^ 50 ->
  exists a b,
    targetDimensions (pixels w h) dimensions (pixels W H) pct presetSize true
    = pixels a b
    /\ calculateTargetDimensions (previewOf w h) dimensions (pixels W H) pct
         presetSize true PRESET_SIZES = Some (pixels a b)
    /\ 0 <= a <= W /\ 0 <= b <= H /\ (a = W \/ b = H).
Proof. exact (both_sides_fit w h W H pct presetSize). Qed.

(** The scenario of the specification: 1000 by 400 into 500 by 300. *)
Lemma fit_inside_witness :
  (0 < 1000 < 2 ^ 53 /\ 0 < 400 < 2 ^ 53
   /\ 0 < 500 <= 2 ^ 50 /\ 0 < 300 <= 2 ^ 50)
  /\ exists a b,
       targetDimensions (pixels 1000 400) dimensions (pixels 500 300)
         (of_Z 50) medium true = pixels a b
       /\ 0 <= a <= 500 /\ 0 <= b <= 300 /\ (a = 500 \/ b = 300).
Proof.
  split; [lia|].
  destruct (fit_inside 1000 400 500 300 (of_Z 50) medium
              ltac:(lia) ltac:(lia) ltac:(lia) ltac:(lia))
    as (a & b & E & _ & R).
  exists a, b. split; assumption.
Defined.

(** C4 as it is written fails for targets the fields accept: a source of
    49 by 49 pixels with the targets [2^53] by [2^54] typed in is resolved to
    [2^53 - 1] by [2^53 - 1], which meets neither target. *)
Lemma fit_inside_counterexample :
  parsedDimension (lit "9007199254740992") = of_Z (2 ^ 53)
  /\ parsedDimension (lit "18014398509481984") = of_Z (2 ^ 54)
  /\ targetDimensions (pixels 49 49) dimensions (pixels (2 ^ 53) (2 ^ 54))
       (of_Z 50) medium true
     = pixels (2 ^ 53 - 1) (2 ^ 53 - 1)
  /\ calculateTargetDimensions (previewOf 49 49) dimensions
       (pixels (2 ^ 53) (2 ^ 54)) (of_Z 50) medium true PRESET_SIZES
     = Some (pixels (2 ^ 53 - 1) (2 ^ 53 - 1))
  /\ feq (of_Z (2 ^ 53 - 1)) (of_Z (2 ^ 53)) = false
  /\ feq (of_Z (2 ^ 53 - 1)) (of_Z (2 ^ 54)) = false.
Proof.
  split; [vm_compute; reflexivity|]. split; [vm_compute; reflexivity|].
  split; [vm_compute; reflexivity|]. split; [vm_compute; reflexivity|].
  split; vm_compute; reflexivity.
Qed.

Example fit_inside_scenario :
  targetDimensions (pixels 1000 400) dimensions (pixels 500 300) (of_Z 50)
    medium true = pixels 500 200.
Proof. vm_compute. reflexivity. Qed.

(** C9. In the dimensions mode without the aspect lock a target side that is
    missing (0) is replaced by the side of the source, and a side that is
    given is used as it is. *)
Theorem unlocked_sides_substitute
  (img : Dimensions) (W H pct : num) (presetSize : PresetSize) :
  truthy W = true -> truthy H = true ->
  targetDimensions img dimensions {| width := W; height := of_Z 0 |} pct
    presetSize false
  = {| width := W; height := height img |}
  /\ targetDimensions img dimensions {| width := of_Z 0; height := H |} pct
       presetSize false
     = {| width := width img; height := H |}
  /\ targetDimensions img dimensions {| width := of_Z 0; height := of_Z 0 |}
       pct presetSize false
     = {| width := width img; height := height img |}
  /\ targetDimensions img dimensions {| width := W; height := H |} pct
       presetSize false
     = {| width := W; height := H |}
  /\ forall rd,
       truthy (width img) = true -> truthy (height img) = true ->
       calculateTargetDimensions
         {| fileWidth := Some (width img); fileHeight := Some (height img) |}
         dimensions rd pct presetSize false PRESET_SIZES
       = Some (targetDimensions img dimensions rd pct presetSize false).
Proof.
  intros HW HH. unfold targetDimensions. cbn [width height].
  unfold jsOr. rewrite HW, HH, truthy_of_Z_0.
  repeat split; try reflexivity.
  intros rd Hw Hh. rewrite calculateTargetDimensions_agrees by assumption.
  destruct img. reflexivity.
Qed.

Lemma unlocked_sides_substitute_witness :
  (truthy (of_Z 800) = true /\ truthy (of_Z 600) = true)
  /\ targetDimensions (pixels 1000 400) dimensions (pixels 800 0) (of_Z 50)
       medium false = pixels 800 400
  /\ targetDimensions (pixels 1000 400) dimensions (pixels 0 600) (of_Z 50)
       medium false = pixels 1000 600
  /\ targetDimensions (pixels 1000 400) dimensions (pixels 0 0) (of_Z 50)
       medium false = pixels 1000 400.
Proof.
  split; [split; vm_compute; reflexivity|].
  pose proof (unlocked_sides_substitute (pixels 1000 400) (of_Z 800) (of_Z 600)
                (of_Z 50) medium
                ltac:(vm_compute; reflexivity) ltac:(vm_compute; reflexivity))
    as (A & B & C & _).
  split; [exact A|]. split; [exact B|exact C].
Defined.

(** C1 as it is written fails: nothing clamps.  A source of 1 by 1 pixel at
    1 percent is resolved to 0 by 0. *)
Lemma never_zero_counterexample :
  targetDimensions (pixels 1 1) percentage (pixels 800 600) (of_Z 1) medium true
  = pixels 0 0
  /\ calculateTargetDimensions (previewOf 1 1) percentage (pixels 800 600)
       (of_Z 1) medium true PRESET_SIZES
     = Some (pixels 0 0)
  /\ flt (of_Z 0) (width (pixels 0 0)) = false.
Proof.
  split; [vm_compute; reflexivity|].
  split; [vm_compute; reflexivity|]. vm_compute. reflexivity.
Qed.

Lemma nearest_pos n : 0 <= n -> (0 < nearest n 100 <-> 50 <= n).
Proof.
  intros Hn. unfold nearest.
  pose proof (Z.div_mod (2 * n + 100) (2 * 100) ltac:(lia)).
  pose proof (Z.mod_pos_bound (2 * n + 100) (2 * 100) ltac:(lia)).
  lia.
Qed.

Lemma nearest_nonneg n d : 0 <= n -> 0 < d -> 0 <= nearest n d.
Proof. intros. unfold nearest. apply Z.div_pos; lia. Qed.

Lemma MAX_SIDE_eq : MAX_SIDE = 2 ^ 25.
Proof. reflexivity. Qed.

Lemma nearest_same w b h : 0 < w -> 2 * Z.abs (b * w - h * w) <= w -> b = h.
Proof.
  intros Hw H.
  replace (b * w - h * w) with ((b - h) * w) in H by ring.
  rewrite Z.abs_mul, (Z.abs_eq w) in H by lia.
  destruct (Z.eq_dec b h) as [E|N]; [exact E|exfalso].
  assert (1 * w <= Z.abs (b - h) * w)
    by (apply Z.mul_le_mono_nonneg_r; lia).
  lia.
Qed.

Lemma roundedSide_intro k n d :
  0 < d -> 0 <= n -> 2 * Z.abs (k * d - n) <= d -> roundedSide k n d.
Proof.
  intros Hd Hn H. split; [exact H|]. split.
  - intros Hs. destruct (Z.eq_dec k 0) as [E|N]; [exact E|exfalso].
    destruct (Z_lt_ge_dec k 0) as [Neg|Pos].
    + assert (k * d <= (- 1) * d) by (apply Z.mul_le_mono_nonneg_r; lia).
      lia.
    + assert (1 * d <= k * d) by (apply Z.mul_le_mono_nonneg_r; lia).
      lia.
  - intros ->. rewrite Z.mul_0_l in H. lia.
Qed.

Lemma both_sides_nearest (w h W H : Z) (pct : num) (presetSize : PresetSize) :
  0 < w < 2 ^ 53 -> 0 < h < 2 ^ 53 -> 0 < W <= 2 ^ 50 -> 0 < H <= 2 ^ 50 ->
  h * W <= 2 ^ 50 -> w * H <= 2 ^ 50 ->
  exists a b,
    targetDimensions (pixels w h) dimensions (pixels W H) pct presetSize true
    = pixels a b
    /\ 0 <= a <= W /\ 0 <= b <= H
    /\ ((a = W /\ roundedSide b (h * W) w)
        \/ (b = H /\ roundedSide a (w * H) h)).
Proof.
  intros Hw Hh HW HH B1 B2.
  destruct (fit_nearest w h W H Hw Hh HW HH B1 B2)
    as (a & b & Ea & Eb & Ba & Bb & R).
  exists a, b. rewrite dimensions_both by lia.
  cbv zeta. rewrite Ea, Eb. split; [reflexivity|].
  split; [exact Ba|]. split; [exact Bb|].
  assert (0 <= h * W) by (apply Z.mul_nonneg_nonneg; lia).
  assert (0 <= w * H) by (apply Z.mul_nonneg_nonneg; lia).
  destruct R as [[E N]|[E N]]; [left|right];
    (split; [exact E|apply roundedSide_intro; assumption || lia]).
Qed.

(** Closes the conjuncts about the other resize modes. *)
Ltac other_modes :=
  repeat match goal with
         | |- _ /\ _ => split
         end;
  try (intros; discriminate);
  try (intros [?|[[? ?]|[? ?]]]; discriminate).

(** C1, as the code has it, for sides, target sides and a percentage up to
    [MAX_SIDE]; a target side of 0 is a side that is not given.  Both sides
    of the result are non-negative whole numbers and nothing clamps them.
    Without resizing, in the dimensions mode without the aspect lock and
    with a preset without the lock, both sides are positive.  The percentage
    mode gives [round(side * scale / 100)], which is 0 exactly when the
    scaled value is below one half.  With the aspect lock, in the dimensions
    mode and with a preset, the side that is computed is [Math.round] of the
    proportional value: 0 whenever that value is below one half. *)
Theorem sides_never_negative
  (w h W H scale : Z) (resizeMode : ResizeMode) (presetSize : PresetSize)
  (lock : bool) :
  0 < w <= MAX_SIDE -> 0 < h <= MAX_SIDE ->
  0 <= W <= MAX_SIDE -> 0 <= H <= MAX_SIDE -> 0 < scale <= MAX_SIDE ->
  exists a b,
    targetDimensions (pixels w h) resizeMode (pixels W H) (of_Z scale)
      presetSize lock = pixels a b
    /\ calculateTargetDimensions (previewOf w h) resizeMode (pixels W H)
         (of_Z scale) presetSize lock PRESET_SIZES = Some (pixels a b)
    /\ 0 <= a /\ 0 <= b
    /\ (resizeMode = none \/ (resizeMode = dimensions /\ lock = false)
        \/ (resizeMode = preset /\ lock = false) ->
        0 < a /\ 0 < b)
    /\ (resizeMode = percentage ->
        a = nearest (w * scale) 100 /\ b = nearest (h * scale) 100
        /\ (0 < a <-> 50 <= w * scale) /\ (0 < b <-> 50 <= h * scale))
    /\ (resizeMode = dimensions -> lock = true ->
        (W = 0 -> H = 0 -> a = w /\ b = h)
        /\ (0 < W -> H = 0 -> a = W /\ roundedSide b (h * W) w)
        /\ (W = 0 -> 0 < H -> b = H /\ roundedSide a (w * H) h)
        /\ (0 < W -> 0 < H ->
            (a = W /\ roundedSide b (h * W) w)
            \/ (b = H /\ roundedSide a (w * H) h)))
    /\ (resizeMode = preset -> lock = true ->
        exists PW PH,
          PRESET_SIZES presetSize = pixels PW PH
          /\ ((a = PW /\ roundedSide b (h * PW) w)
              \/ (b = PH /\ roundedSide a (w * PH) h)))
    /\ (resizeMode = preset -> lock = false ->
        PRESET_SIZES presetSize = pixels a b).
Proof.
  rewrite MAX_SIDE_eq. intros Hw Hh HW HH Hs.
  assert (P : forall a b,
             targetDimensions (pixels w h) resizeMode (pixels W H) (of_Z scale)
               presetSize lock = pixels a b ->
             calculateTargetDimensions (previewOf w h) resizeMode (pixels W H)
               (of_Z scale) presetSize lock PRESET_SIZES = Some (pixels a b)).
  { intros a b E. rewrite preview_agrees, E by lia. reflexivity. }
  assert (B50 : 2 ^ 25 * 2 ^ 25 = 2 ^ 50) by reflexivity.
  assert (Mul : forall x y, 0 <= x <= 2 ^ 25 -> 0 <= y <= 2 ^ 25 ->
                            x * y <= 2 ^ 50).
  { intros x y Hx Hy. rewrite <- B50. apply Z.mul_le_mono_nonneg; lia. }
  assert (Pos : forall x y, 0 <= x -> 0 <= y -> 0 <= x * y)
    by (intros; apply Z.mul_nonneg_nonneg; assumption).
  destruct resizeMode.
  - (* none *)
    exists w, h. split; [reflexivity|]. split; [apply P; reflexivity|].
    split; [lia|]. split; [lia|]. split; [intros _; lia|]. other_modes.
  - (* dimensions *)
    destruct lock.
    + destruct (Z.eq_dec W 0) as [->|nW], (Z.eq_dec H 0) as [->|nH].
      * (* neither side given: the source against itself *)
        destruct (fit_nearest w h w h) as (a & b & Ea & Eb & Ba & Bb & R);
          try lia; try (apply Mul; lia).
        assert (Ew : a = w /\ b = h).
        { destruct R as [[E N]|[E N]]; subst; split; try reflexivity.
          - apply (nearest_same w); lia.
          - apply (nearest_same h); [lia|].
            replace (h * w) with (w * h) by ring. exact N. }
        destruct Ew as [-> ->].
        assert (E : targetDimensions (pixels w h) dimensions (pixels 0 0)
                      (of_Z scale) presetSize true = pixels w h).
        { unfold targetDimensions, pixels. cbn [width height].
          rewrite truthy_of_Z_0, !jsOr_absent. cbn [negb andb].
          cbv zeta in Ea, Eb. rewrite Ea, Eb. reflexivity. }
        exists w, h. split; [exact E|]. split; [apply P; exact E|].
        split; [lia|]. split; [lia|].
        split; [intros [C|[[_ C]|[C _]]]; discriminate C|].
        split; [intros C; discriminate C|].
        split; [|other_modes].
        intros _ _. split; [intros _ _; split; reflexivity|].
        split; [intros C; lia|]. split; [intros _ C; lia|]. intros C; lia.
      * destruct (one_side_nearest w h H (of_Z scale) presetSize)
          as [_ (k & E & _ & N & _)]; try lia; try (apply Mul; lia).
        assert (K0 : 0 <= k).
        { destruct (Z_lt_ge_dec k 0) as [Neg|ok]; [exfalso|lia].
          assert (k * h <= (- 1) * h)
            by (apply Z.mul_le_mono_nonneg_r; lia).
          pose proof (Pos w H ltac:(lia) ltac:(lia)). lia. }
        exists k, H. split; [exact E|]. split; [apply P; exact E|].
        split; [lia|]. split; [lia|].
        split; [intros [C|[[_ C]|[C _]]]; discriminate C|].
        split; [intros C; discriminate C|].
        split; [|other_modes].
        intros _ _. split; [intros _ C; lia|]. split; [intros C; lia|].
        split; [|intros C; lia].
        intros _ _. split; [reflexivity|].
        apply roundedSide_intro; [lia|apply Pos; lia|exact N].
      * destruct (one_side_nearest w h W (of_Z scale) presetSize)
          as [(k & E & _ & N & _) _]; try lia; try (apply Mul; lia).
        assert (K0 : 0 <= k).
        { destruct (Z_lt_ge_dec k 0) as [Neg|ok]; [exfalso|lia].
          assert (k * w <= (- 1) * w)
            by (apply Z.mul_le_mono_nonneg_r; lia).
          pose proof (Pos h W ltac:(lia) ltac:(lia)). lia. }
        exists W, k. split; [exact E|]. split; [apply P; exact E|].
        split; [lia|]. split; [lia|].
        split; [intros [C|[[_ C]|[C _]]]; discriminate C|].
        split; [intros C; discriminate C|].
        split; [|other_modes].
        intros _ _. split; [intros C; lia|].
        split; [|split; [intros C; lia|intros _ C; lia]].
        intros _ _. split; [reflexivity|].
        apply roundedSide_intro; [lia|apply Pos; lia|exact N].
      * destruct (both_sides_nearest w h W H (of_Z scale) presetSize)
          as (a & b & E & Ba & Bb & R); try lia; try (apply Mul; lia).
        exists a, b. split; [exact E|]. split; [apply P; exact E|].
        split; [lia|]. split; [lia|].
        split; [intros [C|[[_ C]|[C _]]]; discriminate C|].
        split; [intros C; discriminate C|].
        split; [|other_modes].
        intros _ _. split; [intros C; lia|]. split; [intros _ C; lia|].
        split; [intros C; lia|]. intros _ _. exact R.
    + exists (if W =? 0 then w else W), (if H =? 0 then h else H).
      assert (E : targetDimensions (pixels w h) dimensions (pixels W H)
                    (of_Z scale) presetSize false
                  = pixels (if W =? 0 then w else W) (if H =? 0 then h else H)).
      { unfold targetDimensions, pixels. cbn [width height].
        destruct (Z.eqb_spec W 0) as [->|nW], (Z.eqb_spec H 0) as [->|nH];
          rewrite ?jsOr_absent, ?(jsOr_given W), ?(jsOr_given H) by lia;
          reflexivity. }
      split; [exact E|]. split; [apply P; exact E|].
      assert (0 < (if W =? 0 then w else W))
        by (destruct (Z.eqb_spec W 0); lia).
      assert (0 < (if H =? 0 then h else H))
        by (destruct (Z.eqb_spec H 0); lia).
      split; [lia|]. split; [lia|]. split; [intros _; lia|].
      split; [intros C; discriminate C|].
      split; [intros _ C; discriminate C|]. other_modes.
  - (* percentage *)
    pose proof (Mul w scale ltac:(lia) ltac:(lia)).
    pose proof (Mul h scale ltac:(lia) ltac:(lia)).
    assert (0 < w * scale) by (apply Z.mul_pos_pos; lia).
    assert (0 < h * scale) by (apply Z.mul_pos_pos; lia).
    destruct (percentage_axes w h scale (pixels W H) presetSize
                lock) as [E _]; try lia.
    exists (nearest (w * scale) 100), (nearest (h * scale) 100).
    split; [exact E|]. split; [apply P; exact E|].
    pose proof (nearest_nonneg (w * scale) 100 ltac:(lia) ltac:(lia)).
    pose proof (nearest_nonneg (h * scale) 100 ltac:(lia) ltac:(lia)).
    pose proof (nearest_pos (w * scale) ltac:(lia)).
    pose proof (nearest_pos (h * scale) ltac:(lia)).
    split; [assumption|]. split; [assumption|].
    split; [intros [C|[[C _]|[C _]]]; discriminate C|].
    split; [|other_modes].
    intros _. split; [reflexivity|]. split; [reflexivity|].
    split; assumption.
  - (* preset *)
    destruct (PRESET_SIZES_pixels presetSize) as (PW & PH & EP & BW & BH).
    destruct lock.
    + destruct (fit_nearest w h PW PH) as (a & b & Ea & Eb & Ba & Bb & R);
        try lia; try (apply Mul; lia).
      assert (E : targetDimensions (pixels w h) preset (pixels W H)
                    (of_Z scale) presetSize true = pixels a b).
      { unfold targetDimensions. rewrite EP. unfold pixels.
        cbn [width height]. cbv zeta in Ea, Eb. rewrite Ea, Eb. reflexivity. }
      exists a, b. split; [exact E|]. split; [apply P; exact E|].
      split; [lia|]. split; [lia|].
      split; [intros [C|[[C _]|[_ C]]]; discriminate C|].
      split; [intros C; discriminate C|].
      split; [intros C; discriminate C|].
      split; [|intros _ C; discriminate C].
      intros _ _. exists PW, PH. split; [exact EP|].
      pose proof (Pos h PW ltac:(lia) ltac:(lia)).
      pose proof (Pos w PH ltac:(lia) ltac:(lia)).
      destruct R as [[Ex N]|[Ex N]]; [left|right];
        (split; [exact Ex|apply roundedSide_intro; assumption || lia]).
    + exists PW, PH.
      assert (E : targetDimensions (pixels w h) preset (pixels W H)
                    (of_Z scale) presetSize false = pixels PW PH).
      { unfold targetDimensions. rewrite EP. reflexivity. }
      split; [exact E|]. split; [apply P; exact E|].
      split; [lia|]. split; [lia|]. split; [intros _; lia|].
      split; [intros C; discriminate C|].
      split; [intros C; discriminate C|].
      split; [intros _ C; discriminate C|]. intros _ _. exact EP.
Qed.

Lemma sides_never_negative_witness :
  (0 < 1000 <= MAX_SIDE /\ 0 < 1 <= MAX_SIDE
   /\ 0 <= 100 <= MAX_SIDE /\ 0 <= 0 <= MAX_SIDE /\ 0 < 50 <= MAX_SIDE)
  /\ exists a b,
       targetDimensions (pixels 1000 1) dimensions (pixels 100 0) (of_Z 50)
         medium true = pixels a b
       /\ a = 100 /\ b = 0.
Proof.
  split; [unfold MAX_SIDE; lia|].
  destruct (sides_never_negative 1000 1 100 0 50 dimensions medium true
              ltac:(unfold MAX_SIDE; lia) ltac:(unfold MAX_SIDE; lia)
              ltac:(unfold MAX_SIDE; lia) ltac:(unfold MAX_SIDE; lia)
              ltac:(unfold MAX_SIDE; lia))
    as (a & b & E & _ & _ & _ & _ & _ & D & _).
  destruct (D eq_refl eq_refl) as (_ & D1 & _).
  destruct (D1 ltac:(lia) eq_refl) as (Ea & _ & Z0 & _).
  exists a, b. split; [exact E|]. split; [exact Ea|apply Z0; lia].
Defined.

(** Nothing lifts a side that rounds to 0, with the aspect lock either:
    a source of 1000 by 1 pixel gets height 0 for a target width of 100,
    for targets of 100 by 100, and for the preset of 640 by 480. *)
Example locked_side_can_be_zero :
  targetDimensions (pixels 1000 1) dimensions (pixels 100 0) (of_Z 50)
    medium true = pixels 100 0
  /\ targetDimensions (pixels 1000 1) dimensions (pixels 100 100) (of_Z 50)
       medium true = pixels 100 0
  /\ targetDimensions (pixels 10000 1) preset (pixels 0 0) (of_Z 50)
       small true = pixels 640 0.
Proof.
  split; [vm_compute; reflexivity|].
  split; [vm_compute; reflexivity|]. vm_compute. reflexivity.
Qed.

(** ** Progress values *)

Section ProgressValues.

Variables i m k : Z.
Hypothesis Hi : 0 < i <= m.
Hypothesis Hm : m < 2 ^ 53.
Hypothesis Hk : 0 < k < 2 ^ 53.

Lemma quotient_le_one : quotientU i m <= U.
Proof.
  pose proof U_pos as HU. unfold quotientU.
  apply fl_pos_le.
  - apply Z.mul_pos_pos; lia.
  - apply Z.mul_nonneg_nonneg; [apply Z.mul_nonneg_nonneg|]; lia.
  - rewrite <- (Z.mul_1_l U). apply repr_int. lia.
  - replace (i * U * U) with (i * (U * U)) by ring.
    replace (U * (m * U)) with (m * (U * U)) by ring.
    apply Z.mul_le_mono_nonneg_r; [|lia].
    apply Z.mul_nonneg_nonneg; lia.
Qed.

Lemma product_le_factor : 0 <= productU i m k <= k * U.
Proof.
  pose proof U_pos as HU. pose proof quotient_le_one as Q1.
  pose proof (quotient_bounds i m ltac:(lia) ltac:(lia)) as [Q0 _].
  assert (KU : 0 <= k * U) by (apply Z.mul_nonneg_nonneg; lia).
  assert (N0 : 0 <= quotientU i m * (k * U))
    by (apply Z.mul_nonneg_nonneg; lia).
  unfold productU. split.
  - apply fl_pos_nonneg; assumption.
  - apply fl_pos_le; try assumption.
    + apply repr_int. lia.
    + rewrite (Z.mul_comm (quotientU i m)).
      apply Z.mul_le_mono_nonneg_l; assumption.
Qed.

End ProgressValues.

Lemma quotient_mono i j m :
  0 < i <= j -> 0 < m -> quotientU i m <= quotientU j m.
Proof.
  intros Hij Hm. pose proof U_pos as HU. unfold quotientU.
  apply fl_pos_mono.
  - apply Z.mul_nonneg_nonneg; [apply Z.mul_nonneg_nonneg|]; lia.
  - apply Z.mul_pos_pos; lia.
  - apply Z.mul_le_mono_nonneg_r; [lia|].
    apply Z.mul_le_mono_nonneg_r; lia.
Qed.

Lemma product_mono i j m k :
  0 < i <= j -> 0 < m < 2 ^ 53 -> j < 2 ^ 53 -> 0 < k ->
  productU i m k <= productU j m k.
Proof.
  intros Hij Hm Hj Hk. pose proof U_pos as HU.
  pose proof (quotient_bounds i m ltac:(lia) ltac:(lia)) as [Q0 _].
  pose proof (quotient_mono i j m Hij ltac:(lia)) as Q.
  assert (KU : 0 <= k * U) by (apply Z.mul_nonneg_nonneg; lia).
  unfold productU. apply fl_pos_mono; try assumption.
  - apply Z.mul_nonneg_nonneg; lia.
  - apply Z.mul_le_mono_nonneg_r; assumption.
Qed.

Lemma fadd_exact a b :
  0 <= a -> 0 <= b -> a + b < 2 ^ 53 ->
  fadd (of_Z a) (of_Z b) = of_Z (a + b).
Proof.
  intros Ha Hb H. pose proof U_pos as HU. pose proof MAXU_big as HM.
  rewrite !of_Z_exact by lia. cbn [fadd].
  replace (a * U + b * U) with ((a + b) * U * 1) by ring.
  assert (G0 : 0 <= (a + b) * U) by (apply Z.mul_nonneg_nonneg; lia).
  assert (GM : (a + b) * U <= MAXU).
  { assert ((a + b) * U <= 2 ^ 53 * U)
      by (apply Z.mul_le_mono_nonneg_r; lia). lia. }
  apply (fl_exact _ 1 ltac:(lia) G0 (repr_int (a + b) ltac:(lia)) GM).
Qed.

(** The value reported after the [i]-th of [m] formats. *)
Lemma formatProgress_value i m :
  0 < i <= m -> m < 2 ^ 53 ->
  jsFloor (fadd (of_Z 60) (fmul (fdiv (of_Z i) (of_Z m)) (of_Z 40)))
  = Fin (formatProgressU i m)
  /\ 60 * U <= formatProgressU i m <= 100 * U.
Proof.
  intros Hi Hm. pose proof U_pos as HU. pose proof MAXU_big as HM.
  pose proof (product_le_factor i m 40 Hi Hm ltac:(lia)) as [P0 P1].
  rewrite fmul_fdiv by lia. rewrite of_Z_exact by lia. cbn [fadd].
  assert (N0 : 0 <= 60 * U + productU i m 40) by lia.
  assert (Up : fl_pos (60 * U + productU i m 40) 1 <= 100 * U).
  { apply fl_pos_le; try lia. apply repr_int; lia. }
  assert (Lo : 60 * U <= fl_pos (60 * U + productU i m 40) 1).
  { apply fl_pos_ge; try lia. apply repr_int; lia. }
  rewrite fl_Fin by lia. cbn [jsFloor]. fold (formatProgressU i m).
  split; [reflexivity|]. unfold formatProgressU.
  set (s := fl_pos (60 * U + productU i m 40) 1) in *.
  pose proof (Z.div_mod s U ltac:(lia)) as DM.
  pose proof (Z.mod_pos_bound s U HU) as MB.
  assert (60 <= s / U).
  { apply Z.div_le_lower_bound; lia. }
  assert (s / U <= 100).
  { apply Z.div_le_upper_bound; lia. }
  split.
  - apply Z.mul_le_mono_nonneg_r; lia.
  - apply Z.mul_le_mono_nonneg_r; lia.
Qed.

Lemma formatProgressU_mono i j m :
  0 < i <= j -> j <= m -> m < 2 ^ 53 ->
  formatProgressU i m <= formatProgressU j m.
Proof.
  intros Hij Hj Hm. pose proof U_pos as HU.
  pose proof (product_mono i j m 40 Hij ltac:(lia) ltac:(lia) ltac:(lia)) as PM.
  pose proof (product_le_factor i m 40 ltac:(lia) Hm ltac:(lia)) as [P0 _].
  unfold formatProgressU.
  apply Z.mul_le_mono_nonneg_r; [lia|].
  apply Z.div_le_mono; [lia|].
  apply fl_pos_mono; lia.
Qed.

(** The value reported after the [i]-th of [m] files. *)
Lemma zipProgress_value i m :
  0 < i <= m -> m < 2 ^ 53 ->
  jsRound (fmul (fdiv (of_Z i) (of_Z m)) (of_Z 100)) = Fin (zipProgressU i m)
  /\ 0 <= zipProgressU i m <= 100 * U.
Proof.
  intros Hi Hm. pose proof U_pos as HU.
  pose proof (product_le_factor i m 100 Hi Hm ltac:(lia)) as [P0 P1].
  rewrite fmul_fdiv by lia. cbn [jsRound]. fold (zipProgressU i m).
  split; [reflexivity|]. unfold zipProgressU.
  set (p := productU i m 100) in *.
  assert (0 <= (2 * p + U) / (2 * U)) by (apply Z.div_pos; lia).
  assert ((2 * p + U) / (2 * U) < 101).
  { apply Z.div_lt_upper_bound; lia. }
  split.
  - apply Z.mul_nonneg_nonneg; lia.
  - apply Z.mul_le_mono_nonneg_r; lia.
Qed.

Lemma zipProgressU_mono i j m :
  0 < i <= j -> j <= m -> m < 2 ^ 53 ->
  zipProgressU i m <= zipProgressU j m.
Proof.
  intros Hij Hj Hm. pose proof U_pos as HU.
  pose proof (product_mono i j m 100 Hij ltac:(lia) ltac:(lia) ltac:(lia)) as PM.
  unfold zipProgressU.
  apply Z.mul_le_mono_nonneg_r; [lia|].
  apply Z.div_le_mono; lia.
Qed.

(** ** Sequences of reports *)

Lemma num_le_Fin a b : num_le (Fin a) (Fin b) <-> a <= b.
Proof. unfold num_le. cbn [fle]. apply Z.leb_le. Qed.

Lemma sorted_Fin zs :
  StronglySorted Z.le zs -> StronglySorted num_le (List.map Fin zs).
Proof.
  induction 1 as [|z zs S IH F]; cbn [List.map]; constructor.
  - exact IH.
  - apply Forall_map. revert F. apply Forall_impl.
    intros y. apply num_le_Fin.
Qed.

Lemma sorted_app (l1 l2 : list Z) :
  StronglySorted Z.le l1 -> StronglySorted Z.le l2 ->
  (forall x y, In x l1 -> In y l2 -> x <= y) ->
  StronglySorted Z.le (l1 ++ l2).
Proof.
  induction 1 as [|z zs S IH F]; intros S2 B; cbn [app]; [exact S2|].
  constructor.
  - apply IH; [exact S2|]. intros x y Hx Hy. apply B; [right|]; assumption.
  - apply Forall_app. split; [exact F|].
    apply Forall_forall. intros y Hy. apply B; [left; reflexivity|exact Hy].
Qed.

Lemma sorted_map_seq (g : nat -> Z) a n :
  (forall i j, (a <= i)%nat -> (i <= j)%nat -> (j < a + n)%nat -> g i <= g j) ->
  StronglySorted Z.le (List.map g (seq a n)).
Proof.
  revert a. induction n as [|n IH]; intros a M; cbn [seq List.map];
    constructor.
  - apply IH. intros i j H1 H2 H3. apply M; lia.
  - apply Forall_map, Forall_forall. intros j Hj.
    apply in_seq in Hj. apply M; lia.
Qed.

Lemma map_seq_shift {A} (g : nat -> A) a n :
  List.map (fun i => g (S i)) (seq a n) = List.map g (seq (S a) n).
Proof. rewrite <- seq_shift, map_map. reflexivity. Qed.

(** What [processFormat] reports from a point where [j] formats are
    complete. *)
Lemma processFormat_log target m rest :
  forall results j s,
    0 <= j -> j + Z.of_nat (List.length rest) <= m -> m < 2 ^ 53 ->
    snd (processFormat record target (of_Z m) rest results (of_Z j) s)
    = s ++ List.map (fun i => Fin (formatProgressU (j + Z.of_nat i) m))
             (seq 1 (List.length rest))
        ++ [of_Z 100].
Proof.
  induction rest as [|f rest IH]; intros results j s Hj Hm Hb.
  - reflexivity.
  - cbn [processFormat List.length] in *.
    rewrite fadd_exact by lia.
    destruct (formatProgress_value (j + 1) m ltac:(lia) Hb) as [E _].
    rewrite E, IH by lia.
    unfold record. rewrite <- app_assoc. f_equal.
    cbn [seq List.map app].
    replace (j + Z.of_nat 1) with (j + 1) by lia. do 2 f_equal.
    rewrite <- (seq_shift (List.length rest) 1), map_map. apply map_ext.
    intros i. replace (j + 1 + Z.of_nat i) with (j + Z.of_nat (S i)) by lia.
    reflexivity.
Qed.

Lemma heicSteps_log o s :
  exists zs,
    heicSteps record o s = s ++ List.map Fin zs
    /\ StronglySorted Z.le zs
    /\ Forall (fun z => 5 * U <= z <= 40 * U) zs.
Proof.
  pose proof U_pos as HU.
  destruct o; cbn [heicSteps]; unfold record; rewrite ?of_Z_exact by lia;
    rewrite <- ?app_assoc; cbn [app];
    [exists [30 * U]|exists [10 * U; 20 * U; 30 * U]
    |exists [10 * U]|exists [10 * U; 20 * U]];
    (split; [reflexivity|]);
    (split;
     repeat first [apply SSorted_cons|apply SSorted_nil
                  |apply Forall_cons|apply Forall_nil]; lia).
Qed.

Lemma fetchedCount_le fetched n : forall k, (fetchedCount fetched k n <= n)%nat.
Proof.
  induction n as [|n IH]; intros k; cbn [fetchedCount]; [lia|].
  specialize (IH (S k)). destruct (fetched k); lia.
Qed.

(** What the loop over the valid results reports from a point where [j]
    files are in the archive. *)
Lemma addFiles_log m fetched validResults :
  forall k j s,
    0 <= j ->
    j + Z.of_nat (fetchedCount fetched k (List.length validResults)) <= m ->
    m < 2 ^ 53 ->
    snd (addFiles record (of_Z m) fetched k validResults (of_Z j) s)
    = s ++ List.map (fun i => Fin (zipProgressU (j + Z.of_nat i) m))
             (seq 1 (fetchedCount fetched k (List.length validResults))).
Proof.
  induction validResults as [|r rest IH]; intros k j s Hj Hm Hb.
  - cbn [addFiles List.length fetchedCount seq List.map snd].
    rewrite app_nil_r. reflexivity.
  - cbn [addFiles List.length fetchedCount] in *.
    destruct (fetched k).
    + rewrite fadd_exact by lia.
      destruct (zipProgress_value (j + 1) m ltac:(lia) Hb) as [E _].
      rewrite E, IH by lia.
      unfold record. rewrite <- app_assoc. f_equal.
      cbn [Nat.add seq List.map app].
      replace (j + Z.of_nat 1) with (j + 1) by lia. f_equal.
      rewrite <- (seq_shift _ 1), map_map. apply map_ext.
      intros i.
      replace (j + 1 + Z.of_nat i) with (j + Z.of_nat (S i)) by lia.
      reflexivity.
    + cbn [Nat.add] in *. apply IH; assumption.
Qed.

Lemma fold_record (f : num -> num) ups :
  forall s,
    fold_left (fun s percent => record (f percent) s) ups s
    = s ++ List.map f ups.
Proof.
  induction ups as [|u ups IH]; intros s; cbn [fold_left List.map].
  - rewrite app_nil_r. reflexivity.
  - rewrite IH. unfold record. rewrite <- app_assoc. reflexivity.
Qed.

(** The reports of one image, in units. *)
Lemma processImage_log img o formats resizeMode rd pct presetSize lock :
  Z.of_nat (List.length formats) < 2 ^ 53 ->
  exists zs,
    snd (processImageInBrowser record img o formats resizeMode rd pct
           presetSize lock [])
    = List.map Fin zs
    /\ StronglySorted Z.le zs
    /\ Forall (fun z => 5 * U <= z <= 100 * U) zs.
Proof.
  intros Hn. pose proof U_pos as HU.
  set (n := List.length formats) in *.
  destruct (heicSteps_log o (record (of_Z 5) [])) as (hz & Eh & Sh & Bh).
  set (fz := List.map (fun i => formatProgressU (Z.of_nat i) (Z.of_nat n))
               (seq 1 n)).
  assert (Bf : Forall (fun z => 60 * U <= z <= 100 * U) fz).
  { unfold fz. apply Forall_map, Forall_forall. intros i Hi.
    apply in_seq in Hi.
    apply (formatProgress_value (Z.of_nat i) (Z.of_nat n)); lia. }
  assert (Sf : StronglySorted Z.le fz).
  { unfold fz. apply sorted_map_seq. intros i j H1 H2 H3.
    apply formatProgressU_mono; lia. }
  exists ((5 * U :: hz ++ [40 * U; 50 * U; 60 * U]) ++ fz ++ [100 * U]).
  split; [|split].
  - unfold processImageInBrowser. fold n. unfold of_nat.
    rewrite processFormat_log by lia. fold n.
    rewrite Eh. unfold record. rewrite !of_Z_exact by lia.
    cbn [app List.map]. rewrite !map_app. cbn [List.map app].
    rewrite <- !app_assoc. cbn [app]. do 2 f_equal.
    do 4 f_equal. unfold fz. rewrite map_map. apply map_ext.
    intros i. reflexivity.
  - apply sorted_app.
    + constructor.
      * apply sorted_app; [exact Sh| |].
        -- repeat first [apply SSorted_cons|apply SSorted_nil
                        |apply Forall_cons|apply Forall_nil]; lia.
        -- intros x y Hx Hy. rewrite Forall_forall in Bh.
           specialize (Bh x Hx). cbn [In] in Hy.
           destruct Hy as [<-|[<-|[<-|[]]]]; lia.
      * apply Forall_app. split.
        -- revert Bh. apply Forall_impl. intros z; lia.
        -- repeat first [apply Forall_cons|apply Forall_nil]; lia.
    + apply sorted_app; [exact Sf| |].
      * repeat first [apply SSorted_cons|apply SSorted_nil
                     |apply Forall_cons|apply Forall_nil].
      * intros x y Hx Hy. rewrite Forall_forall in Bf.
        specialize (Bf x Hx). cbn [In] in Hy. destruct Hy as [<-|[]]. lia.
    + intros x y Hx Hy.
      assert (x <= 60 * U).
      { cbn [In] in Hx. destruct Hx as [<-|Hx]; [lia|].
        apply in_app_or in Hx. destruct Hx as [Hx|Hx].
        - rewrite Forall_forall in Bh. specialize (Bh x Hx). lia.
        - cbn [In] in Hx. destruct Hx as [<-|[<-|[<-|[]]]]; lia. }
      assert (60 * U <= y).
      { apply in_app_or in Hy. destruct Hy as [Hy|Hy].
        - rewrite Forall_forall in Bf. specialize (Bf y Hy). lia.
        - cbn [In] in Hy. destruct Hy as [<-|[]]. lia. }
      lia.
  - apply Forall_app. split; [|apply Forall_app; split].
    + constructor; [lia|]. apply Forall_app. split.
      * revert Bh. apply Forall_impl. intros z; lia.
      * repeat first [apply Forall_cons|apply Forall_nil]; lia.
    + revert Bf. apply Forall_impl. intros z; lia.
    + repeat first [apply Forall_cons|apply Forall_nil]; lia.
Qed.

(** The reports of the ZIP run while files are added, in units. *)
Lemma zipFilePhase_log results fetched :
  Z.of_nat (List.length results) < 2 ^ 53 ->
  exists zs,
    (forall zipUpdates,
       downloadAllAsZip record results true fetched zipUpdates []
       = List.map Fin (0 :: zs) ++ List.map jsRound zipUpdates)
    /\ StronglySorted Z.le (0 :: zs)
    /\ Forall (fun z => 0 <= z <= 100 * U) zs.
Proof.
  intros Hn. pose proof U_pos as HU.
  set (valid := filter (fun result => negb (ImageResult.isPlaceholder result))
                  results).
  assert (Hv : (List.length valid <= List.length results)%nat)
    by apply filter_length_le.
  set (m := List.length valid) in *.
  set (c := fetchedCount fetched 0 m).
  assert (Hc : (c <= m)%nat) by apply fetchedCount_le.
  set (zs := List.map (fun i => zipProgressU (Z.of_nat i) (Z.of_nat m))
               (seq 1 c)).
  assert (Bz : Forall (fun z => 0 <= z <= 100 * U) zs).
  { unfold zs. apply Forall_map, Forall_forall. intros i Hi.
    apply in_seq in Hi.
    apply (zipProgress_value (Z.of_nat i) (Z.of_nat m)); lia. }
  exists zs. split; [|split].
  - intros ups. unfold downloadAllAsZip. fold valid. fold m. unfold of_nat.
    pose proof (addFiles_log (Z.of_nat m) fetched valid 0%nat 0
                  (record (of_Z 0) []) ltac:(lia)) as A.
    fold m in A. fold c in A. specialize (A ltac:(lia) ltac:(lia)).
    destruct (addFiles record (of_Z (Z.of_nat m)) fetched 0 valid (of_Z 0)
                (record (of_Z 0) [])) as [pf s] eqn:Ea.
    cbn [snd] in A. subst s. rewrite fold_record. f_equal.
    unfold record. rewrite of_Z_0. cbn [app List.map]. f_equal.
    unfold zs. rewrite map_map. apply map_ext. intros i. reflexivity.
  - constructor.
    + unfold zs. apply sorted_map_seq. intros i j H1 H2 H3.
      apply zipProgressU_mono; lia.
    + revert Bz. apply Forall_impl. intros z; lia.
  - exact Bz.
Qed.

(** C3, as the code has it.  The percentages [processImageInBrowser] hands
    to its progress sink never decrease.  In the ZIP run the percentages
    reported while the files are added never decrease and stay at or below
    100; after them the run forwards, rounded and in the order received,
    the percentages of the archive writer, whatever they are. *)
Theorem progress_monotone_per_phase
  (img : Dimensions) (o : HeicOutcome) (formats : list FormatOption)
  (resizeMode : ResizeMode) (rd : ResizeDimensions) (pct : num)
  (presetSize : PresetSize) (lock : bool)
  (results : list ImageResult.t) (fetched : nat -> bool)
  (zipUpdates : list num) :
  Z.of_nat (List.length formats) < 2 ^ 32 ->
  Z.of_nat (List.length results) < 2 ^ 32 ->
  StronglySorted num_le
    (snd (processImageInBrowser record img o formats resizeMode rd pct
            presetSize lock []))
  /\ (exists filePhase,
        downloadAllAsZip record results true fetched zipUpdates []
        = (of_Z 0 :: filePhase) ++ List.map jsRound zipUpdates
        /\ StronglySorted num_le (of_Z 0 :: filePhase)
        /\ Forall (fun p => num_le p (of_Z 100)) filePhase)
  /\ downloadAllAsZip record results false fetched zipUpdates [] = [of_Z 0].
Proof.
  intros Hf Hr. pose proof U_pos as HU. split; [|split].
  - destruct (processImage_log img o formats resizeMode rd pct presetSize
                lock ltac:(lia)) as (zs & E & S & _).
    rewrite E. apply sorted_Fin, S.
  - destruct (zipFilePhase_log results fetched ltac:(lia)) as (zs & E & S & B).
    exists (List.map Fin zs). split; [|split].
    + rewrite E, of_Z_0. reflexivity.
    + rewrite of_Z_0. apply (sorted_Fin (0 :: zs)), S.
    + apply Forall_map. revert B. apply Forall_impl. intros z Hz.
      rewrite of_Z_exact by lia. apply num_le_Fin. lia.
  - reflexivity.
Qed.

Lemma progress_monotone_per_phase_witness :
  (Z.of_nat (List.length [jpeg; webp; png]) < 2 ^ 32
   /\ Z.of_nat (List.length (@nil ImageResult.t)) < 2 ^ 32)
  /\ StronglySorted num_le
       (snd (processImageInBrowser record (pixels 1000 400) NotHeic
               [jpeg; webp; png] none (pixels 800 600) (of_Z 50) medium true
               [])).
Proof.
  split; [split; vm_compute; reflexivity|].
  apply (proj1 (progress_monotone_per_phase (pixels 1000 400) NotHeic
                  [jpeg; webp; png] none (pixels 800 600) (of_Z 50) medium
                  true [] (fun _ => true) []
                  ltac:(vm_compute; reflexivity)
                  ltac:(vm_compute; reflexivity))).
Defined.

(** C3 as it is written fails for the ZIP run: with one file, the bar
    reaches 100 when the file is added and the archive writer then starts
    again from its own 0. *)
Lemma progress_monotone_counterexample :
  let result :=
    {| ImageResult.format := jpeg; ImageResult.width := of_Z 10;
       ImageResult.height := of_Z 10; ImageResult.isPlaceholder := false |} in
  downloadAllAsZip record [result] true (fun _ => true) [of_Z 0; of_Z 100] []
  = [of_Z 0; of_Z 100; of_Z 0; of_Z 100]
  /\ ~ StronglySorted num_le [of_Z 0; of_Z 100; of_Z 0; of_Z 100].
Proof.
  cbv zeta. split; [vm_compute; reflexivity|].
  intros S. apply StronglySorted_inv in S. destruct S as [S1 _].
  apply StronglySorted_inv in S1. destruct S1 as [_ F2].
  apply Forall_inv in F2. unfold num_le in F2.
  vm_compute in F2. discriminate F2.
Qed.

(** ** Grid input and file name *)

(** C2 fails on the code: the Rows and Columns fields keep whatever integer
    [parseInt] reads, and only replace 0 and unreadable text by 1; the
    layout uses the stored values as they are.  Typing 7 gives 7 rows,
    typing -3 gives -3 columns, and the page then holds -21 images. *)
Lemma custom_grid_not_clamped :
  customGridInput (lit "7") = of_Z 7
  /\ customGridInput (lit "-3") = of_Z (-3)
  /\ customGridInput (lit "0") = of_Z 1
  /\ customGridInput (lit "") = of_Z 1
  /\ layoutGrid {| pageSize := a4; orientation := portrait;
                   imageLayout := custom; margin := of_Z 10;
                   title := lit "My Photo Collection";
                   customRows := customGridInput (lit "7");
                   customCols := customGridInput (lit "-3");
                   pdfFilename := lit "photo-collection" |}
     = {| imagesPerPage := of_Z (-21); cols := of_Z (-3); rows := of_Z 7 |}.
Proof.
  split; [vm_compute; reflexivity|]. split; [vm_compute; reflexivity|].
  split; [vm_compute; reflexivity|]. split; [vm_compute; reflexivity|].
  vm_compute. reflexivity.
Qed.







(** ** The grid of the PDF *)

Lemma ceilDiv_spec n d :
  0 < d -> d * (ceilDiv n d - 1) < n <= d * ceilDiv n d.
Proof.
  intros Hd. unfold ceilDiv.
  pose proof (Z.div_mod (n + d - 1) d ltac:(lia)).
  pose proof (Z.mod_pos_bound (n + d - 1) d Hd). lia.
Qed.

Lemma ceilDiv_pred n d : 0 < d -> ceilDiv n d = (n - 1) / d + 1.
Proof.
  intros Hd. unfold ceilDiv.
  replace (n + d - 1) with (n - 1 + 1 * d) by ring.
  rewrite Z.div_add by lia. reflexivity.
Qed.

Lemma feq_of_Z_0 a : 0 <= a < 2 ^ 53 -> feq (of_Z a) (of_Z 0) = (a =? 0).
Proof.
  intros H. pose proof U_pos as HU. rewrite of_Z_0, of_Z_exact by lia.
  cbn [feq]. destruct (Z.eqb_spec a 0) as [->|n].
  - reflexivity.
  - apply Z.eqb_neq. intros E. apply Z.mul_eq_0 in E. lia.
Qed.

Lemma flt_0_of_Z a : 0 <= a < 2 ^ 53 -> flt (of_Z 0) (of_Z a) = (0 <? a).
Proof.
  intros H. pose proof U_pos as HU. rewrite of_Z_0, of_Z_exact by lia.
  unfold flt. cbn [fle feq].
  destruct (Z.ltb_spec 0 a) as [P|P].
  - assert (0 < a * U) by (apply Z.mul_pos_pos; lia).
    destruct (Z.leb_spec 0 (a * U)); [|lia].
    destruct (Z.eqb_spec 0 (a * U)); [lia|reflexivity].
  - assert (a = 0) by lia. subst a. reflexivity.
Qed.

Lemma grid_pageLayout st : grid (pageLayout st) = layoutGrid st.
Proof. unfold pageLayout. destruct (orientation st); reflexivity. Qed.

Lemma spacing_pageLayout st :
  verticalSpacing (pageLayout st)
  = fadd (margin st) (titleSpace (pageLayout st))
  /\ imageWidth (pageLayout st)
     = fdiv (availableWidth (pageLayout st)) (cols (layoutGrid st))
  /\ imageHeight (pageLayout st)
     = fdiv (availableHeight (pageLayout st)) (rows (layoutGrid st)).
Proof. unfold pageLayout. destruct (orientation st); repeat split. Qed.

Section Grid.

Context {Image : Type}.
Variable st : PdfSettings.
Variables r c : Z.
Hypothesis Hgrid :
  layoutGrid st
  = {| imagesPerPage := of_Z (r * c); cols := of_Z c; rows := of_Z r |}.
Hypothesis Hr : 1 <= r.
Hypothesis Hc : 1 <= c.

Let l := pageLayout st.

Lemma cell_positive : 1 <= r * c /\ c <= r * c.
Proof. split; nia. Qed.

(** The indices one iteration computes are the integer ones. *)
Lemma placement_indices (i : nat) (im : Image) :
  Z.of_nat i + r * c <= 2 ^ 52 ->
  let p := placement st l i im in
  itemIndex p = i /\ image p = im
  /\ pageIndex p = of_Z (Z.of_nat i / (r * c))
  /\ rowIndex p = of_Z (Z.of_nat i mod (r * c) / c)
  /\ colIndex p = of_Z ((Z.of_nat i mod (r * c)) mod c)
  /\ x p = fadd (margin st) (fmul (colIndex p) (imageWidth l))
  /\ y p = fadd (fadd (margin st) (titleSpace l))
             (fmul (rowIndex p) (imageHeight l)).
Proof.
  intros B p. destruct cell_positive as [P1 P2].
  pose proof (Z.mod_pos_bound (Z.of_nat i) (r * c) ltac:(lia)) as M.
  assert (M' : Z.of_nat i mod (r * c) <= Z.of_nat i)
    by (apply Z.mod_le; lia).
  destruct (spacing_pageLayout st) as (V & _ & _). fold l in V.
  assert (G : grid l = {| imagesPerPage := of_Z (r * c); cols := of_Z c;
                          rows := of_Z r |}).
  { unfold l. rewrite grid_pageLayout. exact Hgrid. }
  unfold p, placement.
  cbn [itemIndex image pageIndex rowIndex colIndex x y].
  rewrite G. cbn [imagesPerPage cols]. unfold of_nat.
  rewrite (jsFloor_fdiv (Z.of_nat i) (r * c)) by lia.
  rewrite (frem_int (Z.of_nat i) (r * c)) by lia.
  rewrite (jsFloor_fdiv (Z.of_nat i mod (r * c)) c) by lia.
  rewrite (frem_int (Z.of_nat i mod (r * c)) c) by lia.
  rewrite V. repeat split.
Qed.

(** A page is added before image [i] exactly when [i] starts a new group
    of [r * c] images and is not the first image. *)
Lemma placeImage_cases (i : nat) (im : Image) (pdf : PdfDoc) :
  Z.of_nat i + r * c <= 2 ^ 52 ->
  placeImage st l i im pdf
  = addImage (placement st l i im)
      (if (Z.of_nat i mod (r * c) =? 0) && (0 <? Z.of_nat i)
       then addPage pdf else pdf).
Proof.
  intros B. destruct cell_positive as [P1 P2].
  pose proof (Z.mod_pos_bound (Z.of_nat i) (r * c) ltac:(lia)) as M.
  assert (M' : Z.of_nat i mod (r * c) <= Z.of_nat i)
    by (apply Z.mod_le; lia).
  assert (G : grid l = {| imagesPerPage := of_Z (r * c); cols := of_Z c;
                          rows := of_Z r |}).
  { unfold l. rewrite grid_pageLayout. exact Hgrid. }
  unfold placeImage. rewrite G. cbn [imagesPerPage]. unfold of_nat.
  rewrite (frem_int (Z.of_nat i) (r * c)) by lia.
  rewrite feq_of_Z_0, flt_0_of_Z by lia. reflexivity.
Qed.

Lemma concat_pages_addImage (p : @Placement Image) d :
  List.concat (pages (addImage p d)) = List.concat (pages d) ++ [p].
Proof.
  unfold pages, addImage. cbn [finished current].
  rewrite !concat_app. cbn [List.concat]. rewrite !app_nil_r.
  apply app_assoc.
Qed.

Lemma concat_pages_addPage (d : @PdfDoc Image) :
  List.concat (pages (addPage d)) = List.concat (pages d).
Proof.
  unfold pages, addPage. cbn [finished current].
  rewrite !concat_app. cbn [List.concat]. rewrite !app_nil_r. reflexivity.
Qed.

(** The images are placed in the order of [arrangedImages], one entry
    each. *)
Lemma placeImages_concat (images : list Image) :
  forall i pdf,
    List.concat (pages (placeImages st l i images pdf))
    = List.concat (pages pdf)
      ++ List.map (fun p => placement st l (fst p) (snd p))
           (combine (seq i (List.length images)) images).
Proof.
  induction images as [|im rest IH]; intros i pdf.
  - cbn [placeImages List.length seq combine List.map].
    rewrite app_nil_r. reflexivity.
  - cbn [placeImages List.length seq combine List.map fst snd].
    rewrite IH. unfold placeImage.
    rewrite concat_pages_addImage.
    destruct (feq _ _ && flt _ _);
      rewrite ?concat_pages_addPage, <- app_assoc; reflexivity.
Qed.

Lemma div_step k P :
  0 < P -> 1 <= k ->
  (k mod P = 0 -> k / P = (k - 1) / P + 1)
  /\ (k mod P <> 0 -> k / P = (k - 1) / P).
Proof.
  intros HP Hk.
  pose proof (Z.div_mod k P ltac:(lia)) as E.
  pose proof (Z.mod_pos_bound k P HP) as B.
  split; intros M.
  - symmetry. rewrite M in E.
    assert (Q : (k - 1) / P = k / P - 1).
    { symmetry. apply Z.div_unique with (P - 1); lia. }
    lia.
  - apply Z.div_unique with (k mod P - 1); lia.
Qed.

Lemma placed_first (im : Image) :
  r * c <= 2 ^ 52 -> placed (r * c) 1 (placeImage st l 0 im newPdf).
Proof.
  intros B. destruct cell_positive as [P1 P2].
  rewrite placeImage_cases by (cbn; lia).
  cbn [Z.of_nat Z.ltb Z.compare andb]. rewrite andb_false_r.
  unfold placed, addImage, newPdf, pages. cbn [finished current app].
  split; [lia|]. split; [reflexivity|]. split; [discriminate|].
  split; [constructor|].
  intros p pg e Hp He.
  destruct p as [|p]; [|destruct p; discriminate Hp].
  cbn [nth_error] in Hp. injection Hp as <-.
  cbn [In] in He. destruct He as [<-|[]].
  destruct (placement_indices 0 im ltac:(cbn; lia)) as (_ & _ & E & _).
  rewrite E. reflexivity.
Qed.

Lemma placed_step (k : nat) (im : Image) d :
  Z.of_nat k + r * c <= 2 ^ 52 ->
  placed (r * c) k d -> placed (r * c) (S k) (placeImage st l k im d).
Proof.
  intros B (K1 & L & C & F & M). destruct cell_positive as [P1 P2].
  destruct (div_step (Z.of_nat k) (r * c) ltac:(lia) ltac:(lia)) as [D0 D1].
  destruct (placement_indices k im B) as (_ & _ & E & _).
  rewrite placeImage_cases by exact B.
  destruct (Z.ltb_spec 0 (Z.of_nat k)) as [_|]; [|lia].
  rewrite andb_true_r.
  destruct (Z.eqb_spec (Z.of_nat k mod (r * c)) 0) as [Z0|NZ].
  - (* a new page *)
    specialize (D0 Z0).
    unfold placed, addImage, addPage, pages in *. cbn [finished current app] in *.
    split; [lia|]. split.
    { rewrite length_app. cbn [List.length].
      replace (Z.of_nat (S k) - 1) with (Z.of_nat k) by lia. lia. }
    split; [discriminate|]. split.
    { apply Forall_app. split; [exact F|]. constructor; [exact C|constructor]. }
    intros p pg e Hp He.
    destruct (Nat.lt_ge_cases p (List.length (finished d ++ [current d])))
      as [Lt|Ge].
    + rewrite nth_error_app1 in Hp by exact Lt. exact (M p pg e Hp He).
    + rewrite nth_error_app2 in Hp by exact Ge.
      destruct (p - List.length (finished d ++ [current d]))%nat eqn:Q;
        [|destruct n; discriminate Hp].
      cbn [nth_error] in Hp. injection Hp as <-.
      cbn [In] in He. destruct He as [<-|[]].
      rewrite E. f_equal.
      rewrite length_app in *. cbn [List.length] in *. lia.
  - (* the same page *)
    specialize (D1 NZ).
    unfold placed, addImage, pages in *. cbn [finished current] in *.
    split; [lia|]. split.
    { replace (Z.of_nat (S k) - 1) with (Z.of_nat k) by lia. lia. }
    split; [destruct (current d); discriminate|]. split; [exact F|].
    intros p pg e Hp He.
    destruct (Nat.lt_ge_cases p (List.length (finished d))) as [Lt|Ge].
    + rewrite nth_error_app1 in Hp by exact Lt.
      apply (M p pg e); [|exact He].
      rewrite nth_error_app1 by exact Lt. exact Hp.
    + rewrite nth_error_app2 in Hp by exact Ge.
      destruct (p - List.length (finished d))%nat eqn:Q;
        [|destruct n; discriminate Hp].
      cbn [nth_error] in Hp. injection Hp as <-.
      apply in_app_or in He. destruct He as [He|He].
      * apply (M p (current d) e); [|exact He].
        rewrite nth_error_app2 by exact Ge. rewrite Q. reflexivity.
      * cbn [In] in He. destruct He as [<-|[]].
        rewrite E. f_equal. lia.
Qed.

Lemma placed_all (images : list Image) :
  forall k d,
    Z.of_nat (k + List.length images) + r * c <= 2 ^ 52 ->
    placed (r * c) k d ->
    placed (r * c) (k + List.length images) (placeImages st l k images d).
Proof.
  induction images as [|im rest IH]; intros k d B H.
  - cbn [placeImages List.length]. rewrite Nat.add_0_r. exact H.
  - cbn [placeImages List.length] in *.
    replace (k + S (List.length rest))%nat
      with (S k + List.length rest)%nat in * by lia.
    apply IH; [exact B|]. apply placed_step; [lia|exact H].
Qed.

End Grid.

Lemma nth_error_combine_seq {A} (l : list A) :
  forall a i x,
    nth_error l i = Some x ->
    nth_error (combine (seq a (List.length l)) l) i = Some ((a + i)%nat, x).
Proof.
  induction l as [|y l IH]; intros a i x H.
  - destruct i; discriminate H.
  - destruct i as [|i]; cbn [List.length seq combine nth_error] in *.
    + injection H as ->. rewrite Nat.add_0_r. reflexivity.
    + rewrite (IH (S a) i x H). do 2 f_equal. lia.
Qed.

(** C5. Every image [i] of [arrangedImages] gets one entry of the plan, at
    position [i], with page [floor(i / perPage)], row
    [floor((i mod perPage) / cols)], column [(i mod perPage) mod cols],
    [x = margin + col * boxWidth] and
    [y = margin + titleSpace + row * boxHeight], the box being the
    available area divided by the grid. *)
Theorem plan_entry_follows_grid
  {Image : Type} (st : PdfSettings) (r c : Z) (images : list Image)
  (i : nat) (im : Image) :
  layoutGrid st
  = {| imagesPerPage := of_Z (r * c); cols := of_Z c; rows := of_Z r |} ->
  1 <= r -> 1 <= c ->
  Z.of_nat (List.length images) + r * c <= 2 ^ 52 ->
  nth_error images i = Some im ->
  exists res e,
    generatePDF st images = Some res
    /\ nth_error (List.concat (pages (document res))) i = Some e
    /\ itemIndex e = i /\ image e = im
    /\ pageIndex e = of_Z (Z.of_nat i / (r * c))
    /\ rowIndex e = of_Z (Z.of_nat i mod (r * c) / c)
    /\ colIndex e = of_Z ((Z.of_nat i mod (r * c)) mod c)
    /\ x e = fadd (margin st) (fmul (colIndex e) (imageWidth (pageLayout st)))
    /\ y e = fadd (fadd (margin st) (titleSpace (pageLayout st)))
               (fmul (rowIndex e) (imageHeight (pageLayout st)))
    /\ imageWidth (pageLayout st)
       = fdiv (availableWidth (pageLayout st)) (of_Z c)
    /\ imageHeight (pageLayout st)
       = fdiv (availableHeight (pageLayout st)) (of_Z r).
Proof.
  intros Hg Hr Hc B Hi.
  assert (Li : (i < List.length images)%nat).
  { apply nth_error_Some. rewrite Hi. discriminate. }
  destruct images as [|im0 rest] eqn:Ei; [destruct i; discriminate Hi|].
  rewrite <- Ei in *.
  exists {| document := placeImages st (pageLayout st) 0 images newPdf;
            totalPages :=
              jsCeil (fdiv (of_nat (List.length images))
                        (imagesPerPage (grid (pageLayout st))));
            savedAs := saveName (pdfFilename st) |}.
  exists (placement st (pageLayout st) i im).
  split; [rewrite Ei; reflexivity|]. cbn [document].
  split.
  { rewrite (placeImages_concat st images 0 newPdf). cbn [pages newPdf
      finished current List.concat app].
    rewrite nth_error_map, (nth_error_combine_seq images 0 i im Hi).
    reflexivity. }
  destruct (placement_indices st r c Hg Hr Hc i im ltac:(lia))
    as (E1 & E2 & E3 & E4 & E5 & E6 & E7).
  destruct (spacing_pageLayout st) as (_ & W & H). rewrite Hg in W, H.
  cbn [cols rows] in W, H.
  repeat (split; [assumption|]). assumption.
Qed.

Lemma plan_entry_follows_grid_witness :
  let st := {| pageSize := a4; orientation := portrait;
               imageLayout := layout_4; margin := of_Z 10;
               title := lit "My Photo Collection";
               customRows := of_Z 2; customCols := of_Z 2;
               pdfFilename := lit "photo-collection" |} in
  (layoutGrid st
   = {| imagesPerPage := of_Z (2 * 2); cols := of_Z 2; rows := of_Z 2 |}
   /\ 1 <= 2 /\ 1 <= 2
   /\ Z.of_nat (List.length [10; 11; 12; 13; 14]%nat) + 2 * 2 <= 2 ^ 52
   /\ nth_error [10; 11; 12; 13; 14]%nat 4 = Some 14%nat)
  /\ exists res e,
       generatePDF st [10; 11; 12; 13; 14]%nat = Some res
       /\ nth_error (List.concat (pages (document res))) 4 = Some e
       /\ pageIndex e = of_Z 1 /\ rowIndex e = of_Z 0 /\ colIndex e = of_Z 0.
Proof.
  intros st.
  split.
  { split; [reflexivity|]. split; [lia|]. split; [lia|].
    split; [cbn; lia|reflexivity]. }
  destruct (plan_entry_follows_grid st 2 2 [10; 11; 12; 13; 14]%nat 4 14%nat
              eq_refl ltac:(lia) ltac:(lia) ltac:(cbn; lia) eq_refl)
    as (res & e & E & N & _ & _ & P & R & C & _).
  exists res, e. repeat (split; [assumption|]). assumption.
Defined.

(** C6. For a non-empty [arrangedImages] the document has
    [ceil(n / perPage)] pages, which is also what [totalPages] holds; no
    page is without an image, and every image is on the page its
    [pageIndex] names. *)
Theorem pages_follow_items
  {Image : Type} (st : PdfSettings) (r c : Z) (images : list Image) :
  layoutGrid st
  = {| imagesPerPage := of_Z (r * c); cols := of_Z c; rows := of_Z r |} ->
  1 <= r -> 1 <= c ->
  Z.of_nat (List.length images) + r * c <= 2 ^ 52 ->
  images <> [] ->
  exists res,
    generatePDF st images = Some res
    /\ Z.of_nat (List.length (pages (document res)))
       = ceilDiv (Z.of_nat (List.length images)) (r * c)
    /\ totalPages res = of_Z (ceilDiv (Z.of_nat (List.length images)) (r * c))
    /\ Forall (fun pg => pg <> []) (pages (document res))
    /\ forall p pg e,
         nth_error (pages (document res)) p = Some pg -> In e pg ->
         pageIndex e = of_Z (Z.of_nat p).
Proof.
  intros Hg Hr Hc B Hne.
  destruct images as [|im0 rest] eqn:Ei; [congruence|].
  assert (P1 : 1 <= r * c) by nia.
  pose proof (placed_first st r c Hg Hr Hc im0 ltac:(lia)) as H1.
  pose proof (placed_all st r c Hg Hr Hc rest 1%nat _
                ltac:(cbn [List.length] in B; lia) H1) as H.
  cbv zeta in H.
  exists {| document := placeImages st (pageLayout st) 0 (im0 :: rest) newPdf;
            totalPages :=
              jsCeil (fdiv (of_nat (List.length (im0 :: rest)))
                        (imagesPerPage (grid (pageLayout st))));
            savedAs := saveName (pdfFilename st) |}.
  split; [reflexivity|]. cbn [document totalPages placeImages].
  destruct H as (K & L & C & F & M).
  replace (1 + List.length rest)%nat with (List.length (im0 :: rest)) in *
    by reflexivity.
  set (n := List.length (im0 :: rest)) in *.
  rewrite ceilDiv_pred by lia.
  split; [|split; [|split]].
  - unfold pages. rewrite length_app. cbn [List.length]. lia.
  - rewrite grid_pageLayout, Hg. cbn [imagesPerPage]. unfold of_nat.
    apply jsCeil_fdiv; lia.
  - unfold pages. apply Forall_app. split; [exact F|].
    constructor; [exact C|constructor].
  - exact M.
Qed.

(** The scenario of the specification: five images, four to a page. *)
Lemma pages_follow_items_witness :
  let st := {| pageSize := a4; orientation := portrait;
               imageLayout := layout_4; margin := of_Z 10;
               title := lit "My Photo Collection";
               customRows := of_Z 2; customCols := of_Z 2;
               pdfFilename := lit "photo-collection" |} in
  (layoutGrid st
   = {| imagesPerPage := of_Z (2 * 2); cols := of_Z 2; rows := of_Z 2 |}
   /\ 1 <= 2 /\ 1 <= 2
   /\ Z.of_nat (List.length [10; 11; 12; 13; 14]%nat) + 2 * 2 <= 2 ^ 52
   /\ [10; 11; 12; 13; 14]%nat <> [])
  /\ exists res,
       generatePDF st [10; 11; 12; 13; 14]%nat = Some res
       /\ Z.of_nat (List.length (pages (document res))) = 2
       /\ totalPages res = of_Z 2
       /\ List.map (List.map (fun e => (image e, rowIndex e, colIndex e)))
            (pages (document res))
          = [[(10%nat, of_Z 0, of_Z 0); (11%nat, of_Z 0, of_Z 1);
              (12%nat, of_Z 1, of_Z 0); (13%nat, of_Z 1, of_Z 1)];
             [(14%nat, of_Z 0, of_Z 0)]].
Proof.
  intros st.
  split.
  { split; [reflexivity|]. split; [lia|]. split; [lia|].
    split; [cbn; lia|discriminate]. }
  destruct (pages_follow_items st 2 2 [10; 11; 12; 13; 14]%nat
              eq_refl ltac:(lia) ltac:(lia) ltac:(cbn; lia)
              ltac:(discriminate))
    as (res & E & L & T & _).
  exists res. split; [exact E|]. split; [exact L|]. split; [exact T|].
  cbn [generatePDF] in E. injection E as <-. cbn [document].
  vm_compute. reflexivity.
Defined.

(* ================================================================= *)
(** * Further properties of the code *)

(** ** Preview and conversion *)

(** X1. For an image whose width and height are known and not zero, the
    size the preview computes is the size the conversion computes,
    whatever the resize settings are. *)
Theorem preview_shows_conversion
  (w h : num) (resizeMode : ResizeMode) (rd : ResizeDimensions) (pct : num)
  (presetSize : PresetSize) (lock : bool) :
  truthy w = true -> truthy h = true ->
  calculateTargetDimensions {| fileWidth := Some w; fileHeight := Some h |}
    resizeMode rd pct presetSize lock PRESET_SIZES
  = Some (targetDimensions {| width := w; height := h |} resizeMode rd pct
            presetSize lock).
Proof. apply calculateTargetDimensions_agrees. Qed.

Lemma preview_shows_conversion_witness :
  (truthy (of_Z 6) = true /\ truthy (of_Z 13) = true)
  /\ calculateTargetDimensions (previewOf 6 13) dimensions (pixels 27 0)
       (of_Z 50) medium true PRESET_SIZES
     = Some (targetDimensions (pixels 6 13) dimensions (pixels 27 0) (of_Z 50)
               medium true).
Proof.
  split; [split; vm_compute; reflexivity|].
  apply (preview_shows_conversion (of_Z 6) (of_Z 13) dimensions (pixels 27 0)
           (of_Z 50) medium true);
    vm_compute; reflexivity.
Defined.

(** X2. The preview has no size to show exactly when the width or the
    height of the image is missing, 0 or NaN. *)
Theorem preview_null_iff_size_unknown
  (imageFile : PreviewImage) (resizeMode : ResizeMode)
  (rd : ResizeDimensions) (pct : num) (presetSize : PresetSize)
  (lock : bool) (presetSizes : PresetSize -> Dimensions) :
  calculateTargetDimensions imageFile resizeMode rd pct presetSize lock
    presetSizes = None
  <-> truthyOpt (fileWidth imageFile) && truthyOpt (fileHeight imageFile)
      = false.
Proof.
  unfold calculateTargetDimensions.
  destruct imageFile as [[w|] [h|]]; cbn [fileWidth fileHeight truthyOpt];
    try (rewrite ?andb_false_r; split; reflexivity).
  destruct (truthy w), (truthy h); cbn [negb orb andb];
    try (split; reflexivity).
  split; [|discriminate].
  destruct resizeMode; try discriminate;
    destruct lock; try discriminate;
    destruct (truthy (width rd)), (truthy (height rd)); discriminate.
Qed.

Lemma nearest_le n s :
  0 <= n -> 0 < s <= 100 -> nearest (n * s) 100 <= n.
Proof.
  intros Hn Hs. unfold nearest.
  assert (n * s <= n * 100) by (apply Z.mul_le_mono_nonneg_l; lia).
  assert ((2 * (n * s) + 100) / (2 * 100) < n + 1); [|lia].
  apply Z.div_lt_upper_bound; lia.
Qed.

Lemma nearest_100 n : nearest (n * 100) 100 = n.
Proof.
  unfold nearest. symmetry.
  apply Z.div_unique with 100; lia.
Qed.

(** X3. Scaling by a whole percentage up to 100 never enlarges a side, and
    at 100 percent the result is the source itself. *)
Theorem percentage_never_enlarges
  (w h scale : Z) (rd : ResizeDimensions) (presetSize : PresetSize)
  (lock : bool) :
  0 < w -> 0 < h -> 0 < scale <= 100 ->
  w * 100 + 100 <= 2 ^ 51 -> h * 100 + 100 <= 2 ^ 51 ->
  exists a b,
    targetDimensions (pixels w h) percentage rd (of_Z scale) presetSize lock
    = pixels a b
    /\ 0 <= a <= w /\ 0 <= b <= h
    /\ (scale = 100 -> a = w /\ b = h).
Proof.
  intros Hw Hh Hs Bw Bh.
  assert (w * scale <= w * 100) by (apply Z.mul_le_mono_nonneg_l; lia).
  assert (h * scale <= h * 100) by (apply Z.mul_le_mono_nonneg_l; lia).
  assert (0 < w * scale) by (apply Z.mul_pos_pos; lia).
  assert (0 < h * scale) by (apply Z.mul_pos_pos; lia).
  destruct (percentage_axes w h scale rd presetSize lock) as [E _]; try lia.
  exists (nearest (w * scale) 100), (nearest (h * scale) 100).
  split; [exact E|].
  pose proof (nearest_nonneg (w * scale) 100 ltac:(lia) ltac:(lia)).
  pose proof (nearest_nonneg (h * scale) 100 ltac:(lia) ltac:(lia)).
  pose proof (nearest_le w scale ltac:(lia) Hs).
  pose proof (nearest_le h scale ltac:(lia) Hs).
  split; [lia|]. split; [lia|].
  intros ->. rewrite !nearest_100. split; reflexivity.
Qed.

Lemma percentage_never_enlarges_witness :
  (0 < 1000 /\ 0 < 400 /\ 0 < 100 <= 100
   /\ 1000 * 100 + 100 <= 2 ^ 51 /\ 400 * 100 + 100 <= 2 ^ 51)
  /\ exists a b,
       targetDimensions (pixels 1000 400) percentage (pixels 800 600)
         (of_Z 100) medium true = pixels a b
       /\ a = 1000 /\ b = 400.
Proof.
  split; [lia|].
  destruct (percentage_never_enlarges 1000 400 100 (pixels 800 600) medium
              true ltac:(lia) ltac:(lia) ltac:(lia) ltac:(lia) ltac:(lia))
    as (a & b & E & _ & _ & I).
  exists a, b. split; [exact E|]. apply I. reflexivity.
Defined.

(** X4. A preset with the aspect lock fits the source inside the preset
    size and meets it on one side at least, so a smaller source is
    enlarged. *)
Theorem locked_preset_fits_inside
  (w h : Z) (rd : ResizeDimensions) (pct : num) (presetSize : PresetSize) :
  0 < w < 2 ^ 53 -> 0 < h < 2 ^ 53 ->
  exists PW PH a b,
    PRESET_SIZES presetSize = pixels PW PH
    /\ targetDimensions (pixels w h) preset rd pct presetSize true
       = pixels a b
    /\ 0 <= a <= PW /\ 0 <= b <= PH /\ (a = PW \/ b = PH).
Proof.
  intros Hw Hh.
  destruct (PRESET_SIZES_pixels presetSize) as (PW & PH & EP & BW & BH).
  destruct (fit_inside_branch w h PW PH) as (a & b & Ea & Eb & R); try lia.
  exists PW, PH, a, b. split; [exact EP|]. split; [|exact R].
  unfold targetDimensions. rewrite EP. unfold pixels.
  cbn [width height]. cbv zeta in Ea, Eb. rewrite Ea, Eb. reflexivity.
Qed.

Lemma locked_preset_fits_inside_witness :
  (0 < 100 < 2 ^ 53 /\ 0 < 50 < 2 ^ 53)
  /\ exists PW PH a b,
       PRESET_SIZES medium = pixels PW PH
       /\ targetDimensions (pixels 100 50) preset (pixels 800 600) (of_Z 50)
            medium true = pixels a b
       /\ (a = PW \/ b = PH).
Proof.
  split; [lia|].
  destruct (locked_preset_fits_inside 100 50 (pixels 800 600) (of_Z 50) medium
              ltac:(lia) ltac:(lia))
    as (PW & PH & a & b & EP & E & _ & _ & R).
  exists PW, PH, a, b. split; [exact EP|]. split; [exact E|exact R].
Defined.

Lemma selectedSize_known imageFiles idx f w h :
  nth_error imageFiles idx = Some f ->
  ImageFile.width f = Some (of_Z w) -> ImageFile.height f = Some (of_Z h) ->
  0 < w < 2 ^ 53 -> 0 < h < 2 ^ 53 ->
  selectedSize true imageFiles idx = Some (of_Z w, of_Z h).
Proof.
  intros Hn Hw Hh Bw Bh. unfold selectedSize.
  destruct imageFiles as [|f0 rest]; [destruct idx; discriminate Hn|].
  cbn [List.length Nat.eqb negb andb].
  rewrite Hn, Hw, Hh, !truthy_of_Z by lia. reflexivity.
Qed.

(** X5. With the aspect lock on and the size of the selected image known,
    typing a width [W] with [h * W] and [w * W] up to [2^50] stores [W] and,
    as height, an integer nearest to [h * W / w].  Converting that image
    with the stored pair never exceeds either stored side and meets one of
    them. *)
Theorem typed_width_bounds_conversion
  (text : jsstring) (imageFiles : list ImageFile.t) (idx : nat)
  (f : ImageFile.t) (prev : ResizeDimensions) (w h W : Z) (pct : num)
  (presetSize : PresetSize) :
  nth_error imageFiles idx = Some f ->
  ImageFile.width f = Some (of_Z w) -> ImageFile.height f = Some (of_Z h) ->
  parsedDimension text = of_Z W ->
  0 < w -> 0 < h -> 0 < W -> h * W <= 2 ^ 50 -> w * W <= 2 ^ 50 ->
  exists k a b,
    handleWidthChange text true imageFiles idx prev = pixels W k
    /\ 2 * Z.abs (k * w - h * W) <= w
    /\ targetDimensions (pixels w h) dimensions (pixels W k) pct presetSize
         true = pixels a b
    /\ 0 <= a <= W /\ 0 <= b <= k /\ (a = W \/ b = k).
Proof.
  intros Hn Hfw Hfh Hp Hw Hh HW B1 B2.
  assert (Hw' : w < 2 ^ 53) by nia. assert (Hh' : h < 2 ^ 53) by nia.
  assert (HW' : W < 2 ^ 53) by nia.
  destruct (jsRound_product h w W) as (k & Ek & K0 & Kn); try lia.
  assert (Kb : k <= 2 ^ 50).
  { assert (h * W <= h * W * w).
    { rewrite <- (Z.mul_1_r (h * W)) at 1.
      apply Z.mul_le_mono_nonneg_l; [apply Z.mul_nonneg_nonneg|]; lia. }
    assert (2 * (k * w) <= 2 * (h * W) + w) by lia.
    assert (k * w <= (2 ^ 50 + 1) * w - 1); [nia|].
    destruct (Z_le_gt_dec k (2 ^ 50)) as [ok|bad]; [exact ok|].
    assert ((2 ^ 50 + 1) * w <= k * w)
      by (apply Z.mul_le_mono_nonneg_r; lia).
    lia. }
  exists k.
  assert (E : handleWidthChange text true imageFiles idx prev = pixels W k).
  { unfold handleWidthChange.
    rewrite (selectedSize_known imageFiles idx f w h) by (assumption || lia).
    rewrite Hp, fmul_fdiv, Ek by lia. reflexivity. }
  destruct (Z.eq_dec k 0) as [->|nk].
  - exists W, 0. split; [exact E|]. split; [exact Kn|].
    rewrite dimensions_width_only, fmul_fdiv, Ek by lia.
    split; [reflexivity|]. lia.
  - destruct (fit_inside_branch w h W k) as (a & b & Ea & Eb & R); try lia.
    exists a, b. split; [exact E|]. split; [exact Kn|].
    rewrite dimensions_both by lia. cbv zeta in Ea, Eb |- *.
    rewrite Ea, Eb. split; [reflexivity|exact R].
Qed.

Lemma typed_width_bounds_conversion_witness :
  let f := {| ImageFile.id := lit "k3x9a1c"; ImageFile.isHeic := false;
              ImageFile.width := Some (of_Z 1000);
              ImageFile.height := Some (of_Z 10) |} in
  (nth_error [f] 0 = Some f
   /\ ImageFile.width f = Some (of_Z 1000)
   /\ ImageFile.height f = Some (of_Z 10)
   /\ parsedDimension (lit "149") = of_Z 149
   /\ 0 < 1000 /\ 0 < 10 /\ 0 < 149
   /\ 10 * 149 <= 2 ^ 50 /\ 1000 * 149 <= 2 ^ 50)
  /\ exists k a b,
       handleWidthChange (lit "149") true [f] 0 (pixels 800 600) = pixels 149 k
       /\ targetDimensions (pixels 1000 10) dimensions (pixels 149 k)
            (of_Z 50) medium true = pixels a b
       /\ 0 <= a <= 149 /\ 0 <= b <= k.
Proof.
  intros f. split.
  { split; [reflexivity|]. split; [reflexivity|]. split; [reflexivity|].
    split; [vm_compute; reflexivity|]. lia. }
  destruct (typed_width_bounds_conversion (lit "149") [f] 0 f (pixels 800 600)
              1000 10 149 (of_Z 50) medium eq_refl eq_refl eq_refl
              ltac:(vm_compute; reflexivity)
              ltac:(lia) ltac:(lia) ltac:(lia) ltac:(lia) ltac:(lia))
    as (k & a & b & E & _ & C & A & B & _).
  exists k, a, b. split; [exact E|]. split; [exact C|]. split; assumption.
Defined.

(** The stored pair can be larger than what the conversion returns: for an
    image of 1000 by 10 pixels a typed width of 149 gives the fields 149 by
    1, and the conversion returns 100 by 1. *)
Example typed_width_can_shrink :
  let f := {| ImageFile.id := lit "k3x9a1c"; ImageFile.isHeic := false;
              ImageFile.width := Some (of_Z 1000);
              ImageFile.height := Some (of_Z 10) |} in
  handleWidthChange (lit "149") true [f] 0 (pixels 800 600) = pixels 149 1
  /\ targetDimensions (pixels 1000 10) dimensions (pixels 149 1) (of_Z 50)
       medium true = pixels 100 1.
Proof. cbv zeta. split; vm_compute; reflexivity. Qed.

(** Beyond that bound the stored height need not be a nearest integer:
    for an image of 3 by 1 pixels a typed width of [2^60] stores a height 21
    below it. *)
Example typed_width_beyond_bound :
  let f := {| ImageFile.id := lit "k3x9a1c"; ImageFile.isHeic := false;
              ImageFile.width := Some (of_Z 3);
              ImageFile.height := Some (of_Z 1) |} in
  handleWidthChange (lit "1152921504606846976") true [f] 0 (pixels 800 600)
  = pixels (2 ^ 60) 384307168202282304
  /\ nearest (1 * 2 ^ 60) 3 = 384307168202282304 + 21.
Proof. cbv zeta. split; vm_compute; reflexivity. Qed.

(** ** Results and progress *)

Lemma processFormat_results {sigma} (onProgress : num -> sigma -> sigma)
  target total rest :
  forall results c s,
    fst (processFormat onProgress target total rest results c s)
    = results
      ++ List.map
           (fun f => {| ImageResult.format := f;
                        ImageResult.width := width target;
                        ImageResult.height := height target;
                        ImageResult.isPlaceholder := FormatOption_eqb f heic |})
           rest.
Proof.
  induction rest as [|f rest IH]; intros results c s.
  - cbn [processFormat fst List.map]. rewrite app_nil_r. reflexivity.
  - cbn [processFormat List.map]. rewrite IH, <- app_assoc. cbn [app].
    destruct f; reflexivity.
Qed.

(** X6. Whatever the sink does, one image yields one result per requested
    format, in the order of the formats, each with the target size; the
    HEIC ones, and only they, are placeholders. *)
Theorem one_result_per_format
  {sigma : Type} (onProgress : num -> sigma -> sigma)
  (img : Dimensions) (o : HeicOutcome) (formats : list FormatOption)
  (resizeMode : ResizeMode) (rd : ResizeDimensions) (pct : num)
  (presetSize : PresetSize) (lock : bool) (s : sigma) :
  fst (processImageInBrowser onProgress img o formats resizeMode rd pct
         presetSize lock s)
  = List.map
      (fun f =>
         let target :=
           targetDimensions img resizeMode rd pct presetSize lock in
         {| ImageResult.format := f;
            ImageResult.width := width target;
            ImageResult.height := height target;
            ImageResult.isPlaceholder := FormatOption_eqb f heic |})
      formats.
Proof.
  unfold processImageInBrowser. rewrite processFormat_results. reflexivity.
Qed.

Lemma quotient_one m : 0 < m < 2 ^ 53 -> quotientU m m = U.
Proof.
  intros Hm. pose proof U_pos as HU. unfold quotientU.
  assert (D : 0 < m * U) by (apply Z.mul_pos_pos; lia).
  assert (N : 0 <= m * U * U) by (apply Z.mul_nonneg_nonneg; lia).
  assert (R : repr U) by (rewrite <- (Z.mul_1_l U); apply repr_int; lia).
  assert (E : m * U * U = U * (m * U)) by ring.
  apply Z.le_antisymm.
  - apply fl_pos_le; try assumption. lia.
  - apply fl_pos_ge; try assumption; lia.
Qed.

Lemma product_all m k :
  0 < m < 2 ^ 53 -> 0 < k < 2 ^ 53 -> productU m m k = k * U.
Proof.
  intros Hm Hk. pose proof U_pos as HU. unfold productU.
  rewrite quotient_one by exact Hm.
  assert (KU : 0 <= k * U) by (apply Z.mul_nonneg_nonneg; lia).
  assert (N : 0 <= U * (k * U)) by (apply Z.mul_nonneg_nonneg; lia).
  assert (R : repr (k * U)) by (apply repr_int; lia).
  assert (E : U * (k * U) = k * U * U) by ring.
  apply Z.le_antisymm.
  - apply fl_pos_le; try assumption. lia.
  - apply fl_pos_ge; try assumption; lia.
Qed.

Lemma formatProgressU_all m : 0 < m < 2 ^ 53 -> formatProgressU m m = 100 * U.
Proof.
  intros Hm. pose proof U_pos as HU. unfold formatProgressU.
  rewrite product_all by lia.
  replace (60 * U + 40 * U) with (100 * U) by ring.
  assert (R : repr (100 * U)) by (apply repr_int; lia).
  assert (E : fl_pos (100 * U) 1 = 100 * U).
  { apply Z.le_antisymm.
    - apply fl_pos_le; try assumption; lia.
    - apply fl_pos_ge; try assumption; lia. }
  rewrite E, Z.div_mul by lia. reflexivity.
Qed.

Lemma zipProgressU_all m : 0 < m < 2 ^ 53 -> zipProgressU m m = 100 * U.
Proof.
  intros Hm. pose proof U_pos as HU. unfold zipProgressU.
  rewrite product_all by lia.
  assert (E : (2 * (100 * U) + U) / (2 * U) = 100)
    by (symmetry; apply Z.div_unique with U; lia).
  rewrite E. reflexivity.
Qed.

Lemma last_map_seq {A} (g : nat -> A) (d : A) n :
  (0 < n)%nat -> last (List.map g (seq 1 n)) d = g n.
Proof.
  intros Hn. destruct n as [|n]; [lia|].
  rewrite seq_S, map_app. cbn [List.map]. rewrite last_last. reflexivity.
Qed.

(** X7. The reports of one image start at 5, stay between 5 and 40 while a
    HEIC source is decoded, pass 40, 50 and 60, then give one value between
    60 and 100 for each format, the last of them 100, and end with 100. *)
Theorem image_progress_profile
  (img : Dimensions) (o : HeicOutcome) (formats : list FormatOption)
  (resizeMode : ResizeMode) (rd : ResizeDimensions) (pct : num)
  (presetSize : PresetSize) (lock : bool) :
  Z.of_nat (List.length formats) < 2 ^ 32 ->
  exists heicPart formatPart,
    snd (processImageInBrowser record img o formats resizeMode rd pct
           presetSize lock [])
    = of_Z 5 :: heicPart ++ [of_Z 40; of_Z 50; of_Z 60]
      ++ formatPart ++ [of_Z 100]
    /\ Forall (fun p => num_le (of_Z 5) p /\ num_le p (of_Z 40)) heicPart
    /\ List.length formatPart = List.length formats
    /\ Forall (fun p => num_le (of_Z 60) p /\ num_le p (of_Z 100)) formatPart
    /\ (formats <> [] -> last formatPart NaN = of_Z 100).
Proof.
  intros Hn. pose proof U_pos as HU.
  set (n := List.length formats) in *.
  destruct (heicSteps_log o (record (of_Z 5) [])) as (zs & E & _ & F).
  exists (List.map Fin zs).
  exists (List.map (fun i => Fin (formatProgressU (0 + Z.of_nat i)
                                   (Z.of_nat n))) (seq 1 n)).
  split; [|split; [|split; [|split]]].
  - unfold processImageInBrowser. fold n. unfold of_nat.
    rewrite processFormat_log by lia. fold n.
    rewrite E. unfold record. rewrite <- !app_assoc. reflexivity.
  - apply Forall_map. revert F. apply Forall_impl. intros z Hz.
    rewrite !of_Z_exact by lia. split; apply num_le_Fin; lia.
  - rewrite length_map, length_seq. reflexivity.
  - apply Forall_map, Forall_forall. intros i Hi. apply in_seq in Hi.
    destruct (formatProgress_value (0 + Z.of_nat i) (Z.of_nat n)
                ltac:(lia) ltac:(lia)) as [_ B].
    rewrite !of_Z_exact by lia. split; apply num_le_Fin; lia.
  - intros Hne. assert (0 < n)%nat.
    { unfold n. destruct formats; [congruence|cbn; lia]. }
    rewrite last_map_seq by assumption.
    rewrite of_Z_exact by lia. f_equal.
    apply formatProgressU_all. lia.
Qed.

Lemma image_progress_profile_witness :
  Z.of_nat (List.length [jpeg; webp]) < 2 ^ 32
  /\ exists heicPart formatPart,
       snd (processImageInBrowser record (pixels 1000 400) HeicConverted
              [jpeg; webp] none (pixels 800 600) (of_Z 50) medium true [])
       = of_Z 5 :: heicPart ++ [of_Z 40; of_Z 50; of_Z 60]
         ++ formatPart ++ [of_Z 100]
       /\ List.length formatPart = 2%nat.
Proof.
  split; [vm_compute; reflexivity|].
  destruct (image_progress_profile (pixels 1000 400) HeicConverted
              [jpeg; webp] none (pixels 800 600) (of_Z 50) medium true
              ltac:(vm_compute; reflexivity))
    as (hp & fp & E & _ & L & _).
  exists hp, fp. split; [exact E|exact L].
Defined.

Lemma fetchedCount_all fetched n :
  (forall k, fetched k = true) -> forall k, fetchedCount fetched k n = n.
Proof.
  intros Hf. induction n as [|n IH]; intros k; cbn [fetchedCount];
    [reflexivity|].
  rewrite Hf, IH. reflexivity.
Qed.

(** X8. While the files are added the ZIP run reports once for each file
    that could be fetched, placeholders not counted; when every file is
    fetched the last of these reports is 100. *)
Theorem zip_reports_per_fetched_file
  (results : list ImageResult.t) (fetched : nat -> bool)
  (zipUpdates : list num) :
  Z.of_nat (List.length results) < 2 ^ 32 ->
  let valid :=
    filter (fun r => negb (ImageResult.isPlaceholder r)) results in
  exists filePhase,
    downloadAllAsZip record results true fetched zipUpdates []
    = (of_Z 0 :: filePhase) ++ List.map jsRound zipUpdates
    /\ List.length filePhase = fetchedCount fetched 0 (List.length valid)
    /\ ((forall k, fetched k = true) -> valid <> [] ->
        List.length filePhase = List.length valid
        /\ last filePhase NaN = of_Z 100).
Proof.
  intros Hn valid. pose proof U_pos as HU.
  assert (Hv : (List.length valid <= List.length results)%nat)
    by apply filter_length_le.
  set (m := List.length valid) in *.
  set (c := fetchedCount fetched 0 m).
  assert (Hc : (c <= m)%nat) by apply fetchedCount_le.
  exists (List.map (fun i => Fin (zipProgressU (0 + Z.of_nat i) (Z.of_nat m)))
            (seq 1 c)).
  split; [|split].
  - unfold downloadAllAsZip. fold valid. fold m. unfold of_nat.
    pose proof (addFiles_log (Z.of_nat m) fetched valid 0%nat 0
                  (record (of_Z 0) []) ltac:(lia)) as A.
    fold m in A. fold c in A. specialize (A ltac:(lia) ltac:(lia)).
    destruct (addFiles record (of_Z (Z.of_nat m)) fetched 0 valid (of_Z 0)
                (record (of_Z 0) [])) as [pf s] eqn:Ea.
    cbn [snd] in A. subst s. rewrite fold_record. reflexivity.
  - rewrite length_map, length_seq. reflexivity.
  - intros Hf Hne. assert (0 < m)%nat.
    { unfold m. destruct valid; [congruence|cbn; lia]. }
    assert (Ec : c = m) by (apply fetchedCount_all; exact Hf).
    rewrite Ec, length_map, length_seq. split; [reflexivity|].
    rewrite last_map_seq by assumption.
    rewrite of_Z_exact by lia. f_equal.
    apply zipProgressU_all. lia.
Qed.

Lemma zip_reports_per_fetched_file_witness :
  let r := {| ImageResult.format := jpeg; ImageResult.width := of_Z 10;
              ImageResult.height := of_Z 10;
              ImageResult.isPlaceholder := false |} in
  let p := {| ImageResult.format := heic; ImageResult.width := of_Z 10;
              ImageResult.height := of_Z 10;
              ImageResult.isPlaceholder := true |} in
  Z.of_nat (List.length [r; p; r]) < 2 ^ 32
  /\ exists filePhase,
       downloadAllAsZip record [r; p; r] true (fun _ => true) [] []
       = (of_Z 0 :: filePhase) ++ []
       /\ List.length filePhase = 2%nat.
Proof.
  intros r p. split; [vm_compute; reflexivity|].
  destruct (zip_reports_per_fetched_file [r; p; r] (fun _ => true) []
              ltac:(vm_compute; reflexivity))
    as (fp & E & L & _).
  exists fp. split; [exact E|exact L].
Defined.

Lemma sorted_map_filter {A B} (R : B -> B -> Prop) (g : A -> B)
  (p : A -> bool) l :
  StronglySorted R (List.map g l) ->
  StronglySorted R (List.map g (filter p l)).
Proof.
  induction l as [|a l IH]; cbn [List.map filter]; intros S; [constructor|].
  apply StronglySorted_inv in S. destruct S as [S F].
  destruct (p a); cbn [List.map]; [|exact (IH S)].
  constructor; [exact (IH S)|].
  rewrite Forall_map in *. rewrite Forall_forall in *.
  intros x Hx. apply filter_In in Hx. apply F, Hx.
Qed.

Lemma reportImages_log n added :
  0 < n < 2 ^ 53 ->
  forall remaining i s,
    Z.of_nat i + Z.of_nat remaining <= n ->
    reportImages record (of_Z n) added i remaining s
    = s ++ List.map (fun j => Fin (zipProgressU (Z.of_nat j + 1) n))
             (filter added (seq i remaining)).
Proof.
  intros Hn. induction remaining as [|r IH]; intros i s Hi;
    cbn [reportImages seq filter].
  - cbn [List.map]. rewrite app_nil_r. reflexivity.
  - rewrite IH by lia. destruct (added i); [|reflexivity].
    unfold of_nat. rewrite fadd_exact by lia.
    destruct (zipProgress_value (Z.of_nat i + 1) n ltac:(lia) ltac:(lia))
      as [E _].
    rewrite E. unfold record. cbn [List.map].
    rewrite <- app_assoc. reflexivity.
Qed.

(** X9. While a PDF is generated the progress starts at 0, never goes down
    and never exceeds 100, whichever images fail to be added; it ends at 100
    when the last image is added. *)
Theorem pdf_progress_profile (n : nat) (added : nat -> bool) :
  (0 < n)%nat -> Z.of_nat n < 2 ^ 32 ->
  exists rest,
    generatePDFProgress record n added [] = of_Z 0 :: rest
    /\ StronglySorted num_le (of_Z 0 :: rest)
    /\ Forall (fun p => num_le p (of_Z 100)) rest
    /\ List.length rest = List.length (filter added (seq 0 n))
    /\ (added (Nat.pred n) = true -> last rest NaN = of_Z 100).
Proof.
  intros H0 Hn. pose proof U_pos as HU.
  set (g := fun j => zipProgressU (Z.of_nat j + 1) (Z.of_nat n)).
  assert (B : forall j, (j < n)%nat -> 0 <= g j <= 100 * U).
  { intros j Hj. unfold g.
    apply (zipProgress_value (Z.of_nat j + 1) (Z.of_nat n)); lia. }
  exists (List.map Fin (List.map g (filter added (seq 0 n)))).
  assert (E : generatePDFProgress record n added []
              = of_Z 0 :: List.map Fin (List.map g (filter added (seq 0 n)))).
  { unfold generatePDFProgress. destruct n as [|n']; [lia|].
    unfold of_nat. rewrite reportImages_log by lia.
    rewrite map_map. reflexivity. }
  split; [exact E|]. split; [|split; [|split]].
  - rewrite of_Z_exact by lia.
    change (StronglySorted num_le
              (List.map Fin (0 * U :: List.map g (filter added (seq 0 n))))).
    apply sorted_Fin. constructor.
    + apply sorted_map_filter, sorted_map_seq. intros i j H1 H2 H3.
      unfold g. apply zipProgressU_mono; lia.
    + apply Forall_map, Forall_forall. intros j Hj.
      apply filter_In in Hj. destruct Hj as [Hj _]. apply in_seq in Hj.
      specialize (B j ltac:(lia)). lia.
  - rewrite map_map. apply Forall_map, Forall_forall. intros j Hj.
    apply filter_In in Hj. destruct Hj as [Hj _]. apply in_seq in Hj.
    rewrite of_Z_exact by lia. apply num_le_Fin.
    specialize (B j ltac:(lia)). lia.
  - rewrite !length_map. reflexivity.
  - intros Ha. destruct n as [|n']; [lia|]. cbn [Nat.pred] in Ha.
    rewrite seq_S, filter_app. cbn [filter Nat.add]. rewrite Ha.
    rewrite !map_app. cbn [List.map]. rewrite last_last.
    rewrite of_Z_exact by lia. f_equal. unfold g.
    replace (Z.of_nat n' + 1) with (Z.of_nat (S n')) by lia.
    apply zipProgressU_all. lia.
Qed.

Lemma pdf_progress_profile_witness :
  (0 < 3)%nat /\ Z.of_nat 3 < 2 ^ 32
  /\ exists rest,
       generatePDFProgress record 3 (fun i => negb (Nat.eqb i 1)) []
       = of_Z 0 :: rest
       /\ last rest NaN = of_Z 100.
Proof.
  split; [lia|]. split; [vm_compute; reflexivity|].
  destruct (pdf_progress_profile 3 (fun i => negb (Nat.eqb i 1))
              ltac:(lia) ltac:(vm_compute; reflexivity))
    as (rest & E & _ & _ & _ & L).
  exists rest. split; [exact E|exact (L eq_refl)].
Defined.

(* ----------------------------------------------------------------- *)
(** *** Arranging the images of the PDF *)

Section ArrangeFacts.

Context {A : Type}.
Implicit Types (arr before after : list (option A)) (a b : option A).

Lemma jsGet_app before a after :
  jsGet (before ++ a :: after) (List.length before) = a.
Proof. unfold jsGet. rewrite nth_middle. reflexivity. Qed.

Lemma jsSet_app before a after v :
  jsSet (before ++ a :: after) (List.length before) v
  = before ++ v :: after.
Proof.
  induction before as [|c before IH]; cbn [app List.length jsSet];
    [reflexivity|].
  rewrite IH. reflexivity.
Qed.

Lemma jsSet_length arr i v :
  List.length (jsSet arr i v) = Nat.max (List.length arr) (S i).
Proof.
  revert arr. induction i as [|i IH]; intros [|c arr];
    cbn [jsSet List.length]; try reflexivity.
  - lia.
  - rewrite IH. cbn [List.length]. lia.
  - rewrite IH. lia.
Qed.

Lemma app_cons_assoc before a rest :
  before ++ a :: rest = (before ++ [a]) ++ rest.
Proof. rewrite <- app_assoc. reflexivity. Qed.

Lemma moveImageUp_swap before a b after :
  moveImageUp (S (List.length before)) (before ++ a :: b :: after)
  = before ++ b :: a :: after.
Proof.
  cbn [moveImageUp].
  assert (L : S (List.length before) = List.length (before ++ [a]))
    by (rewrite length_app; cbn [List.length]; lia).
  rewrite jsGet_app.
  rewrite (app_cons_assoc before a (b :: after)), L.
  rewrite jsGet_app, jsSet_app, <- app_assoc. cbn [app].
  apply jsSet_app.
Qed.

Lemma moveImageDown_swap before a b after :
  moveImageDown (List.length before) (before ++ a :: b :: after)
  = before ++ b :: a :: after.
Proof.
  unfold moveImageDown.
  assert (N : Nat.eqb (S (List.length before))
                (List.length (before ++ a :: b :: after)) = false).
  { apply Nat.eqb_neq. rewrite length_app. cbn [List.length]. lia. }
  rewrite N.
  assert (L : S (List.length before) = List.length (before ++ [a]))
    by (rewrite length_app; cbn [List.length]; lia).
  rewrite jsGet_app, jsSet_app.
  rewrite (app_cons_assoc before a (b :: after)), L, jsGet_app.
  rewrite (app_cons_assoc before b (b :: after)).
  replace (List.length (before ++ [a])) with (List.length (before ++ [b]))
    by (rewrite !length_app; reflexivity).
  rewrite jsSet_app, <- app_assoc. reflexivity.
Qed.

Lemma split_at arr i :
  (S i < List.length arr)%nat ->
  exists before a b after,
    arr = before ++ a :: b :: after /\ List.length before = i.
Proof.
  intros H.
  destruct (skipn i arr) as [|a [|b after]] eqn:E.
  - pose proof (length_skipn i arr) as L. rewrite E in L.
    cbn [List.length] in L. lia.
  - pose proof (length_skipn i arr) as L. rewrite E in L.
    cbn [List.length] in L. lia.
  - exists (firstn i arr), a, b, after. split.
    + rewrite <- E. symmetry. apply firstn_skipn.
    + apply firstn_length_le. lia.
Qed.

End ArrangeFacts.

(** X10. Moving an image up exchanges it with the image before it and
    leaves every other image where it was. *)
Theorem move_up_exchanges_neighbours
  {A : Type} (before after : list (option A)) (a b : option A) :
  moveImageUp (S (List.length before)) (before ++ a :: b :: after)
  = before ++ b :: a :: after.
Proof. apply moveImageUp_swap. Qed.

(** X11. Moving an image down exchanges it with the image after it and
    leaves every other image where it was. *)
Theorem move_down_exchanges_neighbours
  {A : Type} (before after : list (option A)) (a b : option A) :
  moveImageDown (List.length before) (before ++ a :: b :: after)
  = before ++ b :: a :: after.
Proof. apply moveImageDown_swap. Qed.

(** X12. Moving an image down and then moving the image now below it up
    again restores the arrangement, and so does the opposite order; the
    buttons of the first image (up) and of the last image (down) change
    nothing. *)
Theorem move_up_and_down_cancel
  {A : Type} (arr : list (option A)) (index : nat) :
  (S index < List.length arr)%nat ->
  moveImageUp (S index) (moveImageDown index arr) = arr
  /\ moveImageDown index (moveImageUp (S index) arr) = arr
  /\ moveImageUp 0 arr = arr
  /\ moveImageDown (Nat.pred (List.length arr)) arr = arr.
Proof.
  intros H. destruct (split_at arr index H) as (l1 & a & b & l2 & E & L).
  subst arr index. split; [|split; [|split]].
  - rewrite moveImageDown_swap. apply moveImageUp_swap.
  - rewrite moveImageUp_swap. apply moveImageDown_swap.
  - reflexivity.
  - unfold moveImageDown.
    replace (S (Nat.pred (List.length (l1 ++ a :: b :: l2))))
      with (List.length (l1 ++ a :: b :: l2))
      by (rewrite length_app; cbn [List.length]; lia).
    rewrite Nat.eqb_refl. reflexivity.
Qed.

Lemma move_up_and_down_cancel_witness :
  (S 1 < List.length [Some 10; Some 20; Some 30; Some 40])%nat
  /\ moveImageUp 2 (moveImageDown 1 [Some 10; Some 20; Some 30; Some 40])
     = [Some 10; Some 20; Some 30; Some 40].
Proof.
  split; [cbn; lia|].
  apply (move_up_and_down_cancel [Some 10; Some 20; Some 30; Some 40] 1).
  cbn; lia.
Defined.

(** X13. Removing an image from the arrangement deletes exactly that entry
    and keeps the others in order; an index past the end removes nothing. *)
Theorem remove_deletes_one_entry
  {A : Type} (before after : list (option A)) (a : option A) (index : nat) :
  removeArranged (List.length before) (before ++ a :: after) = before ++ after
  /\ ((List.length before <= index)%nat ->
      removeArranged index before = before).
Proof.
  unfold removeArranged. split.
  - rewrite firstn_app, Nat.sub_diag, firstn_all. cbn [firstn].
    rewrite app_nil_r. f_equal.
    rewrite skipn_app, skipn_all2 by lia.
    replace (S (List.length before) - List.length before)%nat with 1%nat
      by lia.
    reflexivity.
  - intros H. rewrite firstn_all2, skipn_all2 by lia. apply app_nil_r.
Qed.

Lemma remove_deletes_one_entry_witness :
  removeArranged 1 [Some 10; Some 20; Some 30] = [Some 10; Some 30]
  /\ removeArranged 5 [Some 10; Some 20] = [Some 10; Some 20].
Proof.
  split.
  - apply (remove_deletes_one_entry [Some 10] [Some 30] (Some 20) 0).
  - apply (remove_deletes_one_entry [Some 10; Some 20] [] None 5). cbn; lia.
Defined.

(* ----------------------------------------------------------------- *)
(** *** The PDF file name *)

Lemma sanitizeFilename_idempotent s :
  sanitizeFilename (sanitizeFilename s) = sanitizeFilename s.
Proof.
  unfold sanitizeFilename. rewrite map_map. apply map_ext. intros c.
  destruct (existsb (N.eqb c) invalidFilenameChars) eqn:E;
    [reflexivity|exact (f_equal (fun b : bool => if b then 45%N else c) E)].
Qed.

Lemma invalid_not_whiteSpace c :
  existsb (N.eqb c) invalidFilenameChars = true -> isWhiteSpace c = false.
Proof.
  intros H. apply existsb_exists in H. destruct H as (d & I & E).
  apply N.eqb_eq in E. subst d.
  cbn [invalidFilenameChars In] in I.
  repeat (destruct I as [<-|I]; [reflexivity|]). destruct I.
Qed.

Lemma trimStart_map (f : N -> N) s :
  (forall c, isWhiteSpace (f c) = isWhiteSpace c) ->
  trimStart (List.map f s) = List.map f (trimStart s).
Proof.
  intros W. induction s as [|c s IH]; [reflexivity|].
  cbn [List.map trimStart]. rewrite W.
  destruct (isWhiteSpace c); [exact IH|reflexivity].
Qed.

Lemma trim_map (f : N -> N) s :
  (forall c, isWhiteSpace (f c) = isWhiteSpace c) ->
  trim (List.map f s) = List.map f (trim s).
Proof.
  intros W. unfold trim, trimEnd.
  rewrite (trimStart_map f s W), <- map_rev.
  rewrite (trimStart_map f _ W), map_rev. reflexivity.
Qed.

Lemma trim_sanitize s :
  trim (sanitizeFilename s) = sanitizeFilename (trim s).
Proof.
  unfold sanitizeFilename. apply trim_map. intros c.
  destruct (existsb (N.eqb c) invalidFilenameChars) eqn:E; [|reflexivity].
  rewrite (invalid_not_whiteSpace c E). reflexivity.
Qed.

Lemma nonEmpty_sanitize s : nonEmpty (sanitizeFilename s) = nonEmpty s.
Proof. destruct s; reflexivity. Qed.

(** X14. Cleaning a file name twice changes nothing more, and cleaning
    commutes with trimming, so the name a PDF is saved under is the same
    whether or not the field has already cleaned the text. *)
Theorem saved_name_ignores_field_cleaning (text : jsstring) :
  sanitizeFilename (sanitizeFilename text) = sanitizeFilename text
  /\ trim (sanitizeFilename text) = sanitizeFilename (trim text)
  /\ saveName (filenameInput text) = saveName text.
Proof.
  split; [apply sanitizeFilename_idempotent|].
  split; [apply trim_sanitize|].
  unfold saveName, filenameInput.
  rewrite trim_sanitize, nonEmpty_sanitize, sanitizeFilename_idempotent.
  reflexivity.
Qed.

(* ----------------------------------------------------------------- *)
(** *** The custom grid never has an empty page *)

Lemma of_Z_away k :
  k <> 0 ->
  (exists a, of_Z k = Fin a /\ U <= Z.abs a) \/ (exists s, of_Z k = Inf s).
Proof.
  intros Hk. pose proof U_pos as HU. unfold of_Z, fl.
  assert (R : repr U) by (rewrite <- (Z.mul_1_l U); apply repr_int; lia).
  assert (A : U <= Z.abs (k * U)).
  { rewrite Z.abs_mul, (Z.abs_eq U) by lia.
    rewrite <- (Z.mul_1_l U) at 1.
    apply Z.mul_le_mono_nonneg_r; lia. }
  assert (V : U <= fl_pos (Z.abs (k * U)) 1)
    by (apply fl_pos_ge; try assumption; lia).
  destruct (fl_pos (Z.abs (k * U)) 1 <=? MAXU).
  - left. eexists. split; [reflexivity|].
    rewrite Z.abs_mul.
    assert (S1 : Z.abs (Z.sgn (k * U)) = 1) by lia.
    rewrite S1. lia.
  - right. eexists. reflexivity.
Qed.

Lemma parseInt_cases text :
  parseInt text = NaN \/ exists k, parseInt text = of_Z k.
Proof.
  unfold parseInt.
  destruct (match trimStart text with
            | 45%N :: r => (-1, r)
            | 43%N :: r => (1, r)
            | _ => (1, trimStart text)
            end) as [sign s1].
  destruct (match s1 with
            | 48%N :: 120%N :: r => (16, r)
            | 48%N :: 88%N :: r => (16, r)
            | _ => (10, s1)
            end) as [R s2].
  destruct (parseDigits R None s2); [right; eexists; reflexivity|left; reflexivity].
Qed.

Lemma customGridInput_away text :
  (exists a, customGridInput text = Fin a /\ U <= Z.abs a)
  \/ (exists s, customGridInput text = Inf s).
Proof.
  pose proof U_pos as HU. unfold customGridInput, jsOr.
  destruct (truthy (parseInt text)) eqn:T.
  - destruct (parseInt_cases text) as [E|[k E]]; rewrite E in *.
    + discriminate.
    + destruct (Z.eq_dec k 0) as [->|N].
      * rewrite truthy_of_Z_0 in T. discriminate.
      * apply of_Z_away, N.
  - left. exists (1 * U). split; [apply of_Z_exact; lia|].
    rewrite Z.abs_eq; lia.
Qed.

Lemma fmul_away x y :
  ((exists a, x = Fin a /\ U <= Z.abs a) \/ (exists s, x = Inf s)) ->
  ((exists b, y = Fin b /\ U <= Z.abs b) \/ (exists t, y = Inf t)) ->
  truthy (fmul x y) = true.
Proof.
  pose proof U_pos as HU.
  assert (R : repr U) by (rewrite <- (Z.mul_1_l U); apply repr_int; lia).
  intros [(a & -> & Ha)|(s & ->)] [(b & -> & Hb)|(t & ->)]; cbn [fmul].
  - unfold fl.
    assert (P : U * U <= Z.abs (a * b)).
    { rewrite Z.abs_mul. apply Z.mul_le_mono_nonneg; lia. }
    assert (V : U <= fl_pos (Z.abs (a * b)) U)
      by (apply fl_pos_ge; try assumption; lia).
    destruct (fl_pos (Z.abs (a * b)) U <=? MAXU); [|reflexivity].
    cbn [truthy]. apply negb_true_iff, Z.eqb_neq.
    intros Z0. apply Z.mul_eq_0 in Z0. destruct Z0 as [Z0|Z0]; [|lia].
    assert (0 < U * U) by (apply Z.mul_pos_pos; lia). lia.
  - destruct (Z.eqb_spec a 0); [lia|reflexivity].
  - destruct (Z.eqb_spec b 0); [lia|reflexivity].
  - reflexivity.
Qed.

(** X15. Whatever is typed into the Rows and Columns fields, the stored
    values and the number of images per page of the custom layout are never
    0 and never NaN, so the page count never divides by zero. *)
Theorem custom_grid_never_empty (st : PdfSettings) (rowsText colsText : jsstring) :
  customRows st = customGridInput rowsText ->
  customCols st = customGridInput colsText ->
  truthy (rows (layoutGrid st)) = true
  /\ truthy (cols (layoutGrid st)) = true
  /\ truthy (imagesPerPage (layoutGrid st)) = true.
Proof.
  intros Hr Hc.
  assert (T : forall text, truthy (customGridInput text) = true).
  { intros text.
    destruct (customGridInput_away text) as [(a & -> & Ha)|(s & ->)];
      [|reflexivity].
    pose proof U_pos. cbn [truthy]. apply negb_true_iff, Z.eqb_neq. lia. }
  unfold layoutGrid.
  destruct (imageLayout st); cbn [rows cols imagesPerPage];
    try (repeat split; apply truthy_of_Z; lia).
  rewrite Hr, Hc. repeat split; try apply T.
  apply fmul_away; apply customGridInput_away.
Qed.

Lemma custom_grid_never_empty_witness :
  let st := {| pageSize := a4; orientation := portrait;
               imageLayout := custom; margin := of_Z 10; title := [];
               customRows := customGridInput (lit "0");
               customCols := customGridInput (lit "-3");
               pdfFilename := lit "photos" |} in
  truthy (imagesPerPage (layoutGrid st)) = true.
Proof.
  intros st.
  apply (custom_grid_never_empty st (lit "0") (lit "-3")); reflexivity.
Defined.

(* ----------------------------------------------------------------- *)
(** *** Names of the downloads *)

Lemma lastIndexOf_none c s : ~ In c s -> lastIndexOf c s = None.
Proof.
  induction s as [|d s IH]; intros H; cbn [lastIndexOf]; [reflexivity|].
  rewrite IH by (intros I; apply H; right; exact I).
  destruct (N.eqb_spec d c) as [E|_]; [|reflexivity].
  exfalso. apply H. left. exact E.
Qed.

Lemma lastIndexOf_last c stem ext :
  ~ In c ext -> lastIndexOf c (stem ++ c :: ext) = Some (List.length stem).
Proof.
  intros H. induction stem as [|d stem IH]; cbn [app lastIndexOf List.length].
  - rewrite (lastIndexOf_none c ext H), N.eqb_refl. reflexivity.
  - rewrite IH. reflexivity.
Qed.

Lemma baseName_stem stem ext :
  stem <> [] -> ~ In 46%N ext -> baseName (stem ++ 46%N :: ext) = stem.
Proof.
  intros Hs He. unfold baseName.
  rewrite (lastIndexOf_last 46%N stem ext He).
  rewrite firstn_app, Nat.sub_diag, firstn_all. cbn [firstn].
  rewrite app_nil_r. destruct stem; [congruence|reflexivity].
Qed.

Lemma baseName_whole name : ~ In 46%N (tl name) -> baseName name = name.
Proof.
  intros H. unfold baseName. destruct name as [|c name]; [reflexivity|].
  cbn [tl] in H. cbn [lastIndexOf].
  rewrite (lastIndexOf_none 46%N name H).
  destruct (N.eqb c 46); reflexivity.
Qed.

(** X16. For a file name with a non-empty stem before its last dot, the
    download and the ZIP entry replace what follows that dot by the format:
    [stem.format] and [stem_format.format]. *)
Theorem download_name_replaces_extension
  (stem ext : jsstring) (format : FormatOption) :
  stem <> [] -> ~ In 46%N ext ->
  downloadName (stem ++ lit "." ++ ext) format
  = stem ++ lit "." ++ formatName format
  /\ zipFileName (stem ++ lit "." ++ ext) format
     = stem ++ lit "_" ++ formatName format ++ lit "."
       ++ formatName format.
Proof.
  intros Hs He. unfold downloadName, zipFileName.
  change (lit "." ++ ext) with (46%N :: ext).
  rewrite (baseName_stem stem ext Hs He). split; reflexivity.
Qed.

Lemma download_name_replaces_extension_witness :
  downloadName (lit "holiday.2024.HEIC") webp = lit "holiday.2024.webp"
  /\ zipFileName (lit "holiday.2024.HEIC") webp
     = lit "holiday.2024_webp.webp".
Proof.
  apply (download_name_replaces_extension (lit "holiday.2024") (lit "HEIC")
           webp).
  - discriminate.
  - vm_compute. intuition discriminate.
Defined.

(** X17. A file name with no dot after its first character (no extension,
    or only a leading dot) is kept whole and the format is appended. *)
Theorem name_without_extension_is_kept
  (name : jsstring) (format : FormatOption) :
  ~ In 46%N (tl name) ->
  baseName name = name
  /\ downloadName name format = name ++ lit "." ++ formatName format.
Proof.
  intros H. unfold downloadName. rewrite (baseName_whole name H).
  split; reflexivity.
Qed.

Lemma name_without_extension_is_kept_witness :
  downloadName (lit ".profile") png = lit ".profile.png".
Proof.
  apply (name_without_extension_is_kept (lit ".profile") png).
  vm_compute. intuition discriminate.
Defined.

(** X18. Two ZIP entries get the same name exactly when their base names
    and their formats agree: sources that differ only in their extension
    collide, different formats never do. *)
Theorem zip_names_collide_iff
  (name1 name2 : jsstring) (format1 format2 : FormatOption) :
  zipFileName name1 format1 = zipFileName name2 format2
  <-> baseName name1 = baseName name2 /\ format1 = format2.
Proof.
  unfold zipFileName. split.
  - intros H.
    assert (F : format1 = format2).
    { apply (f_equal (@rev N)) in H.
      rewrite !rev_app_distr in H.
      destruct format1, format2; try reflexivity;
        vm_compute in H; discriminate H. }
    subst format2. split; [|reflexivity].
    apply app_inv_tail in H. exact H.
  - intros [-> ->]. reflexivity.
Qed.

(* ----------------------------------------------------------------- *)
(** *** Grouping the results by source image *)

Lemma jsstring_eqb_spec s t : reflect (s = t) (jsstring_eqb s t).
Proof.
  unfold jsstring_eqb. destruct (list_eq_dec N.eq_dec s t);
    constructor; assumption.
Qed.

Lemma jsstring_eqb_refl s : jsstring_eqb s s = true.
Proof. destruct (jsstring_eqb_spec s s); [reflexivity|congruence]. Qed.

Lemma jsstring_eqb_sym s t : jsstring_eqb s t = jsstring_eqb t s.
Proof.
  destruct (jsstring_eqb_spec s t), (jsstring_eqb_spec t s);
    congruence.
Qed.

Lemma lookupGroup_pushItem key r acc key' :
  lookupGroup key' (pushItem key r acc)
  = if jsstring_eqb key key'
    then match lookupGroup key acc with
         | Some g => Some {| fileName := fileName g; items := items g ++ [r];
                             groupDimensions := groupDimensions g |}
         | None => None
         end
    else lookupGroup key' acc.
Proof.
  induction acc as [|[k g] acc IH]; cbn [pushItem lookupGroup].
  - destruct (jsstring_eqb key key'); reflexivity.
  - destruct (jsstring_eqb_spec k key) as [->|Nk]; cbn [lookupGroup].
    + destruct (jsstring_eqb_spec key key') as [->|Nk'];
        [reflexivity|].
      reflexivity.
    + destruct (jsstring_eqb_spec k key') as [->|Nk'].
      * destruct (jsstring_eqb_spec key key') as [->|_];
          [congruence|reflexivity].
      * exact IH.
Qed.

Lemma lookupGroup_app key' acc key g :
  lookupGroup key' (acc ++ [(key, g)])
  = match lookupGroup key' acc with
    | Some h => Some h
    | None => if jsstring_eqb key key' then Some g else None
    end.
Proof.
  induction acc as [|[k h] acc IH]; cbn [app lookupGroup]; [reflexivity|].
  destruct (jsstring_eqb k key'); [reflexivity|exact IH].
Qed.

Lemma groupFrom_lookup results :
  forall acc,
    Forall (fun r => existsb (jsstring_eqb (Listed.originalId r))
                       objectPrototypeKeys = false) results ->
    exists groups,
      groupFrom acc results = Some groups
      /\ forall key,
           lookupGroup key groups
           = match lookupGroup key acc,
                   filter (fun r => jsstring_eqb (Listed.originalId r) key)
                     results with
             | Some g, l =>
                 Some {| fileName := fileName g; items := items g ++ l;
                         groupDimensions := groupDimensions g |}
             | None, [] => None
             | None, r0 :: l =>
                 Some {| fileName := Listed.originalFile r0;
                         items := r0 :: l;
                         groupDimensions := Listed.originalDimensions r0 |}
             end.
Proof.
  induction results as [|r rest IH]; intros acc H.
  - exists acc. split; [reflexivity|]. intros key. cbn [filter].
    destruct (lookupGroup key acc) as [[fn it gd]|]; [|reflexivity].
    cbn [fileName items groupDimensions]. rewrite app_nil_r. reflexivity.
  - apply Forall_cons_iff in H. destruct H as [Hr Hrest].
    cbn [groupFrom]. unfold groupStep. rewrite Hr.
    destruct (lookupGroup (Listed.originalId r) acc) as [g|] eqn:L.
    + destruct (IH (pushItem (Listed.originalId r) r acc) Hrest)
        as (groups & E & Q).
      exists groups. split; [exact E|]. intros key. rewrite Q.
      rewrite lookupGroup_pushItem. cbn [filter].
      destruct (jsstring_eqb_spec (Listed.originalId r) key) as [<-|N].
      * rewrite L. cbn [fileName items groupDimensions].
        rewrite <- app_assoc. reflexivity.
      * reflexivity.
    + destruct (IH (acc ++ [(Listed.originalId r,
                             {| fileName := Listed.originalFile r;
                                items := [r];
                                groupDimensions :=
                                  Listed.originalDimensions r |})]) Hrest)
        as (groups & E & Q).
      exists groups. split; [exact E|]. intros key. rewrite Q.
      rewrite lookupGroup_app. cbn [filter].
      destruct (jsstring_eqb_spec (Listed.originalId r) key) as [<-|N].
      * rewrite L. reflexivity.
      * destruct (lookupGroup key acc); reflexivity.
Qed.

Lemma lookupGroup_inherited_push key r acc :
  (forall k, existsb (jsstring_eqb k) objectPrototypeKeys = true ->
             lookupGroup k acc = None) ->
  forall k, existsb (jsstring_eqb k) objectPrototypeKeys = true ->
            lookupGroup k (pushItem key r acc) = None.
Proof.
  intros I k Hk. rewrite lookupGroup_pushItem.
  destruct (jsstring_eqb_spec key k) as [->|_]; [|apply I, Hk].
  rewrite (I k Hk). reflexivity.
Qed.

Lemma groupFrom_inherited results :
  forall acc,
    (forall k, existsb (jsstring_eqb k) objectPrototypeKeys = true ->
               lookupGroup k acc = None) ->
    Exists (fun r => existsb (jsstring_eqb (Listed.originalId r))
                       objectPrototypeKeys = true) results ->
    groupFrom acc results = None.
Proof.
  induction results as [|r rest IH]; intros acc I H.
  - inversion H.
  - cbn [groupFrom]. unfold groupStep.
    destruct (existsb (jsstring_eqb (Listed.originalId r))
                objectPrototypeKeys) eqn:Hr.
    + rewrite (I _ Hr). reflexivity.
    + apply Exists_cons in H. destruct H as [H|H]; [congruence|].
      destruct (lookupGroup (Listed.originalId r) acc) eqn:L.
      * apply IH; [|exact H]. apply lookupGroup_inherited_push, I.
      * apply IH; [|exact H]. intros k Hk. rewrite lookupGroup_app.
        rewrite (I k Hk).
        destruct (jsstring_eqb_spec (Listed.originalId r) k) as [E|_];
          [|reflexivity].
        rewrite E in Hr. congruence.
Qed.

(** X19. When no result carries the name of a property inherited from
    Object.prototype as its id, grouping succeeds, and the group of an id
    holds exactly the results with that id, in their order, under the file
    name and dimensions of the first of them; an id no result has gets no
    group. *)
Theorem groups_collect_results_by_id (results : list Listed.t) :
  Forall (fun r => existsb (jsstring_eqb (Listed.originalId r))
                     objectPrototypeKeys = false) results ->
  exists groups,
    groupedResults results = Some groups
    /\ forall key,
         lookupGroup key groups
         = match filter (fun r => jsstring_eqb (Listed.originalId r) key)
                   results with
           | [] => None
           | r0 :: l =>
               Some {| fileName := Listed.originalFile r0;
                       items := r0 :: l;
                       groupDimensions := Listed.originalDimensions r0 |}
           end.
Proof.
  intros H. destruct (groupFrom_lookup results [] H) as (groups & E & Q).
  exists groups. split; [exact E|]. intros key. rewrite Q. reflexivity.
Qed.

Lemma groups_collect_results_by_id_witness :
  let r id name f :=
    {| Listed.result :=
         {| ImageResult.format := f; ImageResult.width := of_Z 10;
            ImageResult.height := of_Z 10;
            ImageResult.isPlaceholder := false |};
       Listed.originalFile := lit name; Listed.originalId := lit id;
       Listed.originalDimensions := None |} in
  let results := [r "a1" "cat.png" jpeg; r "b2" "dog.png" jpeg;
                  r "a1" "cat.png" webp]%string in
  exists groups,
    groupedResults results = Some groups
    /\ lookupGroup (lit "a1") groups
       = Some {| fileName := lit "cat.png";
                 items := [r "a1" "cat.png" jpeg;
                           r "a1" "cat.png" webp]%string;
                 groupDimensions := None |}.
Proof.
  intros r results.
  destruct (groups_collect_results_by_id results) as (groups & E & Q).
  - repeat constructor.
  - exists groups. split; [exact E|]. rewrite Q. reflexivity.
Defined.

(** X20. Grouping fails, with the TypeError of [acc[key].items.push], exactly
    when some result has the name of a property inherited from
    Object.prototype as its id. *)
Theorem grouping_fails_iff_inherited_id (results : list Listed.t) :
  groupedResults results = None
  <-> Exists (fun r => existsb (jsstring_eqb (Listed.originalId r))
                         objectPrototypeKeys = true) results.
Proof.
  split.
  - intros N.
    destruct (Exists_dec
                (fun r => existsb (jsstring_eqb (Listed.originalId r))
                            objectPrototypeKeys = true) results) as [E|E].
    + intros r. apply bool_dec.
    + exact E.
    + exfalso.
      assert (F : Forall (fun r => existsb (jsstring_eqb (Listed.originalId r))
                                     objectPrototypeKeys = false) results).
      { apply Forall_forall. intros r Hr.
        destruct (existsb (jsstring_eqb (Listed.originalId r))
                    objectPrototypeKeys) eqn:B; [|reflexivity].
        exfalso. apply E. apply Exists_exists. exists r. split; assumption. }
      destruct (groupFrom_lookup results [] F) as (groups & G & _).
      unfold groupedResults in N. congruence.
  - intros E. apply groupFrom_inherited; [reflexivity|exact E].
Qed.

(* ----------------------------------------------------------------- *)
(** *** The form of the uploader *)

(** X21. With the aspect lock on and the size of the selected image known,
    typing a height [H] with [h * H] and [w * H] up to [2^50] stores [H]
    and, as width, an integer nearest to [w * H / h].  Converting that image
    with the stored pair never exceeds either stored side and meets one of
    them. *)
Theorem typed_height_bounds_conversion
  (text : jsstring) (imageFiles : list ImageFile.t) (idx : nat)
  (f : ImageFile.t) (prev : ResizeDimensions) (w h H : Z) (pct : num)
  (presetSize : PresetSize) :
  nth_error imageFiles idx = Some f ->
  ImageFile.width f = Some (of_Z w) -> ImageFile.height f = Some (of_Z h) ->
  parsedDimension text = of_Z H ->
  0 < w -> 0 < h -> 0 < H -> h * H <= 2 ^ 50 -> w * H <= 2 ^ 50 ->
  exists k a b,
    handleHeightChange text true imageFiles idx prev = pixels k H
    /\ 2 * Z.abs (k * h - w * H) <= h
    /\ targetDimensions (pixels w h) dimensions (pixels k H) pct presetSize
         true = pixels a b
    /\ 0 <= a <= k /\ 0 <= b <= H /\ (a = k \/ b = H).
Proof.
  intros Hn Hfw Hfh Hp Hw Hh HH B1 B2.
  assert (Hw' : w < 2 ^ 53) by nia. assert (Hh' : h < 2 ^ 53) by nia.
  assert (HH' : H < 2 ^ 53) by nia.
  destruct (jsRound_product w h H) as (k & Ek & K0 & Kn); try lia.
  assert (Kb : k <= 2 ^ 50).
  { assert (w * H <= w * H * h).
    { rewrite <- (Z.mul_1_r (w * H)) at 1.
      apply Z.mul_le_mono_nonneg_l; [apply Z.mul_nonneg_nonneg|]; lia. }
    assert (2 * (k * h) <= 2 * (w * H) + h) by lia.
    assert (k * h <= (2 ^ 50 + 1) * h - 1); [nia|].
    destruct (Z_le_gt_dec k (2 ^ 50)) as [ok|bad]; [exact ok|].
    assert ((2 ^ 50 + 1) * h <= k * h)
      by (apply Z.mul_le_mono_nonneg_r; lia).
    lia. }
  exists k.
  assert (E : handleHeightChange text true imageFiles idx prev = pixels k H).
  { unfold handleHeightChange.
    rewrite (selectedSize_known imageFiles idx f w h) by (assumption || lia).
    rewrite Hp, fmul_fdiv, Ek by lia. reflexivity. }
  destruct (Z.eq_dec k 0) as [->|nk].
  - exists 0, H. split; [exact E|]. split; [exact Kn|].
    rewrite dimensions_height_only, fmul_fdiv, Ek by lia.
    split; [reflexivity|]. lia.
  - destruct (fit_inside_branch w h k H) as (a & b & Ea & Eb & R); try lia.
    exists a, b. split; [exact E|]. split; [exact Kn|].
    rewrite dimensions_both by lia. cbv zeta in Ea, Eb |- *.
    rewrite Ea, Eb. split; [reflexivity|exact R].
Qed.

Lemma typed_height_bounds_conversion_witness :
  let f := {| ImageFile.id := lit "k3x9a1c"; ImageFile.isHeic := false;
              ImageFile.width := Some (of_Z 640);
              ImageFile.height := Some (of_Z 480) |} in
  (nth_error [f] 0 = Some f
   /\ ImageFile.width f = Some (of_Z 640)
   /\ ImageFile.height f = Some (of_Z 480)
   /\ parsedDimension (lit "100") = of_Z 100
   /\ 0 < 640 /\ 0 < 480 /\ 0 < 100
   /\ 480 * 100 <= 2 ^ 50 /\ 640 * 100 <= 2 ^ 50)
  /\ exists k a b,
       handleHeightChange (lit "100") true [f] 0 (pixels 800 600)
       = pixels k 100
       /\ targetDimensions (pixels 640 480) dimensions (pixels k 100)
            (of_Z 50) medium true = pixels a b
       /\ 0 <= a <= k /\ 0 <= b <= 100.
Proof.
  intros f. split.
  { split; [reflexivity|]. split; [reflexivity|]. split; [reflexivity|].
    split; [vm_compute; reflexivity|]. lia. }
  destruct (typed_height_bounds_conversion (lit "100") [f] 0 f
              (pixels 800 600) 640 480 100 (of_Z 50) medium
              eq_refl eq_refl eq_refl ltac:(vm_compute; reflexivity)
              ltac:(lia) ltac:(lia) ltac:(lia) ltac:(lia) ltac:(lia))
    as (k & a & b & E & _ & C & A & B & _).
  exists k, a, b. split; [exact E|]. split; [exact C|]. split; assumption.
Defined.

(** Beyond that bound the stored width need not be a nearest integer: for
    an image of 1 by 3 pixels a typed height of [2^60] stores a width 21
    below it. *)
Example typed_height_beyond_bound :
  let f := {| ImageFile.id := lit "k3x9a1c"; ImageFile.isHeic := false;
              ImageFile.width := Some (of_Z 1);
              ImageFile.height := Some (of_Z 3) |} in
  handleHeightChange (lit "1152921504606846976") true [f] 0 (pixels 800 600)
  = pixels 384307168202282304 (2 ^ 60)
  /\ nearest (1 * 2 ^ 60) 3 = 384307168202282304 + 21.
Proof. cbv zeta. split; vm_compute; reflexivity. Qed.

Lemma FormatOption_eqb_spec f g : reflect (f = g) (FormatOption_eqb f g).
Proof. destruct f, g; constructor; congruence. Qed.

Lemma existsb_FormatOption format l :
  existsb (FormatOption_eqb format) l = true <-> In format l.
Proof.
  rewrite existsb_exists. split.
  - intros (g & I & E). destruct (FormatOption_eqb_spec format g);
      [subst; exact I|discriminate].
  - intros I. exists format. split; [exact I|].
    destruct (FormatOption_eqb_spec format format); congruence.
Qed.

(** X22. Clicking a format toggles it: a selected format is removed, an
    unselected one is added; the other formats keep their selection and
    their order, and no format ever appears twice. *)
Theorem format_click_toggles
  (format : FormatOption) (prev : list FormatOption) :
  (In format (handleFormatChange format prev) <-> ~ In format prev)
  /\ (forall other, other <> format ->
        (In other (handleFormatChange format prev) <-> In other prev))
  /\ filter (fun f => negb (FormatOption_eqb f format))
       (handleFormatChange format prev)
     = filter (fun f => negb (FormatOption_eqb f format)) prev
  /\ (NoDup prev -> NoDup (handleFormatChange format prev)).
Proof.
  assert (K : forall f, negb (FormatOption_eqb f format) = true
                        <-> f <> format).
  { intros f. destruct (FormatOption_eqb_spec f format); cbn [negb];
      split; congruence. }
  assert (Idem : forall l,
            filter (fun f => negb (FormatOption_eqb f format))
              (filter (fun f => negb (FormatOption_eqb f format)) l)
            = filter (fun f => negb (FormatOption_eqb f format)) l).
  { intros l. induction l as [|a l IH]; [reflexivity|].
    cbn [filter]. destruct (negb (FormatOption_eqb a format)) eqn:E;
      [|exact IH].
    cbn [filter]. rewrite E, IH. reflexivity. }
  unfold handleFormatChange.
  destruct (existsb (FormatOption_eqb format) prev) eqn:E.
  - apply existsb_FormatOption in E.
    split; [|split; [|split]].
    + rewrite filter_In, K. split; [intros [_ N]; congruence|tauto].
    + intros other N. rewrite filter_In, K. tauto.
    + apply Idem.
    + apply NoDup_filter.
  - assert (N : ~ In format prev).
    { intros I. apply existsb_FormatOption in I. congruence. }
    split; [|split; [|split]].
    + rewrite in_app_iff. cbn [In]. tauto.
    + intros other No. rewrite in_app_iff. cbn [In].
      split; [intros [I|[I|[]]]; [exact I|congruence]|tauto].
    + rewrite filter_app. cbn [filter].
      destruct (FormatOption_eqb_spec format format); [|congruence].
      cbn [negb]. apply app_nil_r.
    + intros D. apply NoDup_app; [exact D|repeat constructor; intros []|].
      intros x Ix [<-|[]]. exact (N Ix).
Qed.

Lemma removal_length (removed : jsstring) (prev : list ImageFile.t) :
  NoDup (List.map ImageFile.id prev) ->
  In removed (List.map ImageFile.id prev) ->
  S (List.length
       (filter (fun img => negb (jsstring_eqb (ImageFile.id img) removed))
          prev))
  = List.length prev.
Proof.
  induction prev as [|f rest IH]; intros D I; [destruct I|].
  cbn [List.map] in D, I. apply NoDup_cons_iff in D. destruct D as [N D].
  cbn [filter List.length].
  destruct (jsstring_eqb_spec (ImageFile.id f) removed) as [E|Ne];
    cbn [negb List.length]; f_equal.
  - assert (F : forall g, In g rest ->
                negb (jsstring_eqb (ImageFile.id g) removed) = true).
    { intros g Hg.
      destruct (jsstring_eqb_spec (ImageFile.id g) removed) as [Eg|_];
        [|reflexivity].
      exfalso. apply N. rewrite E, <- Eg. apply in_map, Hg. }
    clear - F. induction rest as [|g rest IH]; [reflexivity|].
    cbn [filter]. rewrite (F g) by (left; reflexivity).
    cbn [List.length]. f_equal. apply IH. intros x Hx. apply F. right.
    exact Hx.
  - apply IH; [exact D|].
    destruct I as [I|I]; [contradiction|exact I].
Qed.

(** X23. After an image is removed: if no image is left, the results are
    cleared, no preview is shown and the effect sets the selection to 0; if
    the selection is still in range, the effect leaves it and the preview
    gets an image that was there before and is not the removed one; if
    images are left and the selection is past the end, the preview is
    handed an undefined entry.  With distinct ids and an image in range
    selected, this last case arises exactly when the last image was
    selected and another image is left. *)
Theorem selection_after_removal
  (removed : jsstring) (prev : list ImageFile.t) (selectedImageIndex : nat) :
  let r := removeUploadedImage removed prev in
  (updatedFiles r = [] ->
   clearsResults r = true
   /\ previewedImage (updatedFiles r) selectedImageIndex = None
   /\ resetSelectedImageIndex (updatedFiles r) selectedImageIndex = 0%nat)
  /\ ((selectedImageIndex < List.length (updatedFiles r))%nat ->
      clearsResults r = false
      /\ resetSelectedImageIndex (updatedFiles r) selectedImageIndex
         = selectedImageIndex
      /\ exists f,
           previewedImage (updatedFiles r) selectedImageIndex = Some (Some f)
           /\ In f prev /\ ImageFile.id f <> removed)
  /\ (updatedFiles r <> [] ->
      (List.length (updatedFiles r) <= selectedImageIndex)%nat ->
      previewedImage (updatedFiles r) selectedImageIndex = Some None)
  /\ (NoDup (List.map ImageFile.id prev) ->
      In removed (List.map ImageFile.id prev) ->
      (selectedImageIndex < List.length prev)%nat ->
      (previewedImage (updatedFiles r) selectedImageIndex = Some None
       <-> S selectedImageIndex = List.length prev
           /\ (2 <= List.length prev)%nat)).
Proof.
  intros r. subst r. unfold removeUploadedImage.
  cbn [updatedFiles clearsResults].
  set (u := filter (fun img => negb (jsstring_eqb (ImageFile.id img) removed))
              prev).
  assert (PN : (List.length u <= selectedImageIndex)%nat ->
               nth_error u selectedImageIndex = None)
    by (apply nth_error_None).
  split; [|split; [|split]].
  - intros E. rewrite E. repeat split.
  - intros H. unfold previewedImage, resetSelectedImageIndex.
    destruct (Nat.eqb_spec (List.length u) 0) as [Z0|NZ]; [lia|].
    destruct (Nat.leb_spec (List.length u) selectedImageIndex); [lia|].
    split; [reflexivity|]. split; [reflexivity|].
    destruct (nth_error u selectedImageIndex) as [f|] eqn:En.
    + exists f. split; [reflexivity|].
      apply nth_error_In in En. unfold u in En.
      apply filter_In in En. destruct En as [I Q].
      split; [exact I|].
      destruct (jsstring_eqb_spec (ImageFile.id f) removed);
        [discriminate|assumption].
    + apply nth_error_None in En. lia.
  - intros Hne Hle. unfold previewedImage.
    destruct (Nat.eqb_spec (List.length u) 0) as [Z0|NZ].
    + destruct u; [congruence|discriminate Z0].
    + rewrite (PN Hle). reflexivity.
  - intros D I Hs.
    pose proof (removal_length removed prev D I) as L. fold u in L.
    unfold previewedImage.
    destruct (Nat.eqb_spec (List.length u) 0) as [Z0|NZ].
    + split; [discriminate|]. lia.
    + split.
      * intros E. injection E as E. apply nth_error_None in E. lia.
      * intros [E _]. rewrite PN by lia. reflexivity.
Qed.

Lemma selection_after_removal_witness :
  let img name := {| ImageFile.id := lit name; ImageFile.isHeic := false;
                     ImageFile.width := Some (of_Z 10);
                     ImageFile.height := Some (of_Z 10) |} in
  let prev := [img "a1"; img "b2"; img "c3"]%string in
  previewedImage (updatedFiles (removeUploadedImage (lit "a1") prev)) 2
  = Some None
  /\ previewedImage (updatedFiles (removeUploadedImage (lit "a1") prev)) 1
     = Some (Some (img "c3"%string)).
Proof.
  intros img prev.
  destruct (selection_after_removal (lit "a1") prev 2) as (_ & _ & _ & W).
  split.
  - apply W.
    + vm_compute. repeat constructor; cbn [In]; intuition discriminate.
    + left. reflexivity.
    + cbn. lia.
    + split; [reflexivity|cbn; lia].
  - reflexivity.
Defined.

(* ----------------------------------------------------------------- *)
(** *** What the PDF holds *)

Lemma combine_seq_images {A} (l : list A) i :
  List.map snd (combine (seq i (List.length l)) l) = l
  /\ List.map fst (combine (seq i (List.length l)) l)
     = seq i (List.length l).
Proof.
  revert i. induction l as [|a l IH]; intros i; [split; reflexivity|].
  cbn [List.length seq combine List.map fst snd].
  destruct (IH (S i)) as [E1 E2]. rewrite E1, E2. split; reflexivity.
Qed.

(** X24. Whatever the page settings and the grid are, a run on a non-empty
    arrangement hands every image to [pdf.addImage] exactly once, in the
    arranged order; an empty arrangement produces nothing. *)
Theorem every_image_drawn_once
  {Image : Type} (st : PdfSettings) (images : list Image) :
  (images = [] -> generatePDF st images = None)
  /\ (images <> [] ->
      exists res,
        generatePDF st images = Some res
        /\ List.map image (List.concat (pages (document res))) = images
        /\ List.map itemIndex (List.concat (pages (document res)))
           = seq 0 (List.length images)).
Proof.
  split; [intros ->; reflexivity|]. intros Hne.
  destruct images as [|im0 rest] eqn:Ei; [congruence|].
  rewrite <- Ei in *.
  exists {| document := placeImages st (pageLayout st) 0 images newPdf;
            totalPages :=
              jsCeil (fdiv (of_nat (List.length images))
                        (imagesPerPage (grid (pageLayout st))));
            savedAs := saveName (pdfFilename st) |}.
  split; [rewrite Ei; reflexivity|]. cbn [document].
  rewrite (placeImages_concat st images 0 newPdf).
  cbn [pages newPdf finished current List.concat app].
  rewrite !map_map. cbn [image itemIndex placement].
  destruct (combine_seq_images images 0) as [E1 E2].
  split; [exact E1|exact E2].
Qed.

Lemma every_image_drawn_once_witness :
  let st := {| pageSize := a4; orientation := portrait;
               imageLayout := layout_4; margin := of_Z 10; title := [];
               customRows := of_Z 2; customCols := of_Z 2;
               pdfFilename := lit "photos" |} in
  exists res,
    generatePDF st [11; 12; 13; 14; 15]%nat = Some res
    /\ List.map image (List.concat (pages (document res)))
       = [11; 12; 13; 14; 15]%nat.
Proof.
  intros st.
  destruct (every_image_drawn_once st [11; 12; 13; 14; 15]%nat) as [_ H].
  destruct (H ltac:(discriminate)) as (res & E & M & _).
  exists res. split; [exact E|exact M].
Defined.

Lemma mod_pred k P :
  1 <= P -> 1 <= k ->
  (k - 1) mod P + 1 = if k mod P =? 0 then P else k mod P.
Proof.
  intros HP Hk.
  pose proof (Z.div_mod k P ltac:(lia)) as D.
  pose proof (Z.mod_pos_bound k P ltac:(lia)) as M.
  destruct (Z.eqb_spec (k mod P) 0) as [E|N].
  - assert (Q : (k - 1) mod P = P - 1).
    { symmetry. apply Z.mod_unique with (q := k / P - 1); lia. }
    lia.
  - assert (Q : (k - 1) mod P = k mod P - 1).
    { symmetry. apply Z.mod_unique with (q := k / P); lia. }
    lia.
Qed.

Section Fill.

Context {Image : Type}.
Variable st : PdfSettings.
Variables r c : Z.
Hypothesis Hgrid :
  layoutGrid st
  = {| imagesPerPage := of_Z (r * c); cols := of_Z c; rows := of_Z r |}.
Hypothesis Hr : 1 <= r.
Hypothesis Hc : 1 <= c.

Lemma fill_step (k : nat) (im : Image) (d : PdfDoc) :
  (1 <= k)%nat -> Z.of_nat k + r * c <= 2 ^ 52 ->
  Forall (fun pg => Z.of_nat (List.length pg) = r * c) (finished d) ->
  Z.of_nat (List.length (current d)) = (Z.of_nat k - 1) mod (r * c) + 1 ->
  Forall (fun pg => Z.of_nat (List.length pg) = r * c)
    (finished (placeImage st (pageLayout st) k im d))
  /\ Z.of_nat (List.length (current (placeImage st (pageLayout st) k im d)))
     = (Z.of_nat (S k) - 1) mod (r * c) + 1.
Proof.
  intros Hk B F C.
  assert (P1 : 1 <= r * c) by nia.
  rewrite (placeImage_cases st r c Hgrid Hr Hc k im d B).
  pose proof (mod_pred (Z.of_nat k) (r * c) P1 ltac:(lia)) as MP.
  replace (Z.of_nat (S k) - 1) with (Z.of_nat k) by lia.
  destruct (Z.eqb_spec (Z.of_nat k mod (r * c)) 0) as [E|N].
  - destruct (Z.ltb_spec 0 (Z.of_nat k)); [|lia].
    cbn [andb addImage addPage finished current app List.length].
    split; [|rewrite E; reflexivity].
    apply Forall_app. split; [exact F|].
    constructor; [lia|constructor].
  - cbn [andb addImage finished current].
    split; [exact F|]. rewrite length_app. cbn [List.length]. lia.
Qed.

Lemma fill_all (images : list Image) :
  forall k d,
    (1 <= k)%nat ->
    Z.of_nat (k + List.length images) + r * c <= 2 ^ 52 ->
    Forall (fun pg => Z.of_nat (List.length pg) = r * c) (finished d) ->
    Z.of_nat (List.length (current d)) = (Z.of_nat k - 1) mod (r * c) + 1 ->
    let d' := placeImages st (pageLayout st) k images d in
    Forall (fun pg => Z.of_nat (List.length pg) = r * c) (finished d')
    /\ Z.of_nat (List.length (current d'))
       = (Z.of_nat (k + List.length images) - 1) mod (r * c) + 1.
Proof.
  induction images as [|im rest IH]; intros k d Hk B F C.
  - cbn [placeImages List.length]. rewrite Nat.add_0_r. split; assumption.
  - cbn [placeImages List.length] in *.
    destruct (fill_step k im d Hk ltac:(lia) F C) as [F' C'].
    replace (k + S (List.length rest))%nat
      with (S k + List.length rest)%nat in * by lia.
    apply (IH (S k)); [lia|exact B|exact F'|exact C'].
Qed.

Lemma fill_first (im : Image) :
  r * c <= 2 ^ 52 ->
  finished (placeImage st (pageLayout st) 0 im newPdf) = []
  /\ List.length (current (placeImage st (pageLayout st) 0 im newPdf))
     = 1%nat.
Proof.
  intros B.
  rewrite (placeImage_cases st r c Hgrid Hr Hc 0 im newPdf ltac:(cbn; lia)).
  cbn [Z.of_nat Z.ltb Z.compare andb]. rewrite andb_false_r.
  split; reflexivity.
Qed.

End Fill.

(** X25. The pages are filled in order: every page but the last holds
    [rows * cols] images, and the last page holds what is left, at least one
    image and at most [rows * cols]. *)
Theorem pages_are_filled_in_order
  {Image : Type} (st : PdfSettings) (r c : Z) (images : list Image) :
  layoutGrid st
  = {| imagesPerPage := of_Z (r * c); cols := of_Z c; rows := of_Z r |} ->
  1 <= r -> 1 <= c ->
  Z.of_nat (List.length images) + r * c <= 2 ^ 52 ->
  images <> [] ->
  exists res full lastPage,
    generatePDF st images = Some res
    /\ pages (document res) = full ++ [lastPage]
    /\ Forall (fun pg => Z.of_nat (List.length pg) = r * c) full
    /\ Z.of_nat (List.length lastPage)
       = (Z.of_nat (List.length images) - 1) mod (r * c) + 1
    /\ 1 <= Z.of_nat (List.length lastPage) <= r * c.
Proof.
  intros Hg Hr Hc B Hne.
  destruct images as [|im0 rest] eqn:Ei; [congruence|].
  assert (P1 : 1 <= r * c) by nia.
  destruct (fill_first st r c Hg Hr Hc im0 ltac:(lia)) as [F1 C1].
  destruct (fill_all st r c Hg Hr Hc rest 1%nat
              (placeImage st (pageLayout st) 0 im0 newPdf)
              ltac:(lia) ltac:(cbn [List.length] in B; lia)) as [F C].
  { rewrite F1. constructor. }
  { rewrite C1. cbn [Z.of_nat Pos.of_succ_nat]. rewrite Z.sub_diag.
    rewrite Z.mod_0_l by lia. reflexivity. }
  set (d := placeImages st (pageLayout st) 1 rest
              (placeImage st (pageLayout st) 0 im0 newPdf)) in *.
  exists {| document := d;
            totalPages :=
              jsCeil (fdiv (of_nat (List.length (im0 :: rest)))
                        (imagesPerPage (grid (pageLayout st))));
            savedAs := saveName (pdfFilename st) |}.
  exists (finished d), (current d).
  split; [reflexivity|]. cbn [document].
  split; [reflexivity|]. split; [exact F|].
  replace (1 + List.length rest)%nat with (List.length (im0 :: rest)) in C
    by reflexivity.
  split; [exact C|]. rewrite C.
  pose proof (Z.mod_pos_bound (Z.of_nat (List.length (im0 :: rest)) - 1)
                (r * c) ltac:(lia)).
  lia.
Qed.

Lemma pages_are_filled_in_order_witness :
  let st := {| pageSize := a4; orientation := portrait;
               imageLayout := layout_4; margin := of_Z 10; title := [];
               customRows := of_Z 2; customCols := of_Z 2;
               pdfFilename := lit "photos" |} in
  (layoutGrid st
   = {| imagesPerPage := of_Z (2 * 2); cols := of_Z 2; rows := of_Z 2 |}
   /\ 1 <= 2 /\ 1 <= 2
   /\ Z.of_nat (List.length [11; 12; 13; 14; 15]%nat) + 2 * 2 <= 2 ^ 52
   /\ [11; 12; 13; 14; 15]%nat <> [])
  /\ exists res full lastPage,
       generatePDF st [11; 12; 13; 14; 15]%nat = Some res
       /\ pages (document res) = full ++ [lastPage]
       /\ Z.of_nat (List.length lastPage) = (5 - 1) mod (2 * 2) + 1.
Proof.
  intros st. split.
  { split; [reflexivity|]. split; [lia|]. split; [lia|].
    split; [vm_compute; discriminate|discriminate]. }
  destruct (pages_are_filled_in_order st 2 2 [11; 12; 13; 14; 15]%nat
              eq_refl ltac:(lia) ltac:(lia)
              ltac:(vm_compute; discriminate) ltac:(discriminate))
    as (res & full & lastPage & E & P & _ & L & _).
  exists res, full, lastPage. split; [exact E|]. split; [exact P|exact L].
Defined.

(* ----------------------------------------------------------------- *)
(** *** The boxes of the grid *)

Lemma fsub_exact a b :
  0 <= b <= a -> a < 2 ^ 53 -> fsub (of_Z a) (of_Z b) = of_Z (a - b).
Proof.
  intros H Ha. pose proof U_pos as HU. pose proof MAXU_big as HM.
  rewrite !of_Z_exact by lia. unfold fsub. cbn [fneg fadd].
  replace (a * U + - (b * U)) with ((a - b) * U * 1) by ring.
  assert (G0 : 0 <= (a - b) * U) by (apply Z.mul_nonneg_nonneg; lia).
  assert (GM : (a - b) * U <= MAXU).
  { assert ((a - b) * U <= 2 ^ 53 * U)
      by (apply Z.mul_le_mono_nonneg_r; lia).
    lia. }
  apply (fl_exact _ 1 ltac:(lia) G0 (repr_int (a - b) ltac:(lia)) GM).
Qed.

(** Values on the grid of [2^-10]: [K * 2^1064] units for [K] below
    [2^53]. *)
Lemma fine_grid K :
  0 <= K < 2 ^ 53 ->
  0 <= K * 2 ^ (1074 - 10) /\ repr (K * 2 ^ (1074 - 10))
  /\ K * 2 ^ (1074 - 10) <= MAXU.
Proof.
  intros HK. pose proof MAXU_big as HM. pose proof U_pos as HU.
  pose proof (U_split 10 ltac:(lia)) as S.
  assert (P : 0 < 2 ^ (1074 - 10)) by (apply pow2_pos; lia).
  split; [apply Z.mul_nonneg_nonneg; lia|].
  split; [apply repr_frac; lia|].
  assert (K * 2 ^ (1074 - 10) <= 2 ^ 53 * 2 ^ (1074 - 10))
    by (apply Z.mul_le_mono_nonneg_r; lia).
  assert (2 ^ 53 * 2 ^ (1074 - 10) <= 2 ^ 53 * U).
  { apply Z.mul_le_mono_nonneg_l; [lia|]. rewrite S.
    rewrite <- (Z.mul_1_l (2 ^ (1074 - 10))) at 1.
    apply Z.mul_le_mono_nonneg_r; lia. }
  lia.
Qed.

Section Axis.

(** One axis of the grid: [A] millimetres are divided into [n] cells that
    start at [lead]; the images are drawn [m / 2] shorter than a cell. *)
Variables A n lead m : Z.
Hypothesis HA : 0 < A < 2 ^ 20.
Hypothesis Hn : 1 <= n < 2 ^ 10.
Hypothesis Hl : 0 <= lead < 2 ^ 20.
Hypothesis Hm : 0 <= m < 2 ^ 20.
Hypothesis Hpos : 512 * m < 1024 * A / n.

Let q := 1024 * A / n.
Let G := 2 ^ (1074 - 10).

Lemma axis_facts :
  0 < G /\ U = 1024 * G /\ n * q <= 1024 * A < n * q + n /\ 0 <= q < 2 ^ 31.
Proof.
  assert (P : 0 < G) by (apply pow2_pos; lia).
  pose proof (U_split 10 ltac:(lia)) as S. fold G in S.
  change (2 ^ 10) with 1024 in S.
  pose proof (Z.mul_div_le (1024 * A) n ltac:(lia)) as D1.
  pose proof (Z.mul_succ_div_gt (1024 * A) n ltac:(lia)) as D2.
  fold q in D1, D2.
  assert (Q0 : 0 <= q) by (apply Z.div_pos; lia).
  assert (Q1 : q <= 1024 * A).
  { unfold q. apply Z.div_le_upper_bound; [lia|].
    rewrite <- (Z.mul_1_l (1024 * A)) at 1.
    apply Z.mul_le_mono_nonneg_r; lia. }
  repeat split; try assumption; lia.
Qed.

Lemma axis_size :
  exists w z,
    fdiv (of_Z A) (of_Z n) = Fin w
    /\ fsub (Fin w) (fdiv (of_Z m) (of_Z 2)) = Fin z
    /\ q * G <= w <= (q + 1) * G
    /\ (q - 512 * m) * G <= z <= (q + 1 - 512 * m) * G.
Proof.
  destruct axis_facts as (PG & EU & (D1 & D2) & Q0 & Q1).
  pose proof U_pos as HU.
  assert (GU : 0 <= G * U) by (apply Z.mul_nonneg_nonneg; lia).
  destruct (fine_grid q ltac:(lia)) as (L0 & LR & _).
  destruct (fine_grid (q + 1) ltac:(lia)) as (_ & HR & HM).
  fold G in L0, LR, HR, HM.
  destruct (fl_between (A * U * U) (n * U) (q * G) ((q + 1) * G))
    as (w & Ew & Bw); try assumption.
  { apply Z.mul_pos_pos; lia. }
  { replace (q * G * (n * U)) with (n * q * (G * U)) by ring.
    replace (A * U * U) with (1024 * A * (G * U)) by (rewrite EU; ring).
    apply Z.mul_le_mono_nonneg_r; lia. }
  { replace ((q + 1) * G * (n * U)) with ((n * q + n) * (G * U)) by ring.
    replace (A * U * U) with (1024 * A * (G * U)) by (rewrite EU; ring).
    apply Z.mul_le_mono_nonneg_r; lia. }
  destruct (fine_grid (512 * m) ltac:(lia)) as (M0 & MR & MM).
  fold G in M0, MR, MM.
  assert (Eh : fdiv (of_Z m) (of_Z 2) = Fin (512 * m * G)).
  { rewrite fdiv_int by lia.
    replace (m * U * U) with (512 * m * G * (2 * U)) by (rewrite EU; ring).
    apply fl_exact; assumption || lia. }
  destruct (fine_grid (q - 512 * m) ltac:(lia)) as (Z0 & ZR & _).
  destruct (fine_grid (q + 1 - 512 * m) ltac:(lia)) as (_ & ZR' & ZM').
  fold G in Z0, ZR, ZR', ZM'.
  destruct (fl_between (w + - (512 * m * G)) 1 ((q - 512 * m) * G)
              ((q + 1 - 512 * m) * G)) as (z & Ez & Bz);
    try assumption; try lia.
  exists w, z. split; [rewrite fdiv_int by lia; exact Ew|].
  split; [rewrite Eh; unfold fsub; cbn [fneg fadd]; exact Ez|].
  split; assumption.
Qed.

Lemma axis_start w k :
  0 <= k < 2 ^ 10 ->
  q * G <= w <= (q + 1) * G ->
  exists s,
    fadd (of_Z lead) (fmul (of_Z k) (Fin w)) = Fin s
    /\ (1024 * lead + k * q) * G <= s <= (1024 * lead + k * (q + 1)) * G.
Proof.
  intros Hk Bw.
  destruct axis_facts as (PG & EU & (D1 & D2) & Q0 & Q1).
  pose proof U_pos as HU.
  assert (KQ : 0 <= k * q) by (apply Z.mul_nonneg_nonneg; lia).
  assert (KQ' : k * q < 2 ^ 41).
  { assert (k * q <= 2 ^ 10 * q) by (apply Z.mul_le_mono_nonneg_r; lia).
    lia. }
  destruct (fine_grid (k * q) ltac:(lia)) as (T0 & TR & _).
  destruct (fine_grid (k * (q + 1)) ltac:(lia)) as (_ & TR' & TM').
  fold G in T0, TR, TR', TM'.
  destruct (fl_between (k * U * w) U (k * q * G) (k * (q + 1) * G))
    as (t & Et & Bt); try assumption.
  { replace (k * q * G * U) with (k * U * (q * G)) by ring.
    apply Z.mul_le_mono_nonneg_l; [apply Z.mul_nonneg_nonneg|]; lia. }
  { replace (k * (q + 1) * G * U) with (k * U * ((q + 1) * G)) by ring.
    apply Z.mul_le_mono_nonneg_l; [apply Z.mul_nonneg_nonneg|]; lia. }
  destruct (fine_grid (1024 * lead + k * q) ltac:(lia)) as (S0 & SR & _).
  destruct (fine_grid (1024 * lead + k * (q + 1)) ltac:(lia))
    as (_ & SR' & SM').
  fold G in S0, SR, SR', SM'.
  destruct (fl_between (lead * U + t) 1 ((1024 * lead + k * q) * G)
              ((1024 * lead + k * (q + 1)) * G)) as (s & Es & Bs);
    try assumption; try lia.
  exists s. rewrite !of_Z_exact by lia. cbn [fmul]. rewrite Et.
  cbn [fadd]. split; [exact Es|exact Bs].
Qed.

(** A cell's image starts at or after [lead], has a positive length and
    ends at or before [lead + A]. *)
Lemma axis_within k :
  0 <= k < n -> n <= 512 * m ->
  spanWithin
    (fadd (of_Z lead) (fmul (of_Z k) (fdiv (of_Z A) (of_Z n))))
    (fsub (fdiv (of_Z A) (of_Z n)) (fdiv (of_Z m) (of_Z 2)))
    (of_Z lead) (of_Z (lead + A)) = true.
Proof.
  intros Hk Hnm.
  destruct axis_facts as (PG & EU & (D1 & D2) & Q0 & Q1).
  destruct axis_size as (w & z & Ew & Ez & Bw & Bz).
  destruct (axis_start w k ltac:(lia) Bw) as (s & Es & Bs).
  rewrite Ew, Es, Ez, !of_Z_exact by lia. cbn [spanWithin].
  assert (KQ : 0 <= k * q) by (apply Z.mul_nonneg_nonneg; lia).
  assert (K1 : (k + 1) * (q + 1) <= n * (q + 1))
    by (apply Z.mul_le_mono_nonneg_r; lia).
  assert (L1 : lead * U <= s).
  { assert (1024 * lead * G <= (1024 * lead + k * q) * G)
      by (apply Z.mul_le_mono_nonneg_r; lia).
    rewrite EU. lia. }
  assert (L2 : 0 < z).
  { assert (0 < (q - 512 * m) * G) by (apply Z.mul_pos_pos; lia). lia. }
  assert (L3 : s + z <= (lead + A) * U).
  { assert ((1024 * lead + k * (q + 1)) * G + (q + 1 - 512 * m) * G
            <= 1024 * (lead + A) * G).
    { rewrite <- Z.mul_add_distr_r.
      apply Z.mul_le_mono_nonneg_r; lia. }
    rewrite EU. lia. }
  apply andb_true_intro. split; [apply andb_true_intro; split|].
  - apply Z.leb_le, L1.
  - apply Z.ltb_lt, L2.
  - apply Z.leb_le, L3.
Qed.

(** The image of a cell ends at or before the start of any later cell. *)
Lemma axis_apart k1 k2 :
  0 <= k1 < k2 -> k2 < n -> n <= 512 * m ->
  spanBefore
    (fadd (of_Z lead) (fmul (of_Z k1) (fdiv (of_Z A) (of_Z n))))
    (fsub (fdiv (of_Z A) (of_Z n)) (fdiv (of_Z m) (of_Z 2)))
    (fadd (of_Z lead) (fmul (of_Z k2) (fdiv (of_Z A) (of_Z n)))) = true.
Proof.
  intros Hk1 Hk2 Hnm.
  destruct axis_facts as (PG & EU & (D1 & D2) & Q0 & Q1).
  destruct axis_size as (w & z & Ew & Ez & Bw & Bz).
  destruct (axis_start w k1 ltac:(lia) Bw) as (s1 & Es1 & Bs1).
  destruct (axis_start w k2 ltac:(lia) Bw) as (s2 & Es2 & Bs2).
  rewrite Ew, Es1, Es2, Ez. cbn [spanBefore]. apply Z.leb_le.
  assert (K1 : (k1 + 1) * q <= k2 * q)
    by (apply Z.mul_le_mono_nonneg_r; lia).
  assert ((1024 * lead + k1 * (q + 1)) * G + (q + 1 - 512 * m) * G
          <= (1024 * lead + k2 * q) * G).
  { rewrite <- Z.mul_add_distr_r.
    apply Z.mul_le_mono_nonneg_r; lia. }
  lia.
Qed.

End Axis.

Lemma entry_is_placement {Image : Type} (st : PdfSettings)
  (images : list Image) res i e :
  generatePDF st images = Some res ->
  nth_error (List.concat (pages (document res))) i = Some e ->
  exists im,
    nth_error images i = Some im
    /\ e = placement st (pageLayout st) i im.
Proof.
  intros Hg He.
  destruct images as [|im0 rest] eqn:Ei; [discriminate Hg|].
  rewrite <- Ei in *.
  assert (Er : document res
               = placeImages st (pageLayout st) 0 images newPdf).
  { rewrite Ei in Hg |- *. cbn [generatePDF] in Hg.
    injection Hg as <-. reflexivity. }
  rewrite Er, (placeImages_concat st images 0 newPdf) in He.
  cbn [pages newPdf finished current List.concat app] in He.
  rewrite nth_error_map in He.
  destruct (nth_error images i) as [im|] eqn:En.
  - rewrite (nth_error_combine_seq images 0 i im En) in He.
    cbn [option_map fst snd Nat.add] in He. injection He as <-.
    exists im. split; reflexivity.
  - exfalso. apply nth_error_None in En.
    assert (N : nth_error (combine (seq 0 (List.length images)) images) i
                = None).
    { apply nth_error_None. rewrite length_combine, length_seq. lia. }
    rewrite N in He. discriminate He.
Qed.

Lemma margin_offered st :
  In (margin st) marginSteps -> exists m, margin st = of_Z m /\ 5 <= m <= 30.
Proof.
  unfold marginSteps. intros H. apply in_map_iff in H.
  destruct H as (m & E & I). exists m. split; [symmetry; exact E|].
  cbn [In] in I. lia.
Qed.

Lemma page_offered st :
  exists pw ph,
    orientedPage st = pixels pw ph /\ 210 <= pw <= 432 /\ 210 <= ph <= 432.
Proof.
  unfold orientedPage, PAGE_SIZES.
  destruct (orientation st), (pageSize st); cbn [width height];
    do 2 eexists; (split; [reflexivity|lia]).
Qed.

Lemma layout_parts st :
  availableWidth (pageLayout st)
  = fsub (width (orientedPage st)) (fmul (of_Z 2) (margin st))
  /\ availableHeight (pageLayout st)
     = fsub (fsub (height (orientedPage st)) (fmul (of_Z 2) (margin st)))
         (titleSpace (pageLayout st))
  /\ horizontalSpacing (pageLayout st) = margin st
  /\ (titleSpace (pageLayout st) = of_Z 0
      \/ titleSpace (pageLayout st) = of_Z 20).
Proof.
  unfold pageLayout, orientedPage.
  destruct (orientation st), (nonEmpty (title st));
    cbn [availableWidth availableHeight horizontalSpacing titleSpace
         width height];
    repeat split; auto.
Qed.

Lemma grid_offered st :
  (imageLayout st = custom ->
   exists r c, 1 <= r <= 5 /\ 1 <= c <= 5
               /\ customRows st = of_Z r /\ customCols st = of_Z c) ->
  exists r c,
    1 <= r <= 5 /\ 1 <= c <= 5
    /\ layoutGrid st
       = {| imagesPerPage := of_Z (r * c); cols := of_Z c; rows := of_Z r |}.
Proof.
  intros H. unfold layoutGrid. destruct (imageLayout st).
  - exists 1, 1. repeat split; lia.
  - exists 2, 1. repeat split; lia.
  - exists 2, 2. repeat split; lia.
  - destruct (H eq_refl) as (r & c & Hr & Hc & Er & Ec).
    exists r, c. split; [exact Hr|]. split; [exact Hc|].
    rewrite Er, Ec, fmul_int by nia.
    rewrite (Z.mul_comm c r). reflexivity.
Qed.

Section Cell.

Context {Image : Type}.
Variable st : PdfSettings.
Variables r c m pw ph ts : Z.
Hypothesis Hgrid :
  layoutGrid st
  = {| imagesPerPage := of_Z (r * c); cols := of_Z c; rows := of_Z r |}.
Hypothesis Hr : 1 <= r <= 5.
Hypothesis Hc : 1 <= c <= 5.
Hypothesis Em : margin st = of_Z m.
Hypothesis Hm : 5 <= m <= 30.
Hypothesis Ep : orientedPage st = pixels pw ph.
Hypothesis Hpw : 210 <= pw <= 432.
Hypothesis Hph : 210 <= ph <= 432.
Hypothesis Et : titleSpace (pageLayout st) = of_Z ts.
Hypothesis Hts : 0 <= ts <= 20.

Lemma cell_box (i : nat) (im : Image) :
  Z.of_nat i <= 2 ^ 32 ->
  let e := placement st (pageLayout st) i im in
  let col := (Z.of_nat i mod (r * c)) mod c in
  let row := Z.of_nat i mod (r * c) / c in
  0 <= col < c /\ 0 <= row < r
  /\ pageIndex e = of_Z (Z.of_nat i / (r * c))
  /\ x e = fadd (of_Z m)
             (fmul (of_Z col) (fdiv (of_Z (pw - 2 * m)) (of_Z c)))
  /\ drawWidth e
     = fsub (fdiv (of_Z (pw - 2 * m)) (of_Z c)) (fdiv (of_Z m) (of_Z 2))
  /\ y e = fadd (of_Z (m + ts))
             (fmul (of_Z row) (fdiv (of_Z (ph - 2 * m - ts)) (of_Z r)))
  /\ drawHeight e
     = fsub (fdiv (of_Z (ph - 2 * m - ts)) (of_Z r))
         (fdiv (of_Z m) (of_Z 2))
  /\ verticalSpacing (pageLayout st) = of_Z (m + ts)
  /\ fsub (width (orientedPage st)) (margin st)
     = of_Z (m + (pw - 2 * m))
  /\ fsub (height (orientedPage st)) (margin st)
     = of_Z (m + ts + (ph - 2 * m - ts)).
Proof.
  intros Hi e col row.
  assert (P1 : 1 <= r * c <= 25) by nia.
  pose proof (Z.mod_pos_bound (Z.of_nat i) (r * c) ltac:(lia)) as M.
  pose proof (Z.mod_pos_bound (Z.of_nat i mod (r * c)) c ltac:(lia)) as Mc.
  assert (R0 : 0 <= row) by (apply Z.div_pos; lia).
  assert (R1 : row < r).
  { apply Z.div_lt_upper_bound; lia. }
  destruct (placement_indices st r c Hgrid ltac:(lia) ltac:(lia) i im
              ltac:(lia)) as (_ & _ & E3 & E4 & E5 & E6 & E7).
  fold e in E3, E4, E5, E6, E7.
  destruct (spacing_pageLayout st) as (V & W & H).
  destruct (layout_parts st) as (AW & AH & HS & _).
  rewrite Hgrid in W, H. cbn [cols rows] in W, H.
  rewrite AW, Ep, Em in W. rewrite AH, Ep, Em, Et in H.
  unfold pixels in W, H. cbn [width height] in W, H.
  rewrite fmul_int, fsub_exact in W by lia.
  rewrite fmul_int, !fsub_exact in H by lia.
  rewrite Em, Et, fadd_exact in V by lia.
  split; [exact Mc|]. split; [lia|]. split; [exact E3|].
  split; [rewrite E6, E5, W, Em; reflexivity|].
  split.
  { unfold e, placement. cbn [drawWidth]. rewrite W, HS, Em. reflexivity. }
  split.
  { rewrite E7, E4, H, Em, Et, fadd_exact by lia. reflexivity. }
  split.
  { unfold e, placement. cbn [drawHeight]. rewrite H, HS, Em. reflexivity. }
  split; [exact V|].
  rewrite Ep, Em. unfold pixels. cbn [width height].
  rewrite !fsub_exact by lia.
  split; f_equal; lia.
Qed.

Lemma cell_inside (i : nat) (im : Image) :
  Z.of_nat i <= 2 ^ 32 ->
  let e := placement st (pageLayout st) i im in
  spanWithin (x e) (drawWidth e) (margin st)
    (fsub (width (orientedPage st)) (margin st)) = true
  /\ spanWithin (y e) (drawHeight e) (verticalSpacing (pageLayout st))
       (fsub (height (orientedPage st)) (margin st)) = true.
Proof.
  intros Hi e.
  destruct (cell_box i im Hi)
    as (C & R & _ & Ex & Ew & Ey & Eh & Ev & Hw & Hh).
  fold e in Ex, Ew, Ey, Eh.
  rewrite Ex, Ew, Ey, Eh, Ev, Hw, Hh, Em.
  split.
  - apply axis_within; try lia.
    apply Z.lt_le_trans with 15361;
      [lia|apply Z.div_le_lower_bound; lia].
  - apply axis_within; try lia.
    apply Z.lt_le_trans with 15361;
      [lia|apply Z.div_le_lower_bound; lia].
Qed.

Lemma cells_apart (i1 i2 : nat) (im1 im2 : Image) :
  (i1 < i2)%nat -> Z.of_nat i2 <= 2 ^ 32 ->
  let e1 := placement st (pageLayout st) i1 im1 in
  let e2 := placement st (pageLayout st) i2 im2 in
  pageIndex e1 = pageIndex e2 ->
  spanBefore (x e1) (drawWidth e1) (x e2) = true
  \/ spanBefore (y e1) (drawHeight e1) (y e2) = true.
Proof.
  intros Hlt Hi e1 e2 Hp.
  destruct (cell_box i1 im1 ltac:(lia))
    as (C1 & R1 & P1 & Ex1 & Ew1 & Ey1 & Eh1 & _).
  destruct (cell_box i2 im2 Hi)
    as (C2 & R2 & P2 & Ex2 & _ & Ey2 & _ & _).
  fold e1 in P1, Ex1, Ew1, Ey1, Eh1. fold e2 in P2, Ex2, Ey2.
  assert (B : 1 <= r * c <= 25) by nia.
  set (P := r * c) in *.
  pose proof (Z.div_mod (Z.of_nat i1) P ltac:(lia)) as D1.
  pose proof (Z.div_mod (Z.of_nat i2) P ltac:(lia)) as D2.
  pose proof (Z.mod_pos_bound (Z.of_nat i1) P ltac:(lia)) as M1.
  pose proof (Z.mod_pos_bound (Z.of_nat i2) P ltac:(lia)) as M2.
  assert (Q : Z.of_nat i1 / P = Z.of_nat i2 / P).
  { rewrite P1, P2 in Hp.
    assert (0 <= Z.of_nat i1 / P <= Z.of_nat i1).
    { split; [apply Z.div_pos; lia|apply Z.div_le_upper_bound; nia]. }
    assert (0 <= Z.of_nat i2 / P <= Z.of_nat i2).
    { split; [apply Z.div_pos; lia|apply Z.div_le_upper_bound; nia]. }
    apply of_Z_inj in Hp; lia. }
  set (a1 := Z.of_nat i1 mod P) in *. set (a2 := Z.of_nat i2 mod P) in *.
  assert (A : a1 < a2).
  { rewrite Q in D1. lia. }
  pose proof (Z.div_mod a1 c ltac:(lia)) as Da1.
  pose proof (Z.div_mod a2 c ltac:(lia)) as Da2.
  assert (Rle : a1 / c <= a2 / c) by (apply Z.div_le_mono; lia).
  destruct (Z.eq_dec (a1 / c) (a2 / c)) as [Req|Rne].
  - left. rewrite Ex1, Ew1, Ex2.
    assert (a1 mod c < a2 mod c) by (rewrite Req in Da1; lia).
    pose proof (Z.mod_pos_bound a1 c ltac:(lia)).
    pose proof (Z.mod_pos_bound a2 c ltac:(lia)).
    apply axis_apart; try lia.
    apply Z.lt_le_trans with 15361;
      [lia|apply Z.div_le_lower_bound; lia].
  - right. rewrite Ey1, Eh1, Ey2.
    assert (0 <= a1 / c) by (apply Z.div_pos; lia).
    assert (a2 / c < r) by (apply Z.div_lt_upper_bound; lia).
    apply axis_apart; try lia.
    apply Z.lt_le_trans with 15361;
      [lia|apply Z.div_le_lower_bound; lia].
Qed.

End Cell.

(** X26. With a margin of the slider, a page of the list and a grid of at
    most five rows and columns, every image is drawn with a positive width
    and height inside the margins of the page, below the space kept for the
    title. *)
Theorem images_stay_inside_margins
  {Image : Type} (st : PdfSettings) (images : list Image)
  (res : PdfResult) (i : nat) (e : Placement) :
  In (margin st) marginSteps ->
  (imageLayout st = custom ->
   exists r c, 1 <= r <= 5 /\ 1 <= c <= 5
               /\ customRows st = of_Z r /\ customCols st = of_Z c) ->
  Z.of_nat (List.length images) <= 2 ^ 32 ->
  generatePDF st images = Some res ->
  nth_error (List.concat (pages (document res))) i = Some e ->
  spanWithin (x e) (drawWidth e) (margin st)
    (fsub (width (orientedPage st)) (margin st)) = true
  /\ spanWithin (y e) (drawHeight e) (verticalSpacing (pageLayout st))
       (fsub (height (orientedPage st)) (margin st)) = true.
Proof.
  intros Hm Hc Hn Hg He.
  destruct (entry_is_placement st images res i e Hg He) as (im & Ei & ->).
  assert (Li : (i < List.length images)%nat).
  { apply nth_error_Some. rewrite Ei. discriminate. }
  destruct (margin_offered st Hm) as (m & Em & Bm).
  destruct (page_offered st) as (pw & ph & Ep & Bw & Bh).
  destruct (grid_offered st Hc) as (r & c & Br & Bc & Eg).
  destruct (layout_parts st) as (_ & _ & _ & [T|T]).
  - apply (cell_inside st r c m pw ph 0); try assumption; lia.
  - apply (cell_inside st r c m pw ph 20); try assumption; lia.
Qed.

Lemma images_stay_inside_margins_witness :
  let st := {| pageSize := a4; orientation := landscape;
               imageLayout := custom; margin := of_Z 5;
               title := lit "Trip";
               customRows := of_Z 3; customCols := of_Z 5;
               pdfFilename := lit "photos" |} in
  exists res e,
    generatePDF st [11; 12; 13; 14; 15; 16; 17]%nat = Some res
    /\ nth_error (List.concat (pages (document res))) 6 = Some e
    /\ spanWithin (x e) (drawWidth e) (margin st)
         (fsub (width (orientedPage st)) (margin st)) = true.
Proof.
  intros st.
  set (images := [11; 12; 13; 14; 15; 16; 17]%nat).
  set (res := {| document := placeImages st (pageLayout st) 0 images newPdf;
                 totalPages :=
                   jsCeil (fdiv (of_nat (List.length images))
                             (imagesPerPage (grid (pageLayout st))));
                 savedAs := saveName (pdfFilename st) |}).
  assert (G : generatePDF st images = Some res) by reflexivity.
  assert (N : nth_error (List.concat (pages (document res))) 6
              = Some (placement st (pageLayout st) 6 17%nat)).
  { unfold res. cbn [document].
    rewrite (placeImages_concat st images 0 newPdf). reflexivity. }
  exists res, (placement st (pageLayout st) 6 17%nat).
  split; [exact G|]. split; [exact N|].
  assert (M : In (margin st) marginSteps)
    by (apply (in_map of_Z [5; 10; 15; 20; 25; 30] 5); left; reflexivity).
  assert (C : imageLayout st = custom ->
              exists r c, 1 <= r <= 5 /\ 1 <= c <= 5
                          /\ customRows st = of_Z r
                          /\ customCols st = of_Z c)
    by (intros _; exists 3, 5; repeat split; lia).
  assert (L : Z.of_nat (List.length images) <= 2 ^ 32) by (cbn; lia).
  destruct (images_stay_inside_margins st images res 6
              (placement st (pageLayout st) 6 17%nat) M C L G N) as [W _].
  exact W.
Defined.

(** X27. Under the same settings two images of one page never overlap: the
    earlier one ends before the later one starts, along the width or along
    the height. *)
Theorem images_do_not_overlap
  {Image : Type} (st : PdfSettings) (images : list Image)
  (res : PdfResult) (i1 i2 : nat) (e1 e2 : Placement) :
  In (margin st) marginSteps ->
  (imageLayout st = custom ->
   exists r c, 1 <= r <= 5 /\ 1 <= c <= 5
               /\ customRows st = of_Z r /\ customCols st = of_Z c) ->
  Z.of_nat (List.length images) <= 2 ^ 32 ->
  generatePDF st images = Some res ->
  nth_error (List.concat (pages (document res))) i1 = Some e1 ->
  nth_error (List.concat (pages (document res))) i2 = Some e2 ->
  (i1 < i2)%nat ->
  pageIndex e1 = pageIndex e2 ->
  spanBefore (x e1) (drawWidth e1) (x e2) = true
  \/ spanBefore (y e1) (drawHeight e1) (y e2) = true.
Proof.
  intros Hm Hc Hn Hg He1 He2 Hlt Hp.
  destruct (entry_is_placement st images res i1 e1 Hg He1)
    as (im1 & Ei1 & ->).
  destruct (entry_is_placement st images res i2 e2 Hg He2)
    as (im2 & Ei2 & ->).
  assert (Li : (i2 < List.length images)%nat).
  { apply nth_error_Some. rewrite Ei2. discriminate. }
  destruct (margin_offered st Hm) as (m & Em & Bm).
  destruct (page_offered st) as (pw & ph & Ep & Bw & Bh).
  destruct (grid_offered st Hc) as (r & c & Br & Bc & Eg).
  destruct (layout_parts st) as (_ & _ & _ & [T|T]).
  - apply (cells_apart st r c m pw ph 0); try assumption; lia.
  - apply (cells_apart st r c m pw ph 20); try assumption; lia.
Qed.

Lemma images_do_not_overlap_witness :
  let st := {| pageSize := a4; orientation := landscape;
               imageLayout := custom; margin := of_Z 5;
               title := lit "Trip";
               customRows := of_Z 3; customCols := of_Z 5;
               pdfFilename := lit "photos" |} in
  let e1 := placement st (pageLayout st) 3 14%nat in
  let e2 := placement st (pageLayout st) 6 17%nat in
  pageIndex e1 = pageIndex e2
  /\ (spanBefore (x e1) (drawWidth e1) (x e2) = true
      \/ spanBefore (y e1) (drawHeight e1) (y e2) = true).
Proof.
  intros st e1 e2.
  set (images := [11; 12; 13; 14; 15; 16; 17]%nat).
  set (res := {| document := placeImages st (pageLayout st) 0 images newPdf;
                 totalPages :=
                   jsCeil (fdiv (of_nat (List.length images))
                             (imagesPerPage (grid (pageLayout st))));
                 savedAs := saveName (pdfFilename st) |}).
  assert (G : generatePDF st images = Some res) by reflexivity.
  assert (N1 : nth_error (List.concat (pages (document res))) 3 = Some e1).
  { unfold res. cbn [document].
    rewrite (placeImages_concat st images 0 newPdf). reflexivity. }
  assert (N2 : nth_error (List.concat (pages (document res))) 6 = Some e2).
  { unfold res. cbn [document].
    rewrite (placeImages_concat st images 0 newPdf). reflexivity. }
  assert (P : pageIndex e1 = pageIndex e2) by (vm_compute; reflexivity).
  split; [exact P|].
  assert (M : In (margin st) marginSteps)
    by (apply (in_map of_Z [5; 10; 15; 20; 25; 30] 5); left; reflexivity).
  assert (C : imageLayout st = custom ->
              exists r c, 1 <= r <= 5 /\ 1 <= c <= 5
                          /\ customRows st = of_Z r
                          /\ customCols st = of_Z c)
    by (intros _; exists 3, 5; repeat split; lia).
  assert (L : Z.of_nat (List.length images) <= 2 ^ 32) by (cbn; lia).
  exact (images_do_not_overlap st images res 3 6 e1 e2 M C L G N1 N2
           ltac:(lia) P).
Defined.

(* ----------------------------------------------------------------- *)
(** *** Uploading *)

Lemma createPreviews_log n loads :
  0 < n < 2 ^ 53 ->
  forall remaining i s,
    Z.of_nat i + Z.of_nat remaining <= n ->
    exists done,
      createPreviews record (of_Z n) loads i remaining s
      = (Nat.eqb done remaining,
         s ++ List.map (fun j => Fin (zipProgressU (Z.of_nat j + 1) n))
                (seq i done))
      /\ (done <= remaining)%nat
      /\ (forall j, (i <= j < i + done)%nat -> loads j = true)
      /\ ((done < remaining)%nat -> loads (i + done)%nat = false).
Proof.
  intros Hn. induction remaining as [|r IH]; intros i s Hi;
    cbn [createPreviews].
  - exists 0%nat. cbn [seq List.map Nat.eqb]. rewrite app_nil_r.
    split; [reflexivity|]. split; [lia|]. split; intros; lia.
  - destruct (loads i) eqn:L.
    + unfold of_nat. rewrite fadd_exact by lia.
      destruct (zipProgress_value (Z.of_nat i + 1) n ltac:(lia) ltac:(lia))
        as [E _].
      rewrite E.
      destruct (IH (S i) (record (Fin (zipProgressU (Z.of_nat i + 1) n)) s)
                  ltac:(lia)) as (d & Ed & Ld & Al & St).
      exists (S d). rewrite Ed. cbn [Nat.eqb seq List.map].
      unfold record. rewrite <- app_assoc. cbn [app].
      split; [reflexivity|]. split; [lia|]. split.
      * intros j Hj. destruct (Nat.eq_dec j i) as [->|N]; [exact L|].
        apply Al. lia.
      * intros Hd. replace (i + S d)%nat with (S i + d)%nat by lia.
        apply St. lia.
    + exists 0%nat. cbn [seq List.map Nat.eqb]. rewrite app_nil_r.
      split; [reflexivity|]. split; [lia|]. split; [intros; lia|].
      intros _. rewrite Nat.add_0_r. exact L.
Qed.

(** X28. While previews are made the upload progress starts at 0, never
    goes down and never exceeds 100, with one report for each file whose
    preview has loaded.  The function returns exactly when every preview
    loads, and then the last report is 100; a file that never loads stops
    it there. *)
Theorem upload_progress_profile (totalFiles : nat) (loads : nat -> bool) :
  (0 < totalFiles)%nat -> Z.of_nat totalFiles < 2 ^ 32 ->
  exists done rest,
    processFiles record totalFiles loads []
    = (Nat.eqb done totalFiles, of_Z 0 :: rest)
    /\ List.length rest = done /\ (done <= totalFiles)%nat
    /\ (forall j, (j < done)%nat -> loads j = true)
    /\ ((done < totalFiles)%nat -> loads done = false)
    /\ StronglySorted num_le (of_Z 0 :: rest)
    /\ Forall (fun p => num_le p (of_Z 100)) rest
    /\ (done = totalFiles -> last rest NaN = of_Z 100).
Proof.
  intros H0 Hn. pose proof U_pos as HU.
  assert (PF : processFiles record totalFiles loads []
               = createPreviews record (of_nat totalFiles) loads 0 totalFiles
                   (record (of_Z 0) [])).
  { unfold processFiles. destruct totalFiles; [lia|reflexivity]. }
  set (n := totalFiles) in *.
  set (g := fun j => zipProgressU (Z.of_nat j + 1) (Z.of_nat n)).
  assert (B : forall j, (j < n)%nat -> 0 <= g j <= 100 * U).
  { intros j Hj. unfold g.
    apply (zipProgress_value (Z.of_nat j + 1) (Z.of_nat n)); lia. }
  destruct (createPreviews_log (Z.of_nat n) loads ltac:(lia) n 0%nat
              (record (of_Z 0) []) ltac:(lia))
    as (d & E & Ld & Al & St).
  exists d, (List.map Fin (List.map g (seq 0 d))).
  split.
  { rewrite PF. unfold of_nat. rewrite E. unfold record.
    cbn [app]. rewrite map_map. reflexivity. }
  split; [rewrite !length_map, length_seq; reflexivity|].
  split; [exact Ld|]. split; [intros j Hj; apply Al; lia|].
  split; [exact St|]. split; [|split].
  - rewrite of_Z_exact by lia.
    change (StronglySorted num_le
              (List.map Fin (0 * U :: List.map g (seq 0 d)))).
    apply sorted_Fin. constructor.
    + apply sorted_map_seq. intros i j H1 H2 H3.
      unfold g. apply zipProgressU_mono; lia.
    + apply Forall_map, Forall_forall. intros j Hj. apply in_seq in Hj.
      specialize (B j ltac:(lia)). lia.
  - rewrite map_map. apply Forall_map, Forall_forall. intros j Hj.
    apply in_seq in Hj. rewrite of_Z_exact by lia. apply num_le_Fin.
    specialize (B j ltac:(lia)). lia.
  - intros ->. destruct n as [|n']; [lia|].
    rewrite seq_S, !map_app. cbn [List.map Nat.add]. rewrite last_last.
    rewrite of_Z_exact by lia. f_equal. unfold g.
    replace (Z.of_nat n' + 1) with (Z.of_nat (S n')) by lia.
    apply zipProgressU_all. lia.
Qed.

Lemma upload_progress_profile_witness :
  (0 < 3)%nat /\ Z.of_nat 3 < 2 ^ 32
  /\ exists done rest,
       processFiles record 3 (fun j => negb (Nat.eqb j 2)) []
       = (Nat.eqb done 3, of_Z 0 :: rest)
       /\ List.length rest = done
       /\ ((done < 3)%nat -> negb (Nat.eqb done 2) = false).
Proof.
  split; [lia|]. split; [vm_compute; reflexivity|].
  destruct (upload_progress_profile 3 (fun j => negb (Nat.eqb j 2))
              ltac:(lia) ltac:(vm_compute; reflexivity))
    as (done & rest & E & L & _ & _ & S & _).
  exists done, rest. split; [exact E|]. split; [exact L|exact S].
Defined.

(* ----------------------------------------------------------------- *)
(** *** Converting a batch *)

(** Values on the grid of [2^-t]. *)
Lemma grid_value t K :
  0 <= t <= 1074 -> 0 <= K < 2 ^ 53 ->
  0 <= K * 2 ^ (1074 - t) /\ repr (K * 2 ^ (1074 - t))
  /\ K * 2 ^ (1074 - t) <= MAXU.
Proof.
  intros Ht HK. pose proof MAXU_big as HM. pose proof U_pos as HU.
  pose proof (U_split t Ht) as S.
  assert (P : 0 < 2 ^ (1074 - t)) by (apply pow2_pos; lia).
  assert (Q : 0 < 2 ^ t) by (apply pow2_pos; lia).
  split; [apply Z.mul_nonneg_nonneg; lia|].
  split; [apply repr_frac; lia|].
  assert (K * 2 ^ (1074 - t) <= 2 ^ 53 * 2 ^ (1074 - t))
    by (apply Z.mul_le_mono_nonneg_r; lia).
  assert (2 ^ 53 * 2 ^ (1074 - t) <= 2 ^ 53 * U).
  { apply Z.mul_le_mono_nonneg_l; [lia|]. rewrite S.
    rewrite <- (Z.mul_1_l (2 ^ (1074 - t))) at 1.
    apply Z.mul_le_mono_nonneg_r; lia. }
  lia.
Qed.

(** The reports do not depend on what the sink does with them: a run with
    any sink is the fold of the sink over the reports of the same run. *)
Lemma processFormat_prefix target total rest :
  forall results c l,
    snd (processFormat record target total rest results c l)
    = l ++ snd (processFormat record target total rest results c []).
Proof.
  induction rest as [|f rest IH]; intros results c l.
  - reflexivity.
  - cbn [processFormat]. rewrite IH. symmetry. rewrite IH.
    unfold record. cbn [app]. rewrite <- app_assoc. reflexivity.
Qed.

Lemma processFormat_sink {sigma : Type} (onProgress : num -> sigma -> sigma)
  target total rest :
  forall results c s,
    snd (processFormat onProgress target total rest results c s)
    = fold_left (fun s p => onProgress p s)
        (snd (processFormat record target total rest results c [])) s.
Proof.
  induction rest as [|f rest IH]; intros results c s.
  - reflexivity.
  - cbn [processFormat]. rewrite IH. symmetry.
    rewrite processFormat_prefix. unfold record. cbn [app fold_left].
    reflexivity.
Qed.

Lemma processImage_sink {sigma : Type} (onProgress : num -> sigma -> sigma)
  img o formats resizeMode rd pct presetSize lock s :
  snd (processImageInBrowser onProgress img o formats resizeMode rd pct
         presetSize lock s)
  = fold_left (fun s p => onProgress p s)
      (snd (processImageInBrowser record img o formats resizeMode rd pct
              presetSize lock [])) s.
Proof.
  unfold processImageInBrowser. rewrite processFormat_sink. symmetry.
  rewrite processFormat_prefix, fold_left_app. f_equal.
  destruct o; reflexivity.
Qed.

Lemma processImage_results {sigma : Type} (onProgress : num -> sigma -> sigma)
  img o formats resizeMode rd pct presetSize lock s :
  fst (processImageInBrowser onProgress img o formats resizeMode rd pct
         presetSize lock s)
  = List.map
      (fun f =>
         {| ImageResult.format := f;
            ImageResult.width :=
              width (targetDimensions img resizeMode rd pct presetSize lock);
            ImageResult.height :=
              height (targetDimensions img resizeMode rd pct presetSize lock);
            ImageResult.isPlaceholder := FormatOption_eqb f heic |})
      formats.
Proof.
  unfold processImageInBrowser. rewrite processFormat_results. reflexivity.
Qed.

Lemma map_Fin_inj l1 l2 : List.map Fin l1 = List.map Fin l2 -> l1 = l2.
Proof.
  revert l2. induction l1 as [|a l1 IH]; intros [|b l2] H;
    try discriminate H; [reflexivity|].
  cbn [List.map] in H. injection H as -> H. f_equal. apply IH, H.
Qed.

Lemma sorted_scale ks :
  StronglySorted Z.le (List.map (fun k => k * U) ks) ->
  StronglySorted Z.le ks.
Proof.
  pose proof U_pos as HU.
  induction ks as [|k ks IH]; cbn [List.map]; intros S; constructor.
  - apply IH. apply StronglySorted_inv in S. apply S.
  - apply StronglySorted_inv in S. destruct S as [_ F].
    rewrite Forall_map in F. revert F. apply Forall_impl. intros k' H.
    apply Z.mul_le_mono_pos_r in H; lia.
Qed.

(** The percentages one image reports are whole numbers from 5 to 100 that
    never go down. *)
Lemma processImage_steps img o formats resizeMode rd pct presetSize lock :
  Z.of_nat (List.length formats) < 2 ^ 32 ->
  exists ks,
    snd (processImageInBrowser record img o formats resizeMode rd pct
           presetSize lock [])
    = List.map of_Z ks
    /\ StronglySorted Z.le ks
    /\ Forall (fun k => 5 <= k <= 100) ks.
Proof.
  intros Hn. pose proof U_pos as HU.
  destruct (processImage_log img o formats resizeMode rd pct presetSize lock
              ltac:(lia)) as (zs & Ez & Sz & Bz).
  assert (Bk : Forall (fun z => 5 <= z / U <= 100) zs).
  { revert Bz. apply Forall_impl. intros z Hz. split.
    - apply Z.div_le_lower_bound; lia.
    - apply Z.div_le_upper_bound; lia. }
  assert (Mz : Forall (fun z => z / U * U = z) zs).
  { set (n := List.length formats) in *.
    assert (L : snd (processImageInBrowser record img o formats resizeMode
                       rd pct presetSize lock [])
                = heicSteps record o (record (of_Z 5) [])
                  ++ [of_Z 40; of_Z 50; of_Z 60]
                  ++ List.map (fun i => Fin (formatProgressU
                                               (0 + Z.of_nat i) (Z.of_nat n)))
                       (seq 1 n)
                  ++ [of_Z 100]).
    { unfold processImageInBrowser. fold n. unfold of_nat.
      rewrite processFormat_log by lia. fold n.
      unfold record. rewrite <- !app_assoc. reflexivity. }
    rewrite Ez in L.
    assert (Hh : exists hs, heicSteps record o (record (of_Z 5) [])
                            = List.map Fin (List.map (fun k => k * U) hs)).
    { destruct o; cbn [heicSteps]; unfold record; cbn [app];
        rewrite !of_Z_exact by lia;
        [exists [5; 30]|exists [5; 10; 20; 30]|exists [5; 10]
        |exists [5; 10; 20]]; reflexivity. }
    destruct Hh as (hs & Eh). rewrite Eh in L.
    rewrite !of_Z_exact in L by lia.
    change [Fin (40 * U); Fin (50 * U); Fin (60 * U)]
      with (List.map Fin [40 * U; 50 * U; 60 * U]) in L.
    change [Fin (100 * U)] with (List.map Fin [100 * U]) in L.
    rewrite <- (map_map (fun i => formatProgressU (0 + Z.of_nat i)
                                    (Z.of_nat n)) Fin) in L.
    rewrite <- !map_app in L. apply map_Fin_inj in L. rewrite L.
    apply Forall_app. split.
    { apply Forall_map, Forall_forall. intros k _. rewrite Z.div_mul; lia. }
    apply Forall_app. split.
    { repeat constructor; rewrite Z.div_mul; lia. }
    apply Forall_app. split.
    { apply Forall_map, Forall_forall. intros i _.
      unfold formatProgressU. rewrite Z.div_mul by lia. reflexivity. }
    repeat constructor; rewrite Z.div_mul; lia. }
  exists (List.map (fun z => z / U) zs).
  assert (E : List.map (fun k => k * U) (List.map (fun z => z / U) zs) = zs).
  { rewrite map_map. rewrite <- (map_id zs) at 2. apply map_ext_in.
    intros z Hz. rewrite Forall_forall in Mz. apply Mz, Hz. }
  split; [|split].
  - rewrite Ez. rewrite <- E at 1. rewrite !map_map. apply map_ext_in.
    intros z Hz. rewrite Forall_forall in Bk. specialize (Bk z Hz).
    rewrite of_Z_exact by lia. reflexivity.
  - apply sorted_scale. rewrite E. exact Sz.
  - apply Forall_map. exact Bk.
Qed.

Section Scaled.

(** [n] images are converted. *)
Variable n : Z.
Hypothesis Hn : 0 < n <= 2 ^ 32.

Let G := 2 ^ (1074 - 46).
Let F (i : Z) := 2 ^ 46 * i / n.
Let rnd (v : Z) := (2 * v + U) / (2 * U) * U.
Let rho (i : Z) := rnd ((100 * F i + 200) * G).

Lemma scaled_grid : 0 < G /\ U = 2 ^ 46 * G.
Proof.
  split; [apply pow2_pos; lia|]. apply (U_split 46). lia.
Qed.

Lemma F_bounds i : 0 <= i -> n * F i <= 2 ^ 46 * i < n * F i + n.
Proof.
  intros Hi. unfold F. split.
  - apply Z.mul_div_le. lia.
  - pose proof (Z.mul_succ_div_gt (2 ^ 46 * i) n ltac:(lia)). lia.
Qed.

Lemma F_mono i j : 0 <= i <= j -> F i <= F j.
Proof. intros H. unfold F. apply Z.div_le_mono; lia. Qed.

Lemma F_0 : F 0 = 0.
Proof. unfold F. rewrite Z.mul_0_r. apply Z.div_0_l. lia. Qed.

Lemma F_n : F n = 2 ^ 46.
Proof. unfold F. apply Z.div_mul. lia. Qed.

Lemma F_range i : 0 <= i <= n -> 0 <= F i <= 2 ^ 46.
Proof.
  intros H. rewrite <- F_0, <- F_n. split; apply F_mono; lia.
Qed.

Lemma F_gap i : 0 <= i -> F i + 2 ^ 14 <= F (i + 1).
Proof.
  intros Hi.
  pose proof (F_bounds i Hi) as [A _].
  pose proof (F_bounds (i + 1) ltac:(lia)) as [_ B].
  assert (L : n * 2 ^ 14 < n * (F (i + 1) + 1 - F i)).
  { rewrite Z.mul_sub_distr_l, Z.mul_add_distr_l. lia. }
  apply Z.mul_lt_mono_pos_l in L; lia.
Qed.

Lemma base_bracket i :
  0 <= i <= n ->
  exists b,
    fmul (fdiv (of_Z i) (of_Z n)) (of_Z 100) = Fin b
    /\ 100 * F i * G <= b <= 100 * (F i + 1) * G.
Proof.
  intros Hi. destruct scaled_grid as [PG EU]. pose proof U_pos as HU.
  pose proof (F_bounds i ltac:(lia)) as [D1 D2].
  pose proof (F_range i Hi) as FR.
  assert (GU : 0 <= G * U) by (apply Z.mul_nonneg_nonneg; lia).
  destruct (grid_value 46 (F i) ltac:(lia) ltac:(lia)) as (L0 & LR & _).
  destruct (grid_value 46 (F i + 1) ltac:(lia) ltac:(lia)) as (_ & HR & HM).
  fold G in L0, LR, HR, HM.
  destruct (fl_between (i * U * U) (n * U) (F i * G) ((F i + 1) * G))
    as (w & Ew & Bw); try assumption.
  { apply Z.mul_pos_pos; lia. }
  { replace (F i * G * (n * U)) with (n * F i * (G * U)) by ring.
    replace (i * U * U) with (2 ^ 46 * i * (G * U)) by (rewrite EU; ring).
    apply Z.mul_le_mono_nonneg_r; lia. }
  { replace ((F i + 1) * G * (n * U)) with ((n * F i + n) * (G * U))
      by ring.
    replace (i * U * U) with (2 ^ 46 * i * (G * U)) by (rewrite EU; ring).
    apply Z.mul_le_mono_nonneg_r; lia. }
  destruct (grid_value 46 (100 * F i) ltac:(lia) ltac:(lia))
    as (B0 & BR & _).
  destruct (grid_value 46 (100 * (F i + 1)) ltac:(lia) ltac:(lia))
    as (_ & BR' & BM').
  fold G in B0, BR, BR', BM'.
  destruct (fl_between (w * (100 * U)) U (100 * F i * G)
              (100 * (F i + 1) * G)) as (b & Eb & Bb); try assumption.
  { replace (100 * F i * G * U) with (F i * G * (100 * U)) by ring.
    apply Z.mul_le_mono_nonneg_r; lia. }
  { replace (100 * (F i + 1) * G * U) with ((F i + 1) * G * (100 * U))
      by ring.
    apply Z.mul_le_mono_nonneg_r; lia. }
  exists b. rewrite fdiv_int, Ew, of_Z_exact by lia. cbn [fmul].
  split; [exact Eb|exact Bb].
Qed.

Lemma percent_bracket k :
  5 <= k <= 100 ->
  fdiv (of_Z k) (of_Z 100) = Fin (quotientU k 100)
  /\ 2 ^ 41 * G <= quotientU k 100 <= U.
Proof.
  intros Hk. destruct scaled_grid as [PG EU]. pose proof U_pos as HU.
  split; [apply quotient_finite; lia|]. split.
  - apply Z.le_trans with (quotientU 5 100);
      [|apply quotient_mono; lia].
    unfold quotientU.
    destruct (grid_value 46 (2 ^ 41) ltac:(lia) ltac:(lia)) as (L0 & LR & _).
    fold G in L0, LR.
    apply fl_pos_ge; try assumption; try lia.
  - apply quotient_le_one; lia.
Qed.

(** The scaled value image [i] reports for its own percentage [k], before
    [Math.round]. *)
Lemma scaled_bracket i :
  0 <= i < n ->
  exists b r,
    0 <= b /\ 0 <= r /\ b + r <= 2 ^ 8 * U
    /\ forall k, 5 <= k <= 100 ->
         scaledProgress (of_Z i) (of_Z n) (of_Z k)
         = Fin (fl_pos (b + fl_pos (quotientU k 100 * r) U) 1)
         /\ (100 * F i + 200) * G
            <= fl_pos (b + fl_pos (quotientU k 100 * r) U) 1
            <= (100 * F (i + 1) + 200) * G.
Proof.
  intros Hi. destruct scaled_grid as [PG EU]. pose proof U_pos as HU.
  pose proof MAXU_big as HMX.
  destruct (base_bracket i ltac:(lia)) as (b & Eb & Bb).
  destruct (base_bracket (i + 1) ltac:(lia)) as (b' & Eb' & Bb').
  pose proof (F_range i ltac:(lia)) as FR.
  pose proof (F_range (i + 1) ltac:(lia)) as FR'.
  pose proof (F_gap i ltac:(lia)) as FG.
  set (D := F (i + 1) - F i) in *.
  assert (HD : 2 ^ 14 <= D <= 2 ^ 46) by (unfold D; lia).
  assert (B0 : 0 <= b).
  { assert (0 <= 100 * F i * G) by (apply Z.mul_nonneg_nonneg; lia). lia. }
  destruct (grid_value 46 (100 * D - 100) ltac:(lia) ltac:(lia))
    as (R0 & RR & _).
  destruct (grid_value 46 (100 * D + 100) ltac:(lia) ltac:(lia))
    as (_ & RR' & RM').
  fold G in R0, RR, RR', RM'.
  destruct (fl_between (b' + - b) 1 ((100 * D - 100) * G)
              ((100 * D + 100) * G)) as (r & Er & Br);
    try assumption; try lia.
  assert (R6400 : 6400 * G <= r).
  { assert (6400 * G <= (100 * D - 100) * G)
      by (apply Z.mul_le_mono_nonneg_r; lia).
    lia. }
  assert (BR8 : b + r <= 2 ^ 8 * U).
  { assert (100 * (F i + 1) * G + (100 * D + 100) * G
            = (100 * F (i + 1) + 200) * G) by (unfold D; ring).
    assert ((100 * F (i + 1) + 200) * G <= 2 ^ 8 * 2 ^ 46 * G)
      by (apply Z.mul_le_mono_nonneg_r; lia).
    rewrite EU. lia. }
  exists b, r. split; [exact B0|]. split; [lia|]. split; [exact BR8|].
  intros k Hk.
  destruct (percent_bracket k Hk) as (Eq & Q0 & Q1).
  set (q := quotientU k 100) in *.
  assert (N0 : 0 <= q * r) by (apply Z.mul_nonneg_nonneg; lia).
  destruct (grid_value 46 200 ltac:(lia) ltac:(lia)) as (T0 & TR & _).
  fold G in T0, TR.
  assert (Tlo : 200 * G <= fl_pos (q * r) U).
  { apply fl_pos_ge; try assumption.
    replace (200 * G * U) with (2 ^ 41 * G * (6400 * G))
      by (rewrite EU; change (2 ^ 46) with (2 ^ 41 * 32); ring).
    apply Z.mul_le_mono_nonneg; try lia;
      try (apply Z.mul_nonneg_nonneg; lia). }
  assert (Thi : fl_pos (q * r) U <= (100 * D + 100) * G).
  { apply fl_pos_le; try assumption.
    rewrite (Z.mul_comm q r).
    apply Z.mul_le_mono_nonneg; lia. }
  set (t := fl_pos (q * r) U) in *.
  destruct (grid_value 46 (100 * F i + 200) ltac:(lia) ltac:(lia))
    as (S0 & SR & _).
  destruct (grid_value 46 (100 * F (i + 1) + 200) ltac:(lia) ltac:(lia))
    as (_ & SR' & SM').
  fold G in S0, SR, SR', SM'.
  assert (Slo : (100 * F i + 200) * G <= fl_pos (b + t) 1).
  { apply fl_pos_ge; try assumption; lia. }
  assert (Shi : fl_pos (b + t) 1 <= (100 * F (i + 1) + 200) * G).
  { apply fl_pos_le; try assumption; lia. }
  split; [|split; assumption].
  unfold scaledProgress. rewrite fadd_exact by lia.
  rewrite Eb, Eb', Eq. unfold fsub. cbn [fneg fadd]. rewrite Er.
  cbn [fmul]. rewrite (fl_Fin (q * r) U) by (fold t; lia).
  fold t. cbn [fadd]. apply fl_Fin; lia.
Qed.

Lemma rnd_mono v1 v2 : v1 <= v2 -> rnd v1 <= rnd v2.
Proof.
  intros H. pose proof U_pos as HU. unfold rnd.
  apply Z.mul_le_mono_nonneg_r; [lia|]. apply Z.div_le_mono; lia.
Qed.

Lemma rho_mono i j : 0 <= i <= j -> rho i <= rho j.
Proof.
  intros H. destruct scaled_grid as [PG EU]. unfold rho.
  apply rnd_mono. apply Z.mul_le_mono_nonneg_r; [lia|].
  pose proof (F_mono i j H). lia.
Qed.

Lemma rho_0 : rho 0 = 0.
Proof.
  destruct scaled_grid as [PG EU]. pose proof U_pos as HU.
  unfold rho, rnd. rewrite F_0.
  replace ((100 * 0 + 200) * G) with (200 * G) by ring.
  rewrite Z.div_small; [reflexivity|]. rewrite EU. lia.
Qed.

Lemma rho_n : rho n = 100 * U.
Proof.
  destruct scaled_grid as [PG EU]. pose proof U_pos as HU.
  unfold rho, rnd. rewrite F_n.
  assert (E : (2 * ((100 * 2 ^ 46 + 200) * G) + U) / (2 * U) = 100).
  { symmetry. apply Z.div_unique with (U + 400 * G); [rewrite EU; lia|].
    rewrite EU. ring. }
  rewrite E. reflexivity.
Qed.

(** The reports of image [i] for its own percentages [ks]. *)
Lemma image_reports i ks :
  0 <= i < n ->
  StronglySorted Z.le ks -> Forall (fun k => 5 <= k <= 100) ks ->
  exists zs,
    List.map (fun p => jsRound (scaledProgress (of_Z i) (of_Z n) p))
      (List.map of_Z ks)
    = List.map Fin zs
    /\ StronglySorted Z.le zs
    /\ Forall (fun z => rho i <= z <= rho (i + 1)) zs.
Proof.
  intros Hi Sk Bk. pose proof U_pos as HU.
  destruct (scaled_bracket i Hi) as (b & r & B0 & R0 & BR & V).
  set (f := fun k => rnd (fl_pos (b + fl_pos (quotientU k 100 * r) U) 1)).
  assert (M : forall k k', 5 <= k <= k' -> k' <= 100 -> f k <= f k').
  { intros k k' H1 H2. unfold f. apply rnd_mono.
    pose proof (quotient_bounds k 100 ltac:(lia) ltac:(lia)) as [Q0 _].
    apply fl_pos_mono; [|lia|].
    - pose proof (fl_pos_nonneg (quotientU k 100 * r) U HU
                    ltac:(apply Z.mul_nonneg_nonneg; lia)). lia.
    - apply Z.add_le_mono_l. apply fl_pos_mono; [|lia|].
      + apply Z.mul_nonneg_nonneg; lia.
      + apply Z.mul_le_mono_nonneg_r; [lia|].
        apply quotient_mono; lia. }
  exists (List.map f ks). split; [|split].
  - rewrite !map_map. apply map_ext_in. intros k Hk.
    rewrite Forall_forall in Bk. specialize (Bk k Hk).
    destruct (V k Bk) as [E _]. rewrite E. reflexivity.
  - clear V. induction Sk as [|k ks Sk IH Fk]; cbn [List.map];
      constructor.
    + apply IH. apply Forall_inv_tail in Bk. exact Bk.
    + apply Forall_map. rewrite Forall_forall in *.
      intros k' Hk'. apply M; [|apply Bk; right; exact Hk'].
      split; [apply (Bk k); left; reflexivity|apply Fk, Hk'].
  - apply Forall_map. revert Bk. apply Forall_impl. intros k Hk.
    destruct (V k Hk) as [_ [L H]]. unfold f, rho.
    split; apply rnd_mono; assumption.
Qed.


(** The reports of the images from [i] on. *)
Lemma batch_log formats resizeMode rd pct presetSize lock :
  Z.of_nat (List.length formats) < 2 ^ 32 ->
  forall (imageFiles : list SubmittedImage) (i : nat) allResults s,
    Z.of_nat i + Z.of_nat (List.length imageFiles) <= n ->
    exists zs,
      snd (processImages record (of_Z n) formats resizeMode rd pct
             presetSize lock i imageFiles allResults s)
      = s ++ List.map Fin zs
      /\ StronglySorted Z.le zs
      /\ Forall (fun z =>
                   rho (Z.of_nat i) <= z
                   <= rho (Z.of_nat i + Z.of_nat (List.length imageFiles)))
           zs.
Proof.
  intros Hf. induction imageFiles as [|im rest IH];
    intros i allResults s Hi.
  - exists []. cbn [processImages snd List.map]. rewrite app_nil_r.
    split; [reflexivity|]. split; constructor.
  - cbn [processImages List.length] in *.
    destruct (processImageInBrowser
                (updateImageProgress record (of_nat i) (of_Z n))
                (natural im) (heicOutcome im) formats resizeMode rd pct
                presetSize lock s) as [imageResults s1] eqn:Ep.
    assert (E1 : s1 = snd (processImageInBrowser
                             (updateImageProgress record (of_nat i) (of_Z n))
                             (natural im) (heicOutcome im) formats resizeMode
                             rd pct presetSize lock s))
      by (rewrite Ep; reflexivity).
    rewrite processImage_sink in E1.
    destruct (processImage_steps (natural im) (heicOutcome im) formats
                resizeMode rd pct presetSize lock Hf) as (ks & Ek & Sk & Bk).
    rewrite Ek in E1. unfold updateImageProgress in E1.
    rewrite (fold_record
               (fun p => jsRound (scaledProgress (of_nat i) (of_Z n) p)))
      in E1.
    unfold of_nat in E1.
    destruct (image_reports (Z.of_nat i) ks ltac:(lia) Sk Bk)
      as (z1 & Ez1 & Sz1 & Bz1).
    rewrite Ez1 in E1.
    destruct (IH (S i) (allResults ++ imageResults) s1 ltac:(lia))
      as (z2 & Ez2 & Sz2 & Bz2).
    exists (z1 ++ z2). rewrite Ez2, E1, map_app, <- app_assoc.
    split; [reflexivity|].
    replace (Z.of_nat (S i)) with (Z.of_nat i + 1) in Bz2 by lia.
    replace (Z.of_nat i + 1 + Z.of_nat (List.length rest))
      with (Z.of_nat i + Z.of_nat (S (List.length rest))) in Bz2 by lia.
    pose proof (rho_mono (Z.of_nat i + 1)
                  (Z.of_nat i + Z.of_nat (S (List.length rest)))
                  ltac:(lia)) as M1.
    pose proof (rho_mono (Z.of_nat i) (Z.of_nat i + 1) ltac:(lia)) as M2.
    rewrite Forall_forall in Bz1, Bz2.
    split.
    + apply sorted_app; [exact Sz1|exact Sz2|].
      intros x y Hx Hy. specialize (Bz1 x Hx). specialize (Bz2 y Hy). lia.
    + apply Forall_forall. intros z Hz. apply in_app_or in Hz.
      destruct Hz as [Hz|Hz]; [specialize (Bz1 z Hz)|specialize (Bz2 z Hz)];
        lia.
Qed.

Lemma batch_profile formats resizeMode rd pct presetSize lock
  (imageFiles : list SubmittedImage) allResults s :
  Z.of_nat (List.length formats) < 2 ^ 32 ->
  Z.of_nat (List.length imageFiles) = n ->
  exists zs,
    snd (processImages record (of_Z n) formats resizeMode rd pct presetSize
           lock 0 imageFiles allResults s)
    = s ++ List.map Fin zs
    /\ StronglySorted Z.le zs
    /\ Forall (fun z => 0 <= z <= 100 * U) zs.
Proof.
  intros Hf Hl.
  destruct (batch_log formats resizeMode rd pct presetSize lock Hf
              imageFiles 0%nat allResults s ltac:(lia))
    as (zs & E & S & B).
  exists zs. split; [exact E|]. split; [exact S|].
  revert B. apply Forall_impl. intros z Hz.
  cbn [Z.of_nat] in Hz. rewrite Z.add_0_l, Hl, rho_0, rho_n in Hz. exact Hz.
Qed.

End Scaled.

Lemma processImages_results {sigma : Type}
  (setProgress : num -> sigma -> sigma) total formats resizeMode rd pct
  presetSize lock :
  forall (imageFiles : list SubmittedImage) i allResults s,
    fst (processImages setProgress total formats resizeMode rd pct
           presetSize lock i imageFiles allResults s)
    = allResults
      ++ flat_map
           (fun imageFile =>
              List.map
                (fun f =>
                   {| ImageResult.format := f;
                      ImageResult.width :=
                        width (targetDimensions (natural imageFile)
                                 resizeMode rd pct presetSize lock);
                      ImageResult.height :=
                        height (targetDimensions (natural imageFile)
                                  resizeMode rd pct presetSize lock);
                      ImageResult.isPlaceholder := FormatOption_eqb f heic |})
                formats)
           imageFiles.
Proof.
  induction imageFiles as [|im rest IH]; intros i allResults s.
  - cbn [processImages fst flat_map]. rewrite app_nil_r. reflexivity.
  - cbn [processImages flat_map].
    destruct (processImageInBrowser
                (updateImageProgress setProgress (of_nat i) total)
                (natural im) (heicOutcome im) formats resizeMode rd pct
                presetSize lock s) as [imageResults s1] eqn:Ep.
    rewrite IH, <- app_assoc. do 2 f_equal.
    change imageResults with (fst (imageResults, s1)). rewrite <- Ep.
    apply processImage_results.
Qed.

(** X29. A batch with no image or no format does nothing.  Otherwise the
    results handed to [setResults] are one per image and format, image by
    image in the order of the formats, each with the target size of its
    image, whatever the progress sink does. *)
Theorem batch_yields_result_per_image_and_format
  {sigma : Type} (setProgress : num -> sigma -> sigma)
  (imageFiles : list SubmittedImage) (formats : list FormatOption)
  (resizeMode : ResizeMode) (rd : ResizeDimensions) (pct : num)
  (presetSize : PresetSize) (lock : bool) (s : sigma) :
  (imageFiles = [] \/ formats = [] ->
   handleSubmit setProgress imageFiles formats resizeMode rd pct presetSize
     lock s = None)
  /\ (imageFiles <> [] -> formats <> [] ->
      exists allResults s',
        handleSubmit setProgress imageFiles formats resizeMode rd pct
          presetSize lock s = Some (allResults, s')
        /\ allResults
           = flat_map
               (fun imageFile =>
                  List.map
                    (fun f =>
                       {| ImageResult.format := f;
                          ImageResult.width :=
                            width (targetDimensions (natural imageFile)
                                     resizeMode rd pct presetSize lock);
                          ImageResult.height :=
                            height (targetDimensions (natural imageFile)
                                      resizeMode rd pct presetSize lock);
                          ImageResult.isPlaceholder :=
                            FormatOption_eqb f heic |})
                    formats)
               imageFiles
        /\ List.length allResults
           = (List.length imageFiles * List.length formats)%nat).
Proof.
  split.
  - intros [-> | ->]; unfold handleSubmit; cbn [List.length Nat.eqb orb];
      [reflexivity|]. rewrite orb_true_r. reflexivity.
  - intros Hi Hf. unfold handleSubmit.
    destruct imageFiles as [|im0 rest] eqn:Ei; [congruence|].
    destruct formats as [|f0 frest] eqn:Ef; [congruence|].
    rewrite <- Ei, <- Ef in *.
    assert (N : Nat.eqb (List.length imageFiles) 0
                || Nat.eqb (List.length formats) 0 = false)
      by (rewrite Ei, Ef; reflexivity).
    rewrite N.
    destruct (processImages setProgress (of_nat (List.length imageFiles))
                formats resizeMode rd pct presetSize lock 0 imageFiles []
                (setProgress (of_Z 0) s)) as [allResults s1] eqn:Ep.
    exists allResults, (setProgress (of_Z 100) s1).
    split; [reflexivity|].
    assert (E : allResults
                = fst (processImages setProgress
                         (of_nat (List.length imageFiles)) formats resizeMode
                         rd pct presetSize lock 0 imageFiles []
                         (setProgress (of_Z 0) s)))
      by (rewrite Ep; reflexivity).
    rewrite processImages_results in E. cbn [app] in E.
    split; [exact E|]. rewrite E. clear.
    induction imageFiles as [|im rest IH]; [reflexivity|].
    cbn [flat_map List.length]. rewrite length_app, length_map, IH.
    reflexivity.
Qed.

Lemma batch_yields_result_per_image_and_format_witness :
  let im w h := {| natural := pixels w h; heicOutcome := NotHeic |} in
  exists allResults s',
    handleSubmit record [im 640 480; im 100 50] [jpeg; webp; heic]
      percentage (pixels 0 0) (of_Z 50) medium true []
    = Some (allResults, s')
    /\ List.length allResults = (2 * 3)%nat.
Proof.
  intros im.
  destruct (batch_yields_result_per_image_and_format record
              [im 640 480; im 100 50] [jpeg; webp; heic] percentage
              (pixels 0 0) (of_Z 50) medium true []) as [_ H].
  destruct (H ltac:(discriminate) ltac:(discriminate))
    as (allResults & s' & E & _ & L).
  exists allResults, s'. split; [exact E|exact L].
Defined.

(** X30. The progress bar of a batch starts at 0, never goes down, never
    exceeds 100 and ends at 100, for every number of images and formats and
    whatever the sizes and the HEIC outcomes are. *)
Theorem batch_progress_never_goes_back
  (imageFiles : list SubmittedImage) (formats : list FormatOption)
  (resizeMode : ResizeMode) (rd : ResizeDimensions) (pct : num)
  (presetSize : PresetSize) (lock : bool) :
  imageFiles <> [] -> formats <> [] ->
  Z.of_nat (List.length imageFiles) <= 2 ^ 32 ->
  Z.of_nat (List.length formats) < 2 ^ 32 ->
  exists allResults middle,
    handleSubmit record imageFiles formats resizeMode rd pct presetSize
      lock []
    = Some (allResults, of_Z 0 :: middle ++ [of_Z 100])
    /\ StronglySorted num_le (of_Z 0 :: middle ++ [of_Z 100])
    /\ Forall (fun p => num_le (of_Z 0) p /\ num_le p (of_Z 100)) middle.
Proof.
  intros Hi Hf Bi Bf. pose proof U_pos as HU.
  assert (Li : (0 < List.length imageFiles)%nat)
    by (destruct imageFiles; [congruence|cbn; lia]).
  assert (Lf : (0 < List.length formats)%nat)
    by (destruct formats; [congruence|cbn; lia]).
  unfold handleSubmit.
  assert (N : Nat.eqb (List.length imageFiles) 0
              || Nat.eqb (List.length formats) 0 = false).
  { apply orb_false_iff. split; apply Nat.eqb_neq; lia. }
  rewrite N. unfold of_nat.
  destruct (batch_profile (Z.of_nat (List.length imageFiles)) ltac:(lia)
              formats resizeMode rd pct presetSize lock imageFiles []
              (record (of_Z 0) []) Bf eq_refl) as (zs & E & S & B).
  destruct (processImages record (of_Z (Z.of_nat (List.length imageFiles)))
              formats resizeMode rd pct presetSize lock 0 imageFiles []
              (record (of_Z 0) [])) as [allResults s1] eqn:Ep.
  cbn [snd] in E. subst s1.
  exists allResults, (List.map Fin zs). unfold record. cbn [app].
  split; [reflexivity|].
  rewrite !of_Z_exact by lia.
  split.
  - assert (EQ : Fin (0 * U) :: List.map Fin zs ++ [Fin (100 * U)]
                 = List.map Fin ((0 * U :: zs) ++ [100 * U]))
      by (cbn [app List.map]; rewrite map_app; reflexivity).
    rewrite EQ. apply sorted_Fin, sorted_app.
    + constructor; [exact S|]. revert B. apply Forall_impl. intros z; lia.
    + repeat constructor.
    + intros x y Hx Hy. cbn [In] in Hy. destruct Hy as [<-|[]].
      destruct Hx as [<-|Hx]; [lia|].
      rewrite Forall_forall in B. specialize (B x Hx). lia.
  - apply Forall_map. revert B. apply Forall_impl. intros z Hz.
    split; apply num_le_Fin; lia.
Qed.

Lemma batch_progress_never_goes_back_witness :
  let im w h := {| natural := pixels w h; heicOutcome := HeicConverted |} in
  exists allResults middle,
    handleSubmit record [im 640 480; im 100 50; im 7 9] [jpeg; webp]
      dimensions (pixels 320 0) (of_Z 50) medium true []
    = Some (allResults, of_Z 0 :: middle ++ [of_Z 100])
    /\ StronglySorted num_le (of_Z 0 :: middle ++ [of_Z 100]).
Proof.
  intros im.
  destruct (batch_progress_never_goes_back
              [im 640 480; im 100 50; im 7 9] [jpeg; webp]
              dimensions (pixels 320 0) (of_Z 50) medium true
              ltac:(discriminate) ltac:(discriminate)
              ltac:(vm_compute; discriminate) ltac:(vm_compute; reflexivity))
    as (allResults & middle & E & S & _).
  exists allResults, middle. split; [exact E|exact S].
Defined.
